(** * The tsi1 file-set merge engine: a shallow embedding

    The development follows the Go sources of the index subsystem:
    - [tsdb/index/tsi1/file_set.go]: [FileSet] with its operations, from
      [Close], [Size] and [MaxID] over [PrependLogFile], [MustReplace] and
      [LastContiguousIndexFilesByLevel] to the lookups and iterators
      [Metric], [HasTagKey], [TagKeyIterator], [MetricTagKeysByExpr] and
      [TagValueSeriesIDIterator], and the iterators that release a file set
      when they are closed;
    - [tsdb/series_cursor.go]: [newSeriesCursor] and the methods of the
      cursor, and with it, in package tsi1, the merge iterators
      [metricMergeIterator], [tagKeyMergeIterator], [tagValueMergeIterator],
      their merged elements, the tsdb adapters, the sortable slices and the
      helpers that write and read numbers.

    Go values are modelled as the code has them: a [[]byte] is a byte list
    that may also be the nil slice, an interface value that may be nil is an
    [option], a pair of a result and an error is a pair, a panic is an
    explicit outcome, and loops over slices are structural recursions over
    lists.  The file has the model first, then the notions used to state
    and prove its properties, then sample data, then the proofs. *)

From Stdlib Require Import ZArith List Strings.String Strings.Byte Lia Sorted.
From stdpp Require Import gmap strings list sets pretty.

Open Scope Z_scope.

(* ================================================================== *)
(** * Go byte slices *)
(* ================================================================== *)

(** A value of type [[]byte].  [None] is the nil slice, [Some []] the empty
    non-nil slice; [x == nil] tells them apart while package [bytes] does
    not. *)
Definition Bytes : Type := option (list byte).

Definition content (b : Bytes) : list byte :=
  match b with
  | None => []
  | Some l => l
  end.

Definition is_nil (b : Bytes) : bool :=
  match b with
  | None => true
  | Some _ => false
  end.

(** [bytes.Compare] on the contents: lexicographic on unsigned byte values,
    with result -1, 0 or +1. *)
Fixpoint compare_bytes (a b : list byte) : Z :=
  match a, b with
  | [], [] => 0
  | [], _ :: _ => -1
  | _ :: _, [] => 1
  | x :: a', y :: b' =>
      match N.compare (Byte.to_N x) (Byte.to_N y) with
      | Lt => -1
      | Gt => 1
      | Eq => compare_bytes a' b'
      end
  end.

(** [bytes.Compare(a, b)]: a nil argument is equivalent to an empty slice. *)
Definition Compare (a b : Bytes) : Z := compare_bytes (content a) (content b).

#[global] Instance byte_eq_decision : EqDecision byte := Byte.byte_eq_dec.

(** [bytes.Equal(a, b)]: same length and same bytes; nil equals empty. *)
Definition Equal (a b : Bytes) : bool := bool_decide (content a = content b).

(** [string(b)] and [[]byte(s)]. *)
Definition string_of_Bytes (b : Bytes) : string := string_of_list_byte (content b).
Definition Bytes_of_string (s : string) : Bytes := Some (list_byte_of_string s).

(** The strict order of keys used by every sorted iterator. *)
Definition key_lt (a b : Bytes) : Prop := Compare a b = -1.

(* ================================================================== *)
(** * Merge iterators (package tsi1) *)
(* ================================================================== *)

(** [metricMergeIterator], [tagKeyMergeIterator] and [tagValueMergeIterator]
    are the same code up to the name of the key accessor ([Name], [Key],
    [Value]).  The code is modelled once, over an element type [E] with its
    key accessor, and instantiated three times below. *)
Section MergeIterator.
Context {E : Type} (key : E → Bytes) (deleted : E → bool).

(** A source iterator is the list of the elements it has still to return:
    [Next()] pops the head, and returns nil on the empty list.  Entry [i]
    of [buf] and entry [i] of [itrs] are kept side by side in one [slot]. *)
Record slot : Type := Slot { buf : option E; itr : list E }.

(** The state of a merge iterator: [buf] and [itrs].  Field [e] of the Go
    struct is the storage of the returned group and carries no state from
    one call to the next. *)
Definition mergeIterator : Type := list slot.

(** [MergeXIterators(itrs...)]: nil for no iterator, else empty buffers. *)
Definition MergeIterators (itrs : list (list E)) : option mergeIterator :=
  match itrs with
  | [] => None
  | _ => Some (map (Slot None) itrs)
  end.

(** "Fill buffer if empty." *)
Definition fill (s : slot) : slot :=
  match buf s with
  | Some _ => s
  | None =>
      match itr s with
      | e :: r => Slot (Some e) r
      | [] => s
      end
  end.

(** "Find next lowest name": one iteration of the first loop on a slot
    whose buffer has been filled. *)
Definition lowest (name : Bytes) (b : option E) : Bytes :=
  match b with
  | None => name
  | Some e =>
      if is_nil name || (Compare (key e) name =? -1) then key e else name
  end.

(** The first loop of [Next]. *)
Fixpoint fill_lowest (name : Bytes) (it : mergeIterator) : Bytes * mergeIterator :=
  match it with
  | [] => (name, [])
  | s :: rest =>
      let s' := fill s in
      let '(n, rest') := fill_lowest (lowest name (buf s')) rest in
      (n, s' :: rest')
  end.

(** The second loop of [Next]: "Merge all elements together and clear
    buffers." *)
Fixpoint merge_clear (name : Bytes) (it : mergeIterator) : list E * mergeIterator :=
  match it with
  | [] => ([], [])
  | s :: rest =>
      let '(g, rest') := merge_clear name rest in
      match buf s with
      | None => (g, s :: rest')
      | Some e =>
          if Equal (key e) name
          then (e :: g, Slot None (itr s) :: rest')
          else (g, s :: rest')
      end
  end.

(** [Next]: the returned element is the merged group, or nil. *)
Definition merge_Next (it : mergeIterator) : option (list E) * mergeIterator :=
  let '(name, it1) := fill_lowest None it in
  match name with
  | None => (None, it1)
  | Some _ => let '(g, it2) := merge_clear name it1 in (Some g, it2)
  end.

(** "Name returns the name of the first element." *)
Definition mergeElem_key (p : list E) : Bytes :=
  match p with
  | [] => None
  | e :: _ => key e
  end.

(** "Deleted returns the deleted flag of the first element." *)
Definition mergeElem_Deleted (p : list E) : bool :=
  match p with
  | [] => false
  | e :: _ => deleted e
  end.

(** The first [n] results of calling [Next] again and again, stopping at
    the first nil. *)
Fixpoint merge_run (n : nat) (it : mergeIterator) : list (list E) :=
  match n with
  | O => []
  | S n' =>
      match merge_Next it with
      | (None, _) => []
      | (Some g, it') => g :: merge_run n' it'
      end
  end.

(** The elements a slot has not yet given away, and their number. *)
Definition pending (s : slot) : list E :=
  match buf s with
  | None => itr s
  | Some e => e :: itr s
  end.

Definition remaining (it : mergeIterator) : list E := concat (map pending it).

(** The loop [for e := itr.Next(); e != nil; e = itr.Next()]. Every group
    takes at least one pending element, so one more call than there are
    pending elements always reaches the nil. *)
Definition merge_drain (it : mergeIterator) : list (list E) :=
  merge_run (S (length (remaining it))) it.

End MergeIterator.

Arguments slot : clear implicits.
Arguments mergeIterator : clear implicits.
Arguments Slot {E} _ _.
Arguments buf {E} _.
Arguments itr {E} _.

(* ================================================================== *)
(** * The tsdb adapters (package tsi1) *)
(* ================================================================== *)

(** [tsdbMetricIteratorAdapter], [tsdbTagKeyIteratorAdapter] and
    [tsdbTagValueIteratorAdapter] wrap any iterator of the matching
    interface: [I] is the wrapped iterator with its [Next], [X] its element
    type.  The Go loop [for { ... continue ... }] has no bound of its own, so
    the model takes the number of calls it may make; [None] means that this
    number did not suffice.  The error result is always nil and is left out. *)
Section Adapter.
Context {I X : Type} (next : I → option X * I).
Context (xkey : X → Bytes) (xdeleted : X → bool).

Fixpoint adapter_Next (fuel : nat) (it : I) : option (Bytes * I) :=
  match fuel with
  | O => None
  | S fuel' =>
      match next it with
      | (None, it') => Some (None, it')
      | (Some e, it') =>
          if xdeleted e then adapter_Next fuel' it' else Some (xkey e, it')
      end
  end.

(** The results of [k] successive calls of the wrapped [Next] that all
    returned an element, with the state they lead to. *)
Fixpoint next_many (k : nat) (it : I) : option (list X * I) :=
  match k with
  | O => Some ([], it)
  | S k' =>
      match next it with
      | (None, _) => None
      | (Some e, it') =>
          match next_many k' it' with
          | None => None
          | Some (es, it'') => Some (e :: es, it'')
          end
      end
  end.
End Adapter.

(* ================================================================== *)
(** * Elements of the three kinds *)
(* ================================================================== *)

(** What a file hands out for a metric, a tag key and a tag value.  The
    interfaces [MetricElem], [TagKeyElem], [TagValueElem] are observed only
    through their methods, which become the fields. *)
Module MetricElem.
Record t : Type := Make { Name : Bytes; Deleted : bool }.
End MetricElem.

Module TagValueElem.
Record t : Type := Make { Value : Bytes; Deleted : bool }.
End TagValueElem.

Module TagKeyElem.
Record t : Type :=
  Make { Key : Bytes; Deleted : bool; TagValueIterator : list TagValueElem.t }.
End TagKeyElem.

(** ** Metrics *)
Definition metricMergeElem : Type := list MetricElem.t.
Definition metricMergeElem_Name : metricMergeElem → Bytes :=
  mergeElem_key MetricElem.Name.
Definition metricMergeElem_Deleted : metricMergeElem → bool :=
  mergeElem_Deleted MetricElem.Deleted.
Definition metricMergeIterator : Type := mergeIterator MetricElem.t.
Definition MergeMetricIterators : list (list MetricElem.t) → option metricMergeIterator :=
  MergeIterators.
Definition metricMergeIterator_Next : metricMergeIterator → option metricMergeElem * metricMergeIterator :=
  merge_Next MetricElem.Name.
Definition tsdbMetricIteratorAdapter_Next :=
  adapter_Next metricMergeIterator_Next metricMergeElem_Name metricMergeElem_Deleted.

(** ** Tag values *)
Definition tagValueMergeElem : Type := list TagValueElem.t.
Definition tagValueMergeElem_Value : tagValueMergeElem → Bytes :=
  mergeElem_key TagValueElem.Value.
Definition tagValueMergeElem_Deleted : tagValueMergeElem → bool :=
  mergeElem_Deleted TagValueElem.Deleted.
Definition tagValueMergeIterator : Type := mergeIterator TagValueElem.t.
Definition MergeTagValueIterators : list (list TagValueElem.t) → option tagValueMergeIterator :=
  MergeIterators.
Definition tagValueMergeIterator_Next : tagValueMergeIterator → option tagValueMergeElem * tagValueMergeIterator :=
  merge_Next TagValueElem.Value.
Definition tsdbTagValueIteratorAdapter_Next :=
  adapter_Next tagValueMergeIterator_Next tagValueMergeElem_Value tagValueMergeElem_Deleted.

(** ** Tag keys *)
Definition tagKeyMergeElem : Type := list TagKeyElem.t.
Definition tagKeyMergeElem_Key : tagKeyMergeElem → Bytes :=
  mergeElem_key TagKeyElem.Key.
Definition tagKeyMergeElem_Deleted : tagKeyMergeElem → bool :=
  mergeElem_Deleted TagKeyElem.Deleted.
Definition tagKeyMergeIterator : Type := mergeIterator TagKeyElem.t.
Definition MergeTagKeyIterators : list (list TagKeyElem.t) → option tagKeyMergeIterator :=
  MergeIterators.
Definition tagKeyMergeIterator_Next : tagKeyMergeIterator → option tagKeyMergeElem * tagKeyMergeIterator :=
  merge_Next TagKeyElem.Key.
Definition tsdbTagKeyIteratorAdapter_Next :=
  adapter_Next tagKeyMergeIterator_Next tagKeyMergeElem_Key tagKeyMergeElem_Deleted.

(** The loop of [tagKeyMergeElem.TagValueIterator]: the sub-iterator of each
    constituent is appended, and the loop breaks after a deleted one. *)
Fixpoint until_tombstone (p : tagKeyMergeElem) : list (list TagValueElem.t) :=
  match p with
  | [] => []
  | e :: rest =>
      TagKeyElem.TagValueIterator e ::
        (if TagKeyElem.Deleted e then [] else until_tombstone rest)
  end.

(** "TagValueIterator returns a merge iterator for all elements until a
    tombstone occurs." *)
Definition tagKeyMergeElem_TagValueIterator (p : tagKeyMergeElem) : option tagValueMergeIterator :=
  match p with
  | [] => None
  | _ => MergeTagValueIterators (until_tombstone p)
  end.

(* ================================================================== *)
(** * Predicate trees (package cnosql) *)
(* ================================================================== *)

(** A Go [error] value, by its message. *)
Definition error : Type := string.

Module cnosql.

(** Modelled from the spec: package [cnosql] is an external library and is
    not part of the sources.  The operator tokens are the six that the
    index accepts plus comparison, arithmetic and bitwise operators. *)
Inductive Token : Type :=
| EQ | NEQ | EQREGEX | NEQREGEX | AND | OR
| LT | LTE | GT | GTE
| ADD | SUB | MUL | DIV | MOD
| BITWISE_AND | BITWISE_OR | BITWISE_XOR.

Definition Token_String (t : Token) : string :=
  match t with
  | EQ => "=" | NEQ => "!=" | EQREGEX => "=~" | NEQREGEX => "!~"
  | AND => "AND" | OR => "OR"
  | LT => "<" | LTE => "<=" | GT => ">" | GTE => ">="
  | ADD => "+" | SUB => "-" | MUL => "*" | DIV => "/" | MOD => "%"
  | BITWISE_AND => "&" | BITWISE_OR => "|" | BITWISE_XOR => "^"
  end%string.

(** "IsRegexOp returns true if the operator accepts a regex operand." *)
Definition IsRegexOp (t : Token) : bool :=
  match t with
  | EQREGEX | NEQREGEX => true
  | _ => false
  end.

(** A compiled [*regexp.Regexp], by what its [Match] answers. *)
Definition Regexp : Type := list byte → bool.

(** Modelled from the spec: the node kinds of a pre-parsed predicate.
    [NilExpr] is the nil interface value; [IntegerLiteral] stands for the
    literal kinds that are no string and no regular expression. *)
Inductive Expr : Type :=
| NilExpr
| BinaryExpr (Op : Token) (LHS RHS : Expr)
| ParenExpr (e : Expr)
| VarRef (Val : string)
| StringLiteral (Val : string)
| RegexLiteral (Val : Regexp)
| IntegerLiteral (Val : Z).

(** Modelled from the spec: [WalkFunc(node, fn)] calls [fn] on every node
    of the tree, parents first, left to right; a nil node is not visited.
    [fn] is a closure over variables of its caller: their contents are the
    state [S] threaded through the calls. *)
Fixpoint WalkFunc {S : Type} (node : Expr) (fn : Expr → S → S) (s : S) : S :=
  match node with
  | NilExpr => s
  | BinaryExpr _ l r => WalkFunc r fn (WalkFunc l fn (fn node s))
  | ParenExpr e => WalkFunc e fn (fn node s)
  | _ => fn node s
  end.

End cnosql.

(* ================================================================== *)
(** * newSeriesCursor (series_cursor.go) *)
(* ================================================================== *)

Section SeriesCursor.
(** [M] is a [tsdb.MetricIterator] and [IS] an [IndexSet]; both are used
    here as opaque references. *)
Context {M IS : Type}.

Record SeriesCursorRequest : Type := { Metrics : option M }.

(** The fields of [seriesCursor] that construction sets; [keys] and [ofs]
    start at their zero values. *)
Record seriesCursor : Type :=
  { cur_indexSet : IS;
    cur_mitr : option M;
    cur_keys : list Bytes;
    cur_ofs : Z;
    cur_cond : cnosql.Expr }.

(** What construction does outside its own memory: the only such step is
    the call [indexSet.MetricIterator()], which opens the file set. *)
Inductive event : Type :=
| CallMetricIterator (indexSet : IS).

(** The closure passed to [WalkFunc]; it assigns the captured [err]. *)
Definition check_operator (node : cnosql.Expr) (err : option error) : option error :=
  match node with
  | cnosql.BinaryExpr op _ _ =>
      match op with
      | cnosql.EQ | cnosql.NEQ | cnosql.EQREGEX | cnosql.NEQREGEX
      | cnosql.OR | cnosql.AND => err
      | _ => Some "invalid tag comparison operator"%string
      end
  | _ => err
  end.

(** [indexSet_MetricIterator] is the method [IndexSet.MetricIterator] of
    package tsdb: it returns an iterator and an error.  The result of
    [newSeriesCursor] is the pair that Go returns, with the trace of
    events in the order they happened. *)
Definition newSeriesCursor
    (indexSet_MetricIterator : IS → option M * option error)
    (req : SeriesCursorRequest) (indexSet : IS) (cond : cnosql.Expr)
  : (option seriesCursor * option error) * list event :=
  let err := cnosql.WalkFunc cond check_operator None in
  match err with
  | Some e => ((None, Some e), [])
  | None =>
      let mk mitr := {| cur_indexSet := indexSet; cur_mitr := mitr;
                        cur_keys := []; cur_ofs := 0; cur_cond := cond |} in
      match Metrics req with
      | Some m => ((Some (mk (Some m)), None), [])
      | None =>
          match indexSet_MetricIterator indexSet with
          | (_, Some e) => ((None, Some e), [CallMetricIterator indexSet])
          | (mitr, None) => ((Some (mk mitr), None), [CallMetricIterator indexSet])
          end
      end
  end.
End SeriesCursor.

(* ================================================================== *)
(** * Series-ID sets (package tsdb) *)
(* ================================================================== *)

(** Modelled from the spec: [tsdb.SeriesIDSet] lives in a file that is not
    part of the sources.  It is a set of series identifiers with
    [Merge(other)] the in-place union, [AndNot(other)] the set of members
    that are not in [other], returned as a new set, and [Cardinality()] the
    number of members. *)
Abbreviation SeriesIDSet := (gset N).

Definition NewSeriesIDSet : SeriesIDSet := ∅.
Definition SeriesIDSet_Merge (s other : SeriesIDSet) : SeriesIDSet := s ∪ other.
Definition SeriesIDSet_AndNot (s other : SeriesIDSet) : SeriesIDSet := s ∖ other.
Definition SeriesIDSet_Cardinality (s : SeriesIDSet) : Z := Z.of_nat (size s).

(* ================================================================== *)
(** * Files and file sets (file_set.go) *)
(* ================================================================== *)

(** How a call ends: it returns, or the goroutine panics. *)
Inductive panic_value : Type :=
| AssertFailed (msg : string)                    (* assert(cond, msg) *)
| PanicMessage (msg : string)                    (* panic("...") *)
| NonContiguous (subset fileset : list Z)        (* panic(fmt.Sprintf(...)) *)
| IndexOutOfRange (index len : nat).             (* runtime error *)

Inductive outcome (A : Type) : Type :=
| Returns (a : A)
| Panics (p : panic_value).
Arguments Returns {A} _.
Arguments Panics {A} _.

(** The methods of interface [File] that the modelled operations call.  A
    value of type [File] is a reference to a log or index file: two values
    are equal when they are the same object. *)
Class FileMethods (File : Type) : Type :=
  { File_ID : File → Z;
    File_Metric : File → Bytes → option MetricElem.t;
    File_TagKeyIterator : File → Bytes → option (list TagKeyElem.t);
    File_TagValueSeriesIDSet :
      File → Bytes → Bytes → Bytes → option SeriesIDSet * option error;
    File_TombstoneSeriesIDSet : File → option SeriesIDSet * option error }.

Section FileSet.
Context {File : Type} `{EqDecision File} `{FileMethods File}.
(** [CompactionLevel] values and the [*tsdb.SeriesFile] are only carried
    around. *)
Context {CompactionLevel SeriesFile : Type}.

Record FileSet : Type :=
  { levels : list CompactionLevel;
    sfile : option SeriesFile;
    files : list File;
    manifestSize : Z }.

(** [NewFileSet] *)
Definition NewFileSet (levels : list CompactionLevel) (sfile : option SeriesFile)
    (files : list File) : FileSet * option error :=
  ({| levels := levels; sfile := sfile; files := files; manifestSize := 0 |}, None).

(** [SeriesFile] *)
Definition FileSet_SeriesFile (fs : FileSet) : option SeriesFile := sfile fs.

(** [PrependLogFile] *)
Definition PrependLogFile (fs : FileSet) (f : File) : FileSet :=
  {| levels := levels fs; sfile := sfile fs; files := f :: files fs;
     manifestSize := 0 |}.

(** [Files.IDs] *)
Definition IDs (a : list File) : list Z := map File_ID a.

(** "Find index of first old file": the loop starts at [i] on the files
    from index [i] on.  It ends by [break], by the panic at the last
    index, or, on no file at all, by its condition. *)
Fixpoint find_first (rest : list File) (old0 : File) (i : nat) : outcome nat :=
  match rest with
  | [] => Returns i
  | f :: rest' =>
      if decide (f = old0) then Returns i
      else
        match rest' with
        | [] => Panics (PanicMessage "first replacement file not found")
        | _ => find_first rest' old0 (S i)
        end
  end.

(** "Ensure all old files are contiguous": the loop over [oldFiles] from
    index [j] on; [fs.files[i+j]] panics out of range. *)
Fixpoint check_contiguous (all : list File) (oldFiles : list File)
    (i j : nat) (olds : list File) : outcome unit :=
  match olds with
  | [] => Returns tt
  | o :: olds' =>
      match all !! (i + j)%nat with
      | None => Panics (IndexOutOfRange (i + j) (length all))
      | Some f =>
          if decide (f = o) then check_contiguous all oldFiles i (S j) olds'
          else Panics (NonContiguous (IDs oldFiles) (IDs all))
      end
  end.

(** [MustReplace] *)
Definition MustReplace (fs : FileSet) (oldFiles : list File) (newFile : File)
  : outcome FileSet :=
  match oldFiles with
  | [] => Panics (AssertFailed "assert failed: cannot replace empty files")
  | old0 :: _ =>
      match find_first (files fs) old0 0 with
      | Panics p => Panics p
      | Returns i =>
          match check_contiguous (files fs) oldFiles i 0 oldFiles with
          | Panics p => Panics p
          | Returns _ =>
              (* "Copy to new fileset." *)
              let other :=
                take i (files fs) ++ newFile :: drop (i + length oldFiles) (files fs) in
              Returns {| levels := levels fs; sfile := None; files := other;
                         manifestSize := 0 |}
          end
      end
  end.

(** [Metric]: the loop over the files, with the files whose [Metric]
    method it has called, in the order of the calls. *)
Fixpoint Metric_loop (fl : list File) (name : Bytes)
  : option MetricElem.t * list File :=
  match fl with
  | [] => (None, [])
  | f :: rest =>
      match File_Metric f name with
      | None => let '(r, seen) := Metric_loop rest name in (r, f :: seen)
      | Some e =>
          if MetricElem.Deleted e then (None, [f]) else (Some e, [f])
      end
  end.

Definition FileSet_Metric (fs : FileSet) (name : Bytes) : option MetricElem.t :=
  fst (Metric_loop (files fs) name).

Definition FileSet_Metric_consulted (fs : FileSet) (name : Bytes) : list File :=
  snd (Metric_loop (files fs) name).

(** [TagKeyIterator] *)
Definition FileSet_TagKeyIterator (fs : FileSet) (name : Bytes)
  : option tagKeyMergeIterator :=
  MergeTagKeyIterators (omap (λ f, File_TagKeyIterator f name) (files fs)).

(** The loop [for e := itr.Next(); e != nil; e = itr.Next()] of
    [MetricTagKeysByExpr] and [tagKeysByFilter]: each element [e] whose key
    [keep] lets through sets [ss[string(e.Key())]]. *)
Definition collect_keys (keep : Bytes → bool) (itr : option tagKeyMergeIterator)
  : gset string :=
  match itr with
  | None => ∅
  | Some it =>
      fold_left
        (λ (ss : gset string) (e : tagKeyMergeElem),
           if keep (tagKeyMergeElem_Key e)
           then {[ string_of_Bytes (tagKeyMergeElem_Key e) ]} ∪ ss
           else ss)
        (merge_drain TagKeyElem.Key it) ∅
  end.

(** The [switch op] of [tagKeysByFilter].  A nil [regex] makes the call of
    [Match] panic; [MetricTagKeysByExpr] passes a regular expression with
    both regex operators. *)
Definition matched (op : cnosql.Token) (val : Bytes) (regex : option cnosql.Regexp)
    (k : Bytes) : bool :=
  match op with
  | cnosql.EQ => Equal k val
  | cnosql.NEQ => negb (Equal k val)
  | cnosql.EQREGEX =>
      match regex with Some re => re (content k) | None => false end
  | cnosql.NEQREGEX =>
      match regex with Some re => negb (re (content k)) | None => false end
  | _ => false
  end.

(** [tagKeysByFilter] *)
Definition tagKeysByFilter (fs : FileSet) (name : Bytes) (op : cnosql.Token)
    (val : Bytes) (regex : option cnosql.Regexp) : gset string :=
  collect_keys (matched op val regex) (FileSet_TagKeyIterator fs name).

(** Modelled from the spec: [unionStringSets] and [intersectStringSets]
    are defined in a file that is not part of the sources; "AND
    intersects, OR unions". *)
Definition unionStringSets (a b : gset string) : gset string := a ∪ b.
Definition intersectStringSets (a b : gset string) : gset string := a ∩ b.

(** [MetricTagKeysByExpr]: the result is Go's pair of a map, which may be
    nil, and an error. *)
Fixpoint MetricTagKeysByExpr (fs : FileSet) (name : Bytes) (expr : cnosql.Expr)
  : option (gset string) * option error :=
  match expr with
  | cnosql.NilExpr =>
      (Some (collect_keys (λ _, true) (FileSet_TagKeyIterator fs name)), None)
  | cnosql.BinaryExpr op lhs rhs =>
      match op with
      | cnosql.EQ | cnosql.NEQ | cnosql.EQREGEX | cnosql.NEQREGEX =>
          match lhs with
          | cnosql.VarRef tag =>
              if negb (String.eqb tag "_tagKey") then (None, None)
              else if cnosql.IsRegexOp op then
                match rhs with
                | cnosql.RegexLiteral re =>
                    (Some (tagKeysByFilter fs name op None (Some re)), None)
                | _ =>
                    (None, Some ("right side of '" ++ cnosql.Token_String op
                                 ++ "' must be a regular expression")%string)
                end
              else
                match rhs with
                | cnosql.StringLiteral s =>
                    (Some (tagKeysByFilter fs name op (Bytes_of_string s) None), None)
                | _ =>
                    (None, Some ("right side of '" ++ cnosql.Token_String op
                                 ++ "' must be a tag value string")%string)
                end
          | _ =>
              (None, Some ("left side of '" ++ cnosql.Token_String op
                           ++ "' must be a tag key")%string)
          end
      | cnosql.AND | cnosql.OR =>
          match MetricTagKeysByExpr fs name lhs with
          | (_, Some err) => (None, Some err)
          | (l, None) =>
              match MetricTagKeysByExpr fs name rhs with
              | (_, Some err) => (None, Some err)
              | (r, None) =>
                  match l, r with
                  | Some lhs', Some rhs' =>
                      match op with
                      | cnosql.OR => (Some (unionStringSets lhs' rhs'), None)
                      | _ => (Some (intersectStringSets lhs' rhs'), None)
                      end
                  | Some lhs', None => (Some lhs', None)
                  | None, Some rhs' => (Some rhs', None)
                  | None, None => (None, None)
                  end
              end
          end
      | _ => (None, Some "invalid operator"%string)
      end
  | cnosql.ParenExpr e => MetricTagKeysByExpr fs name e
  | _ =>
      (* fmt.Errorf("%#v", expr): the message is the Go syntax of the node *)
      (None, Some "unsupported expression"%string)
  end.

(** The loop of [TagValueSeriesIDIterator], on the files from the last to
    the first: [ss] is the running set, [ftss] the tombstone set fetched
    from the file of the previous iteration. *)
Fixpoint tag_value_series_loop (name key value : Bytes) (backwards : list File)
    (ss : SeriesIDSet) (ftss : option SeriesIDSet)
  : option SeriesIDSet * option error :=
  match backwards with
  | [] => (Some ss, None)
  | f :: rest =>
      (* "Remove tombstones set in previous file." *)
      let ss1 :=
        match ftss with
        | Some t => if 0 <? SeriesIDSet_Cardinality t then SeriesIDSet_AndNot ss t else ss
        | None => ss
        end in
      (* "Fetch tag value series set for this file and merge into overall set." *)
      match File_TagValueSeriesIDSet f name key value with
      | (_, Some err) => (None, Some err)
      | (fss, None) =>
          let ss2 :=
            match fss with
            | Some s => SeriesIDSet_Merge ss1 s
            | None => ss1
            end in
          (* "Fetch tombstone set to be processed on next file." *)
          match File_TombstoneSeriesIDSet f with
          | (_, Some err) => (None, Some err)
          | (t, None) => tag_value_series_loop name key value rest ss2 t
          end
      end
  end.

(** [TagValueSeriesIDIterator]: the iterator returned by
    [tsdb.NewSeriesIDSetIterator(ss)] is given by the set [ss] it holds. *)
Definition TagValueSeriesIDIterator (fs : FileSet) (name key value : Bytes)
  : option SeriesIDSet * option error :=
  tag_value_series_loop name key value (rev (files fs)) NewSeriesIDSet None.

End FileSet.

Arguments FileSet : clear implicits.

(* ================================================================== *)
(** * The other methods of files and file sets (file_set.go) *)
(* ================================================================== *)

(** Go's [int64]: the results of its arithmetic wrap around. *)
Definition wrap64 (z : Z) : Z := (z + 2 ^ 63) mod 2 ^ 64 - 2 ^ 63.

(** The dynamic type of a [File] value: what the type assertions of a file
    to [*LogFile] and to [*IndexFile] look at.  The interface is open to
    other implementations. *)
Inductive FileType : Type := LogFileType | IndexFileType | OtherFileType.

#[global] Instance FileType_eq_decision : EqDecision FileType.
Proof. solve_decision. Defined.

(** The methods of interface [File] that the operations below call, in
    addition to those of [FileMethods].  [File_Close] is what the call
    [f.Close()] answers. *)
Class OtherFileMethods (File : Type) : Type :=
  { File_type : File → FileType;
    File_Level : File → Z;
    File_Size : File → Z;
    File_Close : File → option error;
    File_MetricIterator : File → option (list MetricElem.t);
    File_TagKey : File → Bytes → Bytes → option TagKeyElem.t;
    File_TagValue : File → Bytes → Bytes → Bytes → option TagValueElem.t;
    File_TagValueIterator : File → Bytes → Bytes → option (list TagValueElem.t) }.

(** A call of [f.Retain()] or [f.Release()], as seen from outside. *)
Inductive ref_event (File : Type) : Type :=
| Retained (f : File)
| Released (f : File).
Arguments Retained {File} _.
Arguments Released {File} _.

Section FileSetOther.
Context {File : Type} `{EqDecision File} `{FileMethods File} `{OtherFileMethods File}.
Context {CompactionLevel SeriesFile : Type}.
Implicit Types (fs : FileSet File CompactionLevel SeriesFile).

(** [Close]: the loop over the files, with the error kept so far.  The
    second component lists the files whose [Close] has been called. *)
Fixpoint Close_loop (fl : list File) (err : option error) : option error * list File :=
  match fl with
  | [] => (err, [])
  | f :: rest =>
      let e := File_Close f in
      let err' :=
        match e, err with
        | Some _, None => e      (* e != nil && err == nil *)
        | _, _ => err
        end in
      let '(r, closed) := Close_loop rest err' in
      (r, f :: closed)
  end.

Definition FileSet_Close fs : option error * list File :=
  Close_loop (files fs) None.

(** [Retain] and [Release], by the calls they make. *)
Definition FileSet_Retain fs : list (ref_event File) := map Retained (files fs).
Definition FileSet_Release fs : list (ref_event File) := map Released (files fs).

(** [Size] *)
Definition FileSet_Size fs : Z :=
  let total := fold_left (λ total f, wrap64 (total + File_Size f)) (files fs) 0 in
  wrap64 (total + manifestSize fs).

(** [MaxID] *)
Definition FileSet_MaxID fs : Z :=
  fold_left (λ max f, if max <? File_ID f then File_ID f else max) (files fs) 0.

(** [Files] *)
Definition FileSet_Files fs : list File := files fs.

(** [LogFiles] and [IndexFiles]: the result holds the same references,
    under their concrete type. *)
Definition FileSet_LogFiles fs : list File :=
  fold_left
    (λ a f, match File_type f with LogFileType => a ++ [f] | _ => a end)
    (files fs) [].

Definition FileSet_IndexFiles fs : list File :=
  fold_left
    (λ a f, match File_type f with IndexFileType => a ++ [f] | _ => a end)
    (files fs) [].

(** The loop of [LastContiguousIndexFilesByLevel], on the files from the
    last to the first.  The type assertion of [f] to [*IndexFile] has no
    second result and panics on a file of another type. *)
Fixpoint last_contiguous_loop (level : Z) (backwards : list File) (a : list File)
  : outcome (list File) :=
  match backwards with
  | [] => Returns a
  | f :: rest =>
      (* "Ignore files above level, stop on files below level." *)
      if level <? File_Level f then last_contiguous_loop level rest a
      else if File_Level f <? level then Returns a
      else
        match File_type f with
        | IndexFileType => last_contiguous_loop level rest (f :: a)
        | _ => Panics (PanicMessage "interface conversion: tsi1.File is not *tsi1.IndexFile")
        end
  end.

(** [LastContiguousIndexFilesByLevel] *)
Definition LastContiguousIndexFilesByLevel fs (level : Z) : outcome (list File) :=
  if level =? 0 then Returns []
  else last_contiguous_loop level (rev (files fs)) [].

(** [MetricIterator] *)
Definition FileSet_MetricIterator fs : option metricMergeIterator :=
  MergeMetricIterators (omap File_MetricIterator (files fs)).

(** [TagValueIterator] *)
Definition FileSet_TagValueIterator fs (name key : Bytes) : option tagValueMergeIterator :=
  MergeTagValueIterators (omap (λ f, File_TagValueIterator f name key) (files fs)).

(** [HasTagKey] *)
Fixpoint HasTagKey_loop (fl : list File) (name key : Bytes) : bool :=
  match fl with
  | [] => false
  | f :: rest =>
      match File_TagKey f name key with
      | Some e => negb (TagKeyElem.Deleted e)
      | None => HasTagKey_loop rest name key
      end
  end.

Definition HasTagKey fs (name key : Bytes) : bool := HasTagKey_loop (files fs) name key.

(** [HasTagValue] *)
Fixpoint HasTagValue_loop (fl : list File) (name key value : Bytes) : bool :=
  match fl with
  | [] => false
  | f :: rest =>
      match File_TagValue f name key value with
      | Some e => negb (TagValueElem.Deleted e)
      | None => HasTagValue_loop rest name key value
      end
  end.

Definition HasTagValue fs (name key value : Bytes) : bool :=
  HasTagValue_loop (files fs) name key value.

(** ** Iterators that release the file set on close *)

(** [fileSetSeriesIDIterator], [fileSetSeriesIDSetIterator],
    [fileSetMetricIterator], [fileSetTagKeyIterator] and
    [fileSetTagValueIterator] are the same code around iterators of
    different interfaces: [I] is the wrapped iterator.  [fsi_once] tells
    whether the [sync.Once] of the wrapper has run. *)
Record fileSetIterator (I : Type) : Type :=
  { fsi_once : bool;
    fsi_fs : FileSet File CompactionLevel SeriesFile;
    fsi_itr : I }.
Arguments fsi_once {I} _.
Arguments fsi_fs {I} _.
Arguments fsi_itr {I} _.

(** [newFileSetMetricIterator], [newFileSetTagKeyIterator],
    [newFileSetTagValueIterator] *)
Definition newFileSetIterator {I : Type} fs (itr : I) : fileSetIterator I :=
  {| fsi_once := false; fsi_fs := fs; fsi_itr := itr |}.

(** [newFileSetSeriesIDIterator]: a nil iterator releases the file set at
    once.  Both wrappers that the type switch chooses from are built and
    closed in the same way. *)
Definition newFileSetSeriesIDIterator {I : Type} fs (itr : option I)
  : option (fileSetIterator I) * list (ref_event File) :=
  match itr with
  | None => (None, FileSet_Release fs)
  | Some i => (Some {| fsi_once := false; fsi_fs := fs; fsi_itr := i |}, [])
  end.

(** [Next] hands the call on. *)
Definition fileSetIterator_Next {I R : Type} (next : I → R * I)
    (it : fileSetIterator I) : R * fileSetIterator I :=
  let '(r, i') := next (fsi_itr it) in
  (r, {| fsi_once := fsi_once it; fsi_fs := fsi_fs it; fsi_itr := i' |}).

(** [Close]: [itr.once.Do(func() { itr.fs.Release() })], then the error of
    the wrapped [Close]. *)
Definition fileSetIterator_Close {I : Type} (close : I → option error * I)
    (it : fileSetIterator I)
  : (option error * list (ref_event File)) * fileSetIterator I :=
  let released := if fsi_once it then [] else FileSet_Release (fsi_fs it) in
  let '(err, i') := close (fsi_itr it) in
  ((err, released), {| fsi_once := true; fsi_fs := fsi_fs it; fsi_itr := i' |}).

End FileSetOther.

Arguments fileSetIterator : clear implicits.
Arguments fsi_once {File CompactionLevel SeriesFile I} _.
Arguments fsi_fs {File CompactionLevel SeriesFile I} _.
Arguments fsi_itr {File CompactionLevel SeriesFile I} _.

(* ================================================================== *)
(** * Writing and reading numbers (series_cursor.go, package tsi1) *)
(* ================================================================== *)

(** The conversion [byte(x)] of an unsigned number, the number of a byte,
    and the conversion [uint64(x)]. *)
Definition byte_of_Z (z : Z) : byte :=
  default Byte.x00 (Byte.of_N (Z.to_N (z mod 256))).
Definition Z_of_byte (b : byte) : Z := Z.of_N (Byte.to_N b).
Definition uint64 (z : Z) : Z := z mod 2 ^ 64.

(** ** Package encoding/binary of the Go library *)

(** [binary.BigEndian.PutUint16(buf, v)] and [PutUint64]: the bytes left
    in the buffer. *)
Definition PutUint16 (v : Z) : list byte :=
  [byte_of_Z (Z.shiftr v 8); byte_of_Z v].

Definition PutUint64 (v : Z) : list byte :=
  [byte_of_Z (Z.shiftr v 56); byte_of_Z (Z.shiftr v 48);
   byte_of_Z (Z.shiftr v 40); byte_of_Z (Z.shiftr v 32);
   byte_of_Z (Z.shiftr v 24); byte_of_Z (Z.shiftr v 16);
   byte_of_Z (Z.shiftr v 8); byte_of_Z v].

Definition MaxVarintLen64 : nat := 10.

(** [binary.PutUvarint(buf, x)]: the loop writes [buf[i]] while [x >= 0x80]
    and then the last byte; [room] is what is left of the buffer from index
    [i] on.  The result is the bytes [buf[:n]] for the [n] returned. *)
Fixpoint PutUvarint_loop (room i : nat) (x : Z) : outcome (list byte) :=
  match room with
  | O => Panics (IndexOutOfRange i i)
  | S room' =>
      if 128 <=? x then
        match PutUvarint_loop room' (S i) (Z.shiftr x 7) with
        | Returns bs => Returns (byte_of_Z (Z.lor x 128) :: bs)
        | Panics p => Panics p
        end
      else Returns [byte_of_Z x]
  end.

Definition PutUvarint (x : Z) : outcome (list byte) :=
  PutUvarint_loop MaxVarintLen64 0 x.

(** [binary.Uvarint(buf)]: the loop over the bytes, at index [i] with the
    value [x] read so far and the shift [s]; the result is the value and the
    number [n] of bytes read, with [n = 0] for a buffer that ends too early
    and [n < 0] for a number that does not fit 64 bits. *)
Fixpoint Uvarint_loop (buf : list byte) (i : nat) (x s : Z) : Z * Z :=
  match buf with
  | [] => (0, 0)
  | b :: rest =>
      if (i =? MaxVarintLen64)%nat then (0, - (Z.of_nat i + 1))
      else if Z_of_byte b <? 128 then
        if (i =? MaxVarintLen64 - 1)%nat && (1 <? Z_of_byte b)
        then (0, - (Z.of_nat i + 1))
        else (Z.lor x (uint64 (Z.shiftl (Z_of_byte b) s)), Z.of_nat i + 1)
      else
        Uvarint_loop rest (S i)
          (Z.lor x (uint64 (Z.shiftl (Z.land (Z_of_byte b) 127) s))) (s + 7)
  end.

Definition Uvarint (buf : list byte) : Z * Z := Uvarint_loop buf 0 0 0.

(** ** The helpers *)

Section Writers.
(** An [io.Writer]: [Write(p)] answers with the number of bytes it has
    written and an error, and leaves the writer changed. *)
Context {W : Type} (Write : W → Bytes → (Z * option error) * W).

(** [writeTo]: the results are the error, the writer and [*n]. *)
Definition writeTo (w : W) (v : Bytes) (n : Z) : option error * W * Z :=
  let '((nn, err), w') := Write w v in
  (err, w', wrap64 (n + nn)).

(** [writeUint8To] *)
Definition writeUint8To (w : W) (v : byte) (n : Z) : option error * W * Z :=
  writeTo w (Some [v]) n.

(** [writeUint16To] *)
Definition writeUint16To (w : W) (v : Z) (n : Z) : option error * W * Z :=
  writeTo w (Some (PutUint16 v)) n.

(** [writeUint64To] *)
Definition writeUint64To (w : W) (v : Z) (n : Z) : option error * W * Z :=
  writeTo w (Some (PutUint64 v)) n.

(** [writeUvarintTo] *)
Definition writeUvarintTo (w : W) (v : Z) (n : Z) : outcome (option error * W * Z) :=
  match PutUvarint v with
  | Returns bs => Returns (writeTo w (Some bs) n)
  | Panics p => Panics p
  end.
End Writers.

(** [uvarint]: the value, the number of bytes read and the error. *)
Definition uvarint (data : Bytes) : Z * Z * option error :=
  let len := Z.of_nat (length (content data)) in
  if len <? 1 then (0, 0, Some "short buffer"%string)
  else
    let '(value, n) := Uvarint (content data) in
    if (n =? 0) || (len <? n) then (value, n, Some "short buffer"%string)
    else if n <? 0 then
      (value, n,
       Some ("parsing binary-encoded uint64 value failed; binary.Uvarint() returned "
             +:+ pretty n))
    else (value, n, None).

(** ** Slices that can be sorted *)

(** [MetricElems] and [byteSlices] implement [sort.Interface] in the same
    way, on the name of a metric element and on a byte slice itself: [key]
    is what [Less] compares.  An index that is out of range panics. *)
Section SortInterface.
Context {E : Type} (key : E → Bytes).

Definition slice_Len (a : list E) : Z := Z.of_nat (length a).

Definition slice_Less (a : list E) (i j : nat) : outcome bool :=
  match a !! i with
  | None => Panics (IndexOutOfRange i (length a))
  | Some x =>
      match a !! j with
      | None => Panics (IndexOutOfRange j (length a))
      | Some y => Returns (Compare (key x) (key y) =? -1)
      end
  end.

(** [a[i], a[j] = a[j], a[i]]: the right side is read first. *)
Definition slice_Swap (a : list E) (i j : nat) : outcome (list E) :=
  match a !! j with
  | None => Panics (IndexOutOfRange j (length a))
  | Some y =>
      match a !! i with
      | None => Panics (IndexOutOfRange i (length a))
      | Some x => Returns (<[j := x]> (<[i := y]> a))
      end
  end.
End SortInterface.

Definition MetricElems_Len := @slice_Len MetricElem.t.
Definition MetricElems_Less := slice_Less MetricElem.Name.
Definition MetricElems_Swap := @slice_Swap MetricElem.t.
Definition byteSlices_Len := @slice_Len Bytes.
Definition byteSlices_Less := slice_Less (λ b : Bytes, b).
Definition byteSlices_Swap := @slice_Swap Bytes.

(* ================================================================== *)
(** * The series cursor at work (series_cursor.go, package tsdb) *)
(* ================================================================== *)

(** [SeriesCursorRow].  [models.Tags] belongs to package models, which is
    not part of the sources: [T] is the type of its values. *)
Record SeriesCursorRow (T : Type) : Type :=
  { row_Name : Bytes;
    row_Tags : T }.
Arguments row_Name {T} _.
Arguments row_Tags {T} _.

Section SeriesCursorRowCompare.
(** A [*SeriesCursorRow] is nil or the address of a row: [deref] gives the
    row at an address.  [CompareTags] is [models.CompareTags]. *)
Context {T Ptr : Type} `{EqDecision Ptr}.
Context (deref : Ptr → SeriesCursorRow T) (CompareTags : T → T → Z).

(** [SeriesCursorRow.Compare] *)
Definition SeriesCursorRow_Compare (r other : option Ptr) : Z :=
  if decide (r = other) then 0
  else
    match r, other with
    | None, _ => -1
    | _, None => 1
    | Some p, Some q =>
        let cmp := Compare (row_Name (deref p)) (row_Name (deref q)) in
        if negb (cmp =? 0) then cmp
        else CompareTags (row_Tags (deref p)) (row_Tags (deref q))
    end.
End SeriesCursorRowCompare.

(** What [Next] returns for the row: nil, or the address of the field
    [row] of the cursor, which every call writes anew. *)
Inductive row_ptr : Type := NilRow | CurRow.

(** What the cursor calls: [Next] and [Close] of the metric iterator [M],
    [MetricSeriesByExprIterator] of the index set [IS], [SeriesKey] of its
    series file, [ParseSeriesKey], and [sort.Sort] on [seriesKeys].  A
    series iterator is the list of the results that its [Next] has still to
    return; at the end of the list [Next] returns the zero element. *)
Class CursorCalls (M IS T : Type) : Type :=
  { M_Next : M → (Bytes * option error) * M;
    M_Close : M → option error * M;
    MetricSeriesByExprIterator :
      IS → Bytes → cnosql.Expr → option (list (N * option error)) * option error;
    SeriesKey : IS → N → Bytes;
    ParseSeriesKey : Bytes → Bytes * T;
    sort_seriesKeys : list Bytes → list Bytes }.

Section SeriesCursorRun.
Context {M IS T : Type} `{CursorCalls M IS T}.

(** A cursor with the fields that [newSeriesCursor] leaves at their zero
    value. *)
Record cursor : Type :=
  { cur_fields : @seriesCursor M IS;
    cur_once : bool;                    (* has [once] run? *)
    cur_row : SeriesCursorRow T }.

Definition with_mitr (c : @seriesCursor M IS) (mitr : option M) : @seriesCursor M IS :=
  {| cur_indexSet := cur_indexSet c; cur_mitr := mitr; cur_keys := cur_keys c;
     cur_ofs := cur_ofs c; cur_cond := cur_cond c |}.

Definition with_keys (c : @seriesCursor M IS) (keys : list Bytes) (ofs : Z)
  : @seriesCursor M IS :=
  {| cur_indexSet := cur_indexSet c; cur_mitr := cur_mitr c; cur_keys := keys;
     cur_ofs := ofs; cur_cond := cur_cond c |}.

(** [Close] *)
Definition seriesCursor_Close (c : cursor) : option error * cursor :=
  if cur_once c then (None, c)
  else
    match cur_mitr (cur_fields c) with
    | None => (None, {| cur_fields := cur_fields c; cur_once := true;
                        cur_row := cur_row c |})
    | Some m =>
        let '(err, m') := M_Close m in
        (err, {| cur_fields := with_mitr (cur_fields c) (Some m');
                 cur_once := true; cur_row := cur_row c |})
    end.

(** "Slurp all series keys": the loop of [readSeriesKeys], with the keys
    appended so far. *)
Fixpoint slurp (indexSet : IS) (sitr : list (N * option error)) (keys : list Bytes)
  : list Bytes * option error :=
  match sitr with
  | [] => (keys, None)
  | (_, Some err) :: _ => (keys, Some err)
  | (id, None) :: rest =>
      if (id =? 0)%N then (keys, None)
      else
        let key := SeriesKey indexSet id in
        if (length (content key) =? 0)%nat then slurp indexSet rest keys
        else slurp indexSet rest (keys ++ [key])
  end.

(** [readSeriesKeys]: the error and the fields of the cursor afterwards.
    The deferred [sitr.Close()] does not bear on either. *)
Definition readSeriesKeys (c : @seriesCursor M IS) (name : Bytes)
  : option error * @seriesCursor M IS :=
  match MetricSeriesByExprIterator (cur_indexSet c) name (cur_cond c) with
  | (_, Some err) => (Some err, c)
  | (None, None) => (None, c)
  | (Some sitr, None) =>
      match slurp (cur_indexSet c) sitr [] with
      | (keys, Some err) => (Some err, with_keys c keys 0)
      | (keys, None) => (None, with_keys c (sort_seriesKeys keys) 0)
      end
  end.

(** [Next]: the loop runs once more for every metric it reads; [fuel]
    bounds their number, and [None] means that it did not suffice.  A call
    of [Next] on a nil metric iterator, and an offset outside the keys,
    panic. *)
Fixpoint seriesCursor_Next (fuel : nat) (c : cursor)
  : option (outcome ((row_ptr * option error) * cursor)) :=
  let f := cur_fields c in
  if cur_ofs f =? Z.of_nat (length (cur_keys f)) then
    match fuel with
    | O => None
    | S fuel' =>
        match cur_mitr f with
        | None => Some (Panics (PanicMessage "invalid memory address or nil pointer dereference"))
        | Some mitr =>
            let '((m, err), mitr') := M_Next mitr in
            let f1 := with_mitr f (Some mitr') in
            let c1 := {| cur_fields := f1; cur_once := cur_once c; cur_row := cur_row c |} in
            match err with
            | Some e => Some (Returns ((NilRow, Some e), c1))
            | None =>
                if is_nil m then Some (Returns ((NilRow, None), c1))
                else
                  match readSeriesKeys f1 m with
                  | (Some e, f2) =>
                      Some (Returns ((NilRow, Some e),
                                     {| cur_fields := f2; cur_once := cur_once c;
                                        cur_row := cur_row c |}))
                  | (None, f2) =>
                      seriesCursor_Next fuel'
                        {| cur_fields := f2; cur_once := cur_once c;
                           cur_row := cur_row c |}
                  end
            end
        end
    end
  else
    match (if cur_ofs f <? 0 then None else cur_keys f !! Z.to_nat (cur_ofs f)) with
    | None => Some (Panics (IndexOutOfRange (Z.to_nat (cur_ofs f)) (length (cur_keys f))))
    | Some key =>
        let '(name, tags) := ParseSeriesKey key in
        Some (Returns ((CurRow, None),
                       {| cur_fields := with_keys f (cur_keys f) (cur_ofs f + 1);
                          cur_once := cur_once c;
                          cur_row := {| row_Name := name; row_Tags := tags |} |}))
    end.

End SeriesCursorRun.

Arguments cursor : clear implicits.

(* ================================================================== *)
(** * Notions for the statements and the proofs *)
(* ================================================================== *)

(** [a] is not above [b] in the order of [bytes.Compare]. *)
Definition bytes_le (a b : list byte) : Prop := compare_bytes a b ≠ 1.

(** ** Merge iterators *)

Section MergeNotions.
Context {E : Type} (key : E → Bytes).
Implicit Types (s : slot E) (name : Bytes).
Implicit Types (l : list E) (P : list (list E)).

(** A source is sorted when its keys increase strictly. *)
Definition sorted_keys l : Prop :=
  StronglySorted (λ a b, key_lt (key a) (key b)) l.

(** The order of two groups is the order of their keys. *)
Definition group_lt (g1 g2 : list E) : Prop :=
  key_lt (mergeElem_key key g1) (mergeElem_key key g2).

(** What the second loop of [Next] does to a slot, and what it takes from
    the pending elements of a slot and leaves of them. *)
Definition clear_slot name s : slot E :=
  match buf s with
  | Some e => if Equal (key e) name then Slot None (itr s) else s
  | None => s
  end.

Definition taken name l : list E :=
  match l with
  | e :: _ => if Equal (key e) name then [e] else []
  | [] => []
  end.

Definition advance name l : list E :=
  match l with
  | e :: tl => if Equal (key e) name then tl else l
  | [] => []
  end.

(** The name that the first loop of [Next] finds, from the pending
    elements of the slots. *)
Definition scan P : Bytes := fold_left (lowest key) (map head P) None.

(** A slot whose front element has a nil key sets the name back to nil
    for all slots before it: the slots after the last such slot are the
    ones that the first loop really compares. *)
Definition nil_front l : bool :=
  match l with
  | e :: _ => is_nil (key e)
  | [] => false
  end.

Fixpoint unblocked P : list (list E) :=
  match P with
  | [] => []
  | l :: r => if existsb nil_front (l :: r) then unblocked r else l :: r
  end.

(** The invariant between two calls of [Next].  After a group with key
    [last], no key of a pending element is the empty non-nil slice, and
    what pends in the unblocked slots is above [last]. *)
Definition above (last : option (list byte)) P : Prop :=
  match last with
  | None => True
  | Some l0 =>
      (∀ l e, l ∈ P → e ∈ l → key e ≠ Some []) ∧
      (∀ l e, l ∈ unblocked P → e ∈ l →
         compare_bytes l0 (content (key e)) = -1)
  end.

(** What is left of a sorted source without nil keys after the group with
    key [last]. *)
Definition above_filter (last : option (list byte)) l : list E :=
  match last with
  | None => l
  | Some b0 => filter (λ x, compare_bytes b0 (content (key x)) = -1) l
  end.
End MergeNotions.

(** ** Predicates *)

Section PredicateNotions.
Import cnosql.

(** The operators that the index accepts in a predicate. *)
Definition allowed (op : Token) : bool :=
  match op with
  | EQ | NEQ | EQREGEX | NEQREGEX | AND | OR => true
  | _ => false
  end.

(** The four comparison operators. *)
Definition comparison (op : Token) : bool :=
  match op with
  | EQ | NEQ | EQREGEX | NEQREGEX => true
  | _ => false
  end.

(** [subexpr e cond]: node [e] occurs in the tree [cond]. *)
Inductive subexpr : Expr → Expr → Prop :=
| subexpr_here e : subexpr e e
| subexpr_LHS e op l r : subexpr e l → subexpr e (BinaryExpr op l r)
| subexpr_RHS e op l r : subexpr e r → subexpr e (BinaryExpr op l r)
| subexpr_paren e e' : subexpr e e' → subexpr e (ParenExpr e').

(** Somewhere in the tree there is a binary expression whose operator is
    not accepted. *)
Definition has_invalid_operator (cond : Expr) : Prop :=
  ∃ op l r, subexpr (BinaryExpr op l r) cond ∧ allowed op = false.

Fixpoint invalid_in (cond : Expr) : bool :=
  match cond with
  | BinaryExpr op l r => negb (allowed op) || invalid_in l || invalid_in r
  | ParenExpr e => invalid_in e
  | _ => false
  end.

(** [reached e expr]: the evaluation of [expr] by [MetricTagKeysByExpr]
    comes to node [e], going down from the top through [AND], [OR] and
    parentheses only. *)
Inductive reached : Expr → Expr → Prop :=
| reached_here e : reached e e
| reached_AND_LHS e l r : reached e l → reached e (BinaryExpr AND l r)
| reached_AND_RHS e l r : reached e r → reached e (BinaryExpr AND l r)
| reached_OR_LHS e l r : reached e l → reached e (BinaryExpr OR l r)
| reached_OR_RHS e l r : reached e r → reached e (BinaryExpr OR l r)
| reached_paren e e' : reached e e' → reached e (ParenExpr e').
End PredicateNotions.

(** ** Series of a tag value *)

Section FileSetNotions.
Context {File : Type} `{FileMethods File}.

(** A nil set holds no series. *)
Definition set_or_empty (o : option SeriesIDSet) : SeriesIDSet := default ∅ o.

(** The series that a file has under a tag value, its tombstones, and that
    neither method returns an error. *)
Definition series_of (name key value : Bytes) (f : File) : SeriesIDSet :=
  set_or_empty (fst (File_TagValueSeriesIDSet f name key value)).

Definition tombstones_of (f : File) : SeriesIDSet :=
  set_or_empty (fst (File_TombstoneSeriesIDSet f)).

Definition no_error (name key value : Bytes) (f : File) : Prop :=
  snd (File_TagValueSeriesIDSet f name key value) = None ∧
  snd (File_TombstoneSeriesIDSet f) = None.
End FileSetNotions.

(** ** File sets *)

Section FileSetOtherNotions.
Context {File : Type} `{EqDecision File} `{FileMethods File} `{OtherFileMethods File}.
Context {CompactionLevel SeriesFile : Type}.

(** The sum of the sizes of some files, as a number. *)
Definition total_size (fl : list File) : Z := foldr (λ f a, File_Size f + a) 0 fl.

(** What a trace of calls adds to the reference count of a file. *)
Definition ref_delta (f : File) (trace : list (ref_event File)) : Z :=
  foldr (λ ev a,
           match ev with
           | Retained g => if decide (g = f) then a + 1 else a
           | Released g => if decide (g = f) then a - 1 else a
           end) 0 trace.

(** [Close] called [n] times on a wrapper: the errors returned, the calls
    of [Retain] and [Release] made, and the wrapper afterwards. *)
Fixpoint Close_times {I : Type} (close : I → option error * I) (n : nat)
    (it : fileSetIterator File CompactionLevel SeriesFile I)
  : list (option error) * list (ref_event File)
    * fileSetIterator File CompactionLevel SeriesFile I :=
  match n with
  | O => ([], [], it)
  | S n' =>
      let '((err, released), it1) := fileSetIterator_Close close it in
      let '(errs, trace, it2) := Close_times close n' it1 in
      (err :: errs, released ++ trace, it2)
  end.
End FileSetOtherNotions.

(** ** Numbers in bytes *)

(** The number that a list of bytes stands for, most significant byte
    first. *)
Definition big_endian (bs : list byte) : Z :=
  fold_left (λ acc b, acc * 256 + Z_of_byte b) bs 0.

(** ** The series cursor *)

Section SeriesCursorNotions.
Context {M IS T : Type} `{CursorCalls M IS T}.

(** [yields mitr ms]: the metric iterator returns the names [ms], none of
    them nil and without an error, and then nil. *)
Inductive yields : M → list Bytes → Prop :=
| yields_end mitr mitr' :
    M_Next mitr = ((None, None), mitr') → yields mitr []
| yields_name mitr mitr' (m : list byte) ms :
    M_Next mitr = ((Some m, None), mitr') → yields mitr' ms →
    yields mitr (Some m :: ms).

(** The row that a series key stands for. *)
Definition row_of (key : Bytes) : SeriesCursorRow T :=
  {| row_Name := fst (ParseSeriesKey key); row_Tags := snd (ParseSeriesKey key) |}.

(** The sorted series keys of a metric, when reading them does not fail:
    the keys of the series that the iterator returns before its first zero
    identifier, without the empty ones. *)
Definition keys_of (indexSet : IS) (cond : cnosql.Expr) (m : Bytes) : list Bytes :=
  match MetricSeriesByExprIterator indexSet m cond with
  | (Some sitr, None) => sort_seriesKeys (fst (slurp indexSet sitr []))
  | _ => []
  end.

(** Reading the series of a metric does not fail. *)
Definition reads_well (indexSet : IS) (cond : cnosql.Expr) (m : Bytes) : Prop :=
  match MetricSeriesByExprIterator indexSet m cond with
  | (_, Some _) => False
  | (None, None) => True
  | (Some sitr, None) => snd (slurp indexSet sitr []) = None
  end.

(** The rows that [n] calls of [Next] return, each copied before the next
    call, up to the first call that returns no row; with the cursor before
    that call. *)
Fixpoint rows (fuel n : nat) (c : cursor M IS T)
  : list (SeriesCursorRow T) * cursor M IS T :=
  match n with
  | O => ([], c)
  | S n' =>
      match seriesCursor_Next fuel c with
      | Some (Returns ((CurRow, None), c')) =>
          let '(rs, c_end) := rows fuel n' c' in
          (cur_row c' :: rs, c_end)
      | _ => ([], c)
      end
  end.

(** The rows of some metrics, one metric after the other. *)
Definition rows_of (indexSet : IS) (cond : cnosql.Expr) (ms : list Bytes)
  : list (SeriesCursorRow T) :=
  concat (map (λ m, map row_of (keys_of indexSet cond m)) ms).

(** What a cursor has still to return: the rest of the keys it holds, then
    the rows of the metrics that its metric iterator has still to return.
    [fuel] is above the number of these metrics. *)
Definition to_return (fuel : nat) (c : cursor M IS T)
    (expected : list (SeriesCursorRow T)) : Prop :=
  ∃ (ms : list Bytes) (mitr : M) (o : nat),
    cur_mitr (cur_fields c) = Some mitr ∧
    cur_ofs (cur_fields c) = Z.of_nat o ∧
    (o ≤ length (cur_keys (cur_fields c)))%nat ∧
    yields mitr ms ∧
    Forall (reads_well (cur_indexSet (cur_fields c)) (cur_cond (cur_fields c))) ms ∧
    (length ms < fuel)%nat ∧
    expected = map row_of (drop o (cur_keys (cur_fields c)))
               ++ rows_of (cur_indexSet (cur_fields c)) (cur_cond (cur_fields c)) ms.

(** [Close] called [n] times: the errors returned and the cursor
    afterwards. *)
Fixpoint closes (n : nat) (c : cursor M IS T) : list (option error) * cursor M IS T :=
  match n with
  | O => ([], c)
  | S n' =>
      let '(err, c1) := seriesCursor_Close c in
      let '(errs, c2) := closes n' c1 in
      (err :: errs, c2)
  end.
End SeriesCursorNotions.

(** ** A whole iteration through an adapter *)

Section AdapterNotions.
Context {I X : Type} (next : I → option X * I).
Context (xkey : X → Bytes) (xdeleted : X → bool).

(** The keys that [n] calls of [Next] on an adapter return, up to the first
    call that returns nil. *)
Fixpoint adapter_run (fuel n : nat) (it : I) : list Bytes :=
  match n with
  | O => []
  | S n' =>
      match adapter_Next next xkey xdeleted fuel it with
      | Some (Some k, it') => Some k :: adapter_run fuel n' it'
      | _ => []
      end
  end.
End AdapterNotions.

(* ================================================================== *)
(** * Sample files *)
(* ================================================================== *)

(** Concrete files to run the definitions on: a file reference is a number
    and a heap gives what the methods of that file answer. *)
Module Sample.

Record file_data : Type :=
  { metrics : list MetricElem.t;
    tagkeys : option (list TagKeyElem.t);
    series : option SeriesIDSet;
    tombstones : option SeriesIDSet }.

Definition methods (heap : nat → file_data) : FileMethods nat :=
  {| File_ID f := Z.of_nat f;
     File_Metric f name :=
       find (λ e, Equal (MetricElem.Name e) name) (metrics (heap f));
     File_TagKeyIterator f _ := tagkeys (heap f);
     File_TagValueSeriesIDSet f _ _ _ := (series (heap f), None);
     File_TombstoneSeriesIDSet f := (tombstones (heap f), None) |}.

Definition no_data : file_data :=
  {| metrics := []; tagkeys := None; series := None; tombstones := None |}.

(** A file set over sample files, without levels and without series file. *)
Definition fileset (fl : list nat) : FileSet nat unit unit :=
  {| levels := []; sfile := None; files := fl; manifestSize := 0 |}.

Definition b (s : string) : Bytes := Bytes_of_string s.

End Sample.

(** Two files for metric iteration: the newer one has "cpu" deleted and
    "mem", the older one has "cpu" and "disk". *)
Module MergeSample.
Import Sample.

Definition cpu_deleted : MetricElem.t := MetricElem.Make (b "cpu") true.
Definition cpu : MetricElem.t := MetricElem.Make (b "cpu") false.
Definition disk : MetricElem.t := MetricElem.Make (b "disk") false.
Definition mem : MetricElem.t := MetricElem.Make (b "mem") false.

Definition sources : list (list MetricElem.t) := [[cpu_deleted; mem]; [cpu; disk]].

Definition start : metricMergeIterator :=
  [Slot None [cpu_deleted; mem]; Slot None [cpu; disk]].

Definition after_cpu : metricMergeIterator :=
  [Slot None [mem]; Slot None [disk]].

Definition after_disk : metricMergeIterator :=
  [Slot (Some mem) []; Slot None []].
End MergeSample.

(** A file with metric "cpu" deleted before a file with "cpu". *)
Module MetricSample.
Import Sample.
Definition heap (f : nat) : file_data :=
  match f with
  | 1%nat => {| metrics := [MergeSample.cpu_deleted]; tagkeys := None;
                series := None; tombstones := None |}
  | 2%nat => {| metrics := [MergeSample.cpu]; tagkeys := None;
                series := None; tombstones := None |}
  | _ => no_data
  end.
End MetricSample.

(** A merged tag key of three files: the key is live in the newest file,
    deleted in the second and live in the oldest. *)
Module TagKeySample.
Import Sample.
Definition east : TagValueElem.t := TagValueElem.Make (b "east") false.
Definition west : TagValueElem.t := TagValueElem.Make (b "west") false.
Definition north : TagValueElem.t := TagValueElem.Make (b "north") false.
Definition newest : TagKeyElem.t := TagKeyElem.Make (b "region") false [east].
Definition second : TagKeyElem.t := TagKeyElem.Make (b "region") true [west].
Definition oldest : TagKeyElem.t := TagKeyElem.Make (b "region") false [north].
End TagKeySample.

(** Two files with tag keys of one metric. *)
Module TagKeysSample.
Import Sample.
Definition host : TagKeyElem.t := TagKeyElem.Make (b "host") false [].
Definition region : TagKeyElem.t := TagKeyElem.Make (b "region") false [].
Definition host_deleted : TagKeyElem.t := TagKeyElem.Make (b "host") true [].
Definition heap (f : nat) : file_data :=
  match f with
  | 0%nat => {| metrics := []; tagkeys := Some [host_deleted; region];
                series := None; tombstones := None |}
  | 1%nat => {| metrics := []; tagkeys := Some [host];
                series := None; tombstones := None |}
  | _ => no_data
  end.
Definition fs : FileSet nat unit unit := fileset [0; 1]%nat.
End TagKeysSample.

(** The scenario of C1: the older file has the series 1, 2, 3 under the tag
    value and no tombstone, the newer file has no series under the tag value
    and the tombstone of series 2. *)
Module TombstoneSample.
Import Sample.
Definition newer : nat := 0%nat.
Definition older : nat := 1%nat.
Definition heap (f : nat) : file_data :=
  match f with
  | 0%nat => {| metrics := []; tagkeys := None;
                series := None; tombstones := Some {[ 2%N ]} |}
  | 1%nat => {| metrics := []; tagkeys := None;
                series := Some {[ 1%N; 2%N; 3%N ]}; tombstones := Some ∅ |}
  | _ => no_data
  end.
Definition fs : FileSet nat unit unit := fileset [newer; older].
End TombstoneSample.

(** Sample files for the other methods. *)
Module OtherSample.

Record file_info : Type :=
  { type : FileType;
    level : Z;
    size : Z;
    close_error : option error;
    metric_elems : option (list MetricElem.t);
    tag_key : option TagKeyElem.t;
    tag_value : option TagValueElem.t }.

Definition methods (heap : nat → file_info) : OtherFileMethods nat :=
  {| File_type f := type (heap f);
     File_Level f := level (heap f);
     File_Size f := size (heap f);
     File_Close f := close_error (heap f);
     File_MetricIterator f := metric_elems (heap f);
     File_TagKey f _ _ := tag_key (heap f);
     File_TagValue f _ _ _ := tag_value (heap f);
     File_TagValueIterator f _ _ := None |}.

(** File 0 is a log file; the files 1 to 4 are index files of the levels 1,
    2, 1 and 1; closing file 2 fails. *)
Definition heap (f : nat) : file_info :=
  match f with
  | 0%nat => {| type := LogFileType; level := 0; size := 10; close_error := None;
                metric_elems := Some [MergeSample.cpu_deleted; MergeSample.mem];
                tag_key := Some TagKeysSample.host_deleted;
                tag_value := None |}
  | 1%nat => {| type := IndexFileType; level := 1; size := 100; close_error := None;
                metric_elems := Some [MergeSample.cpu; MergeSample.disk];
                tag_key := Some TagKeysSample.host;
                tag_value := Some TagKeySample.east |}
  | 2%nat => {| type := IndexFileType; level := 2; size := 1000;
                close_error := Some "file already closed"%string;
                metric_elems := None; tag_key := None; tag_value := None |}
  | _ => {| type := IndexFileType; level := 1; size := 100; close_error := None;
            metric_elems := None; tag_key := None; tag_value := None |}
  end.

(** The metric lookup that goes with [metric_elems]. *)
Definition lookup_methods : FileMethods nat :=
  {| File_ID f := Z.of_nat f;
     File_Metric f name :=
       find (λ e, Equal (MetricElem.Name e) name) (default [] (metric_elems (heap f)));
     File_TagKeyIterator f _ := None;
     File_TagValueSeriesIDSet f _ _ _ := (None, None);
     File_TombstoneSeriesIDSet f := (None, None) |}.

End OtherSample.

(** A writer that keeps what it is given, as a [bytes.Buffer] does. *)
Definition buffer_Write (w : list byte) (p : Bytes) : (Z * option error) * list byte :=
  ((Z.of_nat (length (content p)), None), w ++ content p).

(** A cursor over two metrics: the metric iterator is the list of the names
    it has still to return, "cpu" has the series 3, 1 and 2, of which 2 has
    an empty key, and "mem" has no series iterator. *)
Module CursorSample.
Import Sample.

Definition names_Next (mitr : list Bytes) : (Bytes * option error) * list Bytes :=
  match mitr with
  | [] => ((None, None), [])
  | m :: rest => ((m, None), rest)
  end.

Definition names_Close (mitr : list Bytes) : option error * list Bytes :=
  (Some "close failed"%string, []).

Definition series_iterator (indexSet : unit) (name : Bytes) (cond : cnosql.Expr)
  : option (list (N * option error)) * option error :=
  if Equal name (b "cpu")
  then (Some [(3%N, None); (1%N, None); (2%N, None); (0%N, None); (7%N, None)], None)
  else (None, None).

Definition series_key (indexSet : unit) (id : N) : Bytes :=
  match id with
  | 1%N => b "cpu,host=a"
  | 3%N => b "cpu,host=c"
  | _ => Some []
  end.

(** The key itself stands for the name, and its length for the tags. *)
Definition parse_key (key : Bytes) : Bytes * nat := (key, length (content key)).

(** Sorting by insertion, in the order of [bytes.Compare]. *)
Fixpoint insert_key (k : Bytes) (l : list Bytes) : list Bytes :=
  match l with
  | [] => [k]
  | x :: r => if Compare k x =? 1 then x :: insert_key k r else k :: l
  end.

Definition sort_keys (keys : list Bytes) : list Bytes :=
  foldr insert_key [] keys.

#[global] Instance calls : CursorCalls (list Bytes) unit nat :=
  {| M_Next := names_Next; M_Close := names_Close;
     MetricSeriesByExprIterator := series_iterator;
     SeriesKey := series_key; ParseSeriesKey := parse_key;
     sort_seriesKeys := sort_keys |}.

Definition start : cursor (list Bytes) unit nat :=
  {| cur_fields := {| cur_indexSet := tt; cur_mitr := Some [b "cpu"; b "mem"];
                      cur_keys := []; cur_ofs := 0; cur_cond := cnosql.NilExpr |};
     cur_once := false;
     cur_row := {| row_Name := None; row_Tags := 0%nat |} |}.
End CursorSample.

(* ================================================================== *)
(** * The order of byte slices *)
(* ================================================================== *)

Lemma to_N_inj (x y : byte) : Byte.to_N x = Byte.to_N y → x = y.
Proof.
  intros Heq. pose proof (Byte.of_to_N x) as Hx. pose proof (Byte.of_to_N y) as Hy.
  rewrite Heq in Hx. congruence.
Qed.

Lemma compare_bytes_range (a b : list byte) :
  compare_bytes a b = -1 ∨ compare_bytes a b = 0 ∨ compare_bytes a b = 1.
Proof.
  revert b. induction a as [|x a IH]; intros [|y b]; simpl; auto.
  destruct (N.compare (Byte.to_N x) (Byte.to_N y)); auto.
Qed.

Lemma compare_bytes_refl (a : list byte) : compare_bytes a a = 0.
Proof. induction a as [|x a IH]; simpl; [done|]. by rewrite N.compare_refl. Qed.

Lemma compare_bytes_eq (a b : list byte) : compare_bytes a b = 0 ↔ a = b.
Proof.
  split; [|intros ->; apply compare_bytes_refl].
  revert b. induction a as [|x a IH]; intros [|y b]; simpl; try done.
  destruct (N.compare_spec (Byte.to_N x) (Byte.to_N y)) as [Heq| |]; try done.
  intros Hc. apply to_N_inj in Heq. f_equal; auto.
Qed.

Lemma compare_bytes_swap (a b : list byte) : compare_bytes b a = - compare_bytes a b.
Proof.
  revert b. induction a as [|x a IH]; intros [|y b]; simpl; try done.
  rewrite (N.compare_antisym (Byte.to_N x) (Byte.to_N y)).
  destruct (N.compare (Byte.to_N x) (Byte.to_N y)); simpl; auto.
Qed.

Lemma compare_bytes_trans (a b c : list byte) :
  compare_bytes a b = -1 → compare_bytes b c = -1 → compare_bytes a c = -1.
Proof.
  revert b c. induction a as [|x a IH]; intros [|y b] [|z c]; simpl; try done.
  destruct (N.compare_spec (Byte.to_N x) (Byte.to_N y)) as [Hxy|Hxy|Hxy]; try done;
    destruct (N.compare_spec (Byte.to_N y) (Byte.to_N z)) as [Hyz|Hyz|Hyz]; try done;
    destruct (N.compare_spec (Byte.to_N x) (Byte.to_N z)) as [Hxz|Hxz|Hxz];
    try done; try lia.
  apply IH.
Qed.

Lemma compare_bytes_nil_l (b : list byte) : b ≠ [] → compare_bytes [] b = -1.
Proof. by destruct b. Qed.

Lemma compare_bytes_nil_r (a : list byte) : compare_bytes a [] ≠ -1.
Proof. by destruct a. Qed.

Lemma bytes_le_cases (a b : list byte) :
  bytes_le a b ↔ compare_bytes a b = -1 ∨ a = b.
Proof.
  unfold bytes_le. rewrite <- compare_bytes_eq.
  destruct (compare_bytes_range a b) as [?|[?|?]]; lia.
Qed.

Lemma bytes_le_refl (a : list byte) : bytes_le a a.
Proof. apply bytes_le_cases. by right. Qed.

Lemma bytes_le_lt_trans (a b c : list byte) :
  bytes_le a b → compare_bytes b c = -1 → compare_bytes a c = -1.
Proof.
  intros [Hab| ->]%bytes_le_cases Hbc; [|done]. by apply compare_bytes_trans with b.
Qed.

Lemma bytes_lt_le_trans (a b c : list byte) :
  compare_bytes a b = -1 → bytes_le b c → compare_bytes a c = -1.
Proof.
  intros Hab [Hbc| <-]%bytes_le_cases; [|done]. by apply compare_bytes_trans with b.
Qed.

Lemma bytes_le_trans (a b c : list byte) : bytes_le a b → bytes_le b c → bytes_le a c.
Proof.
  intros Hab [Hbc| <-]%bytes_le_cases; [|done].
  apply bytes_le_cases. left. by apply bytes_le_lt_trans with b.
Qed.

Lemma bytes_not_lt_le (a b : list byte) : compare_bytes a b ≠ -1 → bytes_le b a.
Proof.
  intros Hab. unfold bytes_le. rewrite compare_bytes_swap.
  destruct (compare_bytes_range a b) as [?|[?|?]]; lia.
Qed.

Lemma bytes_lt_irrefl (a : list byte) : compare_bytes a a ≠ -1.
Proof. by rewrite compare_bytes_refl. Qed.

Lemma Equal_true (a b : Bytes) : Equal a b = true ↔ content a = content b.
Proof. unfold Equal. apply bool_decide_eq_true. Qed.

Lemma Equal_false (a b : Bytes) : Equal a b = false ↔ content a ≠ content b.
Proof. unfold Equal. apply bool_decide_eq_false. Qed.

Lemma key_lt_trans (a b c : Bytes) : key_lt a b → key_lt b c → key_lt a c.
Proof. unfold key_lt, Compare. apply compare_bytes_trans. Qed.

Lemma key_lt_not_Equal (a b : Bytes) : key_lt a b → Equal a b = false.
Proof.
  unfold key_lt, Compare. intros Hlt. apply Equal_false. intros Heq.
  rewrite Heq in Hlt. by apply bytes_lt_irrefl in Hlt.
Qed.

(* ================================================================== *)
(** * Properties of the merge iterators *)
(* ================================================================== *)

Section MergeFacts.
Context {E : Type} (key : E → Bytes).
Implicit Types (s : slot E) (it : mergeIterator E) (name : Bytes).
Implicit Types (l : list E) (P : list (list E)).

(** ** One call of [Next], seen on the pending elements of each slot *)

Lemma pending_fill s : pending (fill s) = pending s.
Proof. destruct s as [[e|] [|x r]]; reflexivity. Qed.

Lemma buf_fill s : buf (fill s) = head (pending s).
Proof. destruct s as [[e|] [|x r]]; reflexivity. Qed.

Lemma fill_lowest_eq name it :
  fill_lowest key name it =
    (fold_left (lowest key) (map head (map pending it)) name, map fill it).
Proof.
  revert name. induction it as [|s it IH]; intros name; simpl; [done|].
  rewrite IH, buf_fill. done.
Qed.

Lemma pending_clear_fill name s :
  pending (clear_slot key name (fill s)) = advance key name (pending s).
Proof.
  destruct s as [[e|] [|x r]]; unfold clear_slot; simpl; try done.
  - destruct (Equal (key e) name); done.
  - destruct (Equal (key e) name); done.
  - destruct (Equal (key x) name); done.
Qed.

Lemma merge_clear_fill name it :
  merge_clear key name (map fill it) =
    (concat (map (taken key name) (map pending it)),
     map (λ s, clear_slot key name (fill s)) it).
Proof.
  induction it as [|s it IH]; simpl; [done|]. rewrite IH. unfold clear_slot.
  destruct s as [[e|] [|x r]]; simpl; try done.
  - destruct (Equal (key e) name); done.
  - destruct (Equal (key e) name); done.
  - destruct (Equal (key x) name); done.
Qed.

Lemma merge_Next_eq it :
  merge_Next key it =
    match scan key (map pending it) with
    | None => (None, map fill it)
    | Some n =>
        (Some (concat (map (taken key (Some n)) (map pending it))),
         map (λ s, clear_slot key (Some n) (fill s)) it)
    end.
Proof.
  unfold merge_Next, scan. rewrite fill_lowest_eq.
  destruct (fold_left _ _ _) as [n|]; [|done]. by rewrite merge_clear_fill.
Qed.

(** The pending elements after a call. *)
Lemma merge_Next_pending it r it' :
  merge_Next key it = (r, it') →
  map pending it' =
    match scan key (map pending it) with
    | None => map pending it
    | Some n => map (advance key (Some n)) (map pending it)
    end.
Proof.
  rewrite merge_Next_eq. destruct (scan key _) as [n|]; intros [= <- <-].
  - rewrite !map_map. apply map_ext. intros s. apply pending_clear_fill.
  - rewrite map_map. apply map_ext. intros s. apply pending_fill.
Qed.

(** ** The first loop *)

Lemma lowest_empty (b : option E) : lowest key (Some []) b = Some [].
Proof.
  destruct b as [e|]; simpl; [|done].
  destruct (Compare (key e) (Some []) =? -1) eqn:Hc; [|done].
  apply Z.eqb_eq in Hc. by apply compare_bytes_nil_r in Hc.
Qed.

Lemma fold_lowest_empty_acc (B : list (option E)) :
  fold_left (lowest key) B (Some []) = Some [].
Proof. induction B as [|b B IH]; simpl; [done|]. by rewrite lowest_empty. Qed.

(** An empty non-nil key in a buffer is the name found. *)
Lemma fold_lowest_empty (B : list (option E)) (acc : Bytes) e :
  Some e ∈ B → key e = Some [] → fold_left (lowest key) B acc = Some [].
Proof.
  intros Hin He. revert acc. induction B as [|b B IH]; intros acc.
  - by apply elem_of_nil in Hin.
  - apply elem_of_cons in Hin as [<-|Hin]; cbn [fold_left]; [|by apply IH].
    assert (lowest key acc (Some e) = Some []) as ->; [|apply fold_lowest_empty_acc].
    simpl. rewrite He. destruct acc as [a|]; simpl; [|done].
    destruct (Compare (Some []) (Some a) =? -1) eqn:Hc; [done|].
    apply Z.eqb_neq in Hc. unfold Compare in Hc. simpl in Hc.
    destruct a; [done|]. by simpl in Hc.
Qed.

(** The name found is the initial one or the key of a buffered element. *)
Lemma fold_lowest_mem (B : list (option E)) (acc : Bytes) :
  fold_left (lowest key) B acc = acc ∨
  ∃ e, Some e ∈ B ∧ key e = fold_left (lowest key) B acc.
Proof.
  revert acc. induction B as [|b B IH]; intros acc; simpl; [by left|].
  destruct (IH (lowest key acc b)) as [Heq|(e & Hin & He)].
  - rewrite Heq. destruct b as [e|]; simpl; [|by left].
    destruct (is_nil acc || (Compare (key e) acc =? -1)); [|by left].
    right. exists e. split; [apply list_elem_of_here|done].
  - right. exists e. split; [by apply list_elem_of_further|done].
Qed.

Lemma unblocked_id P : existsb (nil_front key) P = false → unblocked key P = P.
Proof. destruct P as [|l r]; [done|]. cbn [unblocked]. by intros ->. Qed.

Lemma unblocked_subset P l : l ∈ unblocked key P → l ∈ P.
Proof.
  induction P as [|l0 r IH]; [done|]. cbn [unblocked].
  destruct (existsb (nil_front key) (l0 :: r)); [|done].
  intros Hin. apply list_elem_of_further. by apply IH.
Qed.

Lemma lowest_nil_front (acc : Bytes) e n :
  key e = None → lowest key acc (Some e) = Some n → n = [].
Proof.
  intros He. simpl. rewrite He. destruct acc as [a|]; simpl; [|done].
  destruct (Compare None (Some a) =? -1) eqn:Hc; [done|].
  intros [= ->]. apply Z.eqb_neq in Hc. unfold Compare in Hc. simpl in Hc.
  destruct n; [done|]. by simpl in Hc.
Qed.

(** The name found, when it is not empty: it is the key at the front of
    an unblocked slot, and no front of an unblocked slot is below it. *)
Lemma scan_unblocked P (acc : Bytes) n :
  fold_left (lowest key) (map head P) acc = Some n → n ≠ [] →
  ((existsb (nil_front key) P = false ∧ acc = Some n) ∨
   (∃ e tl, e :: tl ∈ unblocked key P ∧ key e = Some n)) ∧
  (∀ e tl, e :: tl ∈ unblocked key P → bytes_le n (content (key e))) ∧
  (existsb (nil_front key) P = false → ∀ a, acc = Some a → bytes_le n a).
Proof.
  intros Hfold Hn. revert acc Hfold.
  induction P as [|l P IH]; intros acc Hfold.
  { simpl in Hfold. subst acc. split; [by left|]. split.
    - intros e tl Hin. by apply elem_of_nil in Hin.
    - intros _ a [= <-]. apply bytes_le_refl. }
  cbn [map fold_left] in Hfold.
  destruct (IH _ Hfold) as (HA & HB & HC). clear IH.
  destruct (existsb (nil_front key) P) eqn:HP.
  { (* a nil front further on *)
    assert (Hex : existsb (nil_front key) (l :: P) = true).
    { cbn [existsb]. rewrite HP. apply orb_true_r. }
    cbn [unblocked]. rewrite Hex. split; [|split].
    - destruct HA as [[? _]|HA]; [done|by right].
    - done.
    - done. }
  rewrite (unblocked_id P HP) in HA, HB.
  destruct (nil_front key l) eqn:Hl.
  { (* this front is nil *)
    assert (Hex : existsb (nil_front key) (l :: P) = true).
    { cbn [existsb]. by rewrite Hl. }
    cbn [unblocked]. rewrite Hex, (unblocked_id P HP). split; [|split].
    - destruct HA as [[_ Hacc]|HA]; [|by right].
      destruct l as [|e tl]; [done|]. simpl in Hl.
      destruct (key e) eqn:He; [done|].
      by apply (lowest_nil_front _ _ _ He) in Hacc.
    - done.
    - done. }
  assert (Hex : existsb (nil_front key) (l :: P) = false).
  { cbn [existsb]. by rewrite Hl, HP. }
  cbn [unblocked]. rewrite Hex.
  destruct l as [|e tl].
  { (* an empty slot *)
    simpl in HA, HC. split; [|split].
    - destruct HA as [[_ Hacc]|(e & tl & Hin & He)]; [by left|].
      right. exists e, tl. split; [by apply list_elem_of_further|done].
    - intros e tl [Heq|Hin]%elem_of_cons; [done|]. by apply (HB e tl).
    - intros _. by apply HC. }
  simpl in Hl. destruct (key e) as [k|] eqn:He; [|done]. clear Hl.
  assert (Hlow : lowest key acc (Some e) =
            if is_nil acc || (compare_bytes k (content acc) =? -1)
            then Some k else acc).
  { simpl. rewrite He. done. }
  cbn [head] in HA, HC. rewrite Hlow in HA, HC. specialize (HC eq_refl).
  assert (Hk : bytes_le n k).
  { destruct (is_nil acc || (compare_bytes k (content acc) =? -1)) eqn:Hc.
    - by apply HC.
    - apply orb_false_iff in Hc as [Hnil Hc]. destruct acc as [a|]; [|done].
      apply Z.eqb_neq in Hc. simpl in Hc.
      apply bytes_le_trans with a; [by apply HC|by apply bytes_not_lt_le]. }
  split; [|split].
  - destruct HA as [[_ Hacc]|(e' & tl' & Hin & He')].
    + destruct (is_nil acc || (compare_bytes k (content acc) =? -1)).
      * right. exists e, tl. split; [apply list_elem_of_here|]. by rewrite He.
      * by left.
    + right. exists e', tl'. split; [by apply list_elem_of_further|done].
  - intros e' tl' [[= -> ->]|Hin]%elem_of_cons.
    + by rewrite He.
    + by apply (HB e' tl').
  - intros _ a ->. simpl in HC.
    destruct (compare_bytes k a =? -1) eqn:Hc; [|by apply HC].
    apply Z.eqb_eq in Hc. apply bytes_le_cases. left.
    by apply bytes_le_lt_trans with k.
Qed.

(** ** Sorted sources *)

Lemma sorted_advance name l : sorted_keys key l → sorted_keys key (advance key name l).
Proof.
  intros Hl. destruct l as [|e tl]; [done|]. simpl.
  destruct (Equal (key e) name); [|done]. by apply StronglySorted_inv in Hl as [? _].
Qed.

Lemma advance_subset name l x : x ∈ advance key name l → x ∈ l.
Proof.
  destruct l as [|e tl]; [done|]. simpl.
  destruct (Equal (key e) name); [|done]. apply list_elem_of_further.
Qed.

Lemma sorted_tail_lt e tl x :
  sorted_keys key (e :: tl) → x ∈ tl →
  compare_bytes (content (key e)) (content (key x)) = -1.
Proof.
  intros [_ Hall]%StronglySorted_inv Hx. rewrite Forall_forall in Hall.
  by apply Hall.
Qed.

Lemma sorted_tail_nonempty e tl x :
  sorted_keys key (e :: tl) → x ∈ tl → content (key x) ≠ [].
Proof.
  intros Hl Hx Hc. pose proof (sorted_tail_lt _ _ _ Hl Hx) as Hlt.
  rewrite Hc in Hlt. by apply compare_bytes_nil_r in Hlt.
Qed.

Lemma nil_front_advance n l :
  n ≠ [] → sorted_keys key l → nil_front key (advance key (Some n) l) = nil_front key l.
Proof.
  intros Hn Hl. destruct l as [|e tl]; [done|]. simpl.
  destruct (Equal (key e) (Some n)) eqn:Heq; [|done].
  apply Equal_true in Heq. simpl in Heq.
  assert (is_nil (key e) = false) as ->.
  { destruct (key e); [done|]. simpl in Heq. congruence. }
  destruct tl as [|x tl]; [done|]. simpl.
  pose proof (sorted_tail_nonempty e (x :: tl) x Hl (list_elem_of_here _ _)) as Hx.
  by destruct (key x).
Qed.

Lemma existsb_nil_front_advance n P :
  n ≠ [] → Forall (sorted_keys key) P →
  existsb (nil_front key) (map (advance key (Some n)) P) = existsb (nil_front key) P.
Proof.
  intros Hn HP. induction HP as [|l P Hl HP IH]; [done|].
  cbn [map existsb]. by rewrite IH, nil_front_advance.
Qed.

Lemma unblocked_advance n P :
  n ≠ [] → Forall (sorted_keys key) P →
  unblocked key (map (advance key (Some n)) P) = map (advance key (Some n)) (unblocked key P).
Proof.
  intros Hn HP. induction HP as [|l P Hl HP IH]; [done|].
  cbn [map unblocked].
  change (existsb (nil_front key) (advance key (Some n) l :: map (advance key (Some n)) P))
    with (existsb (nil_front key) (map (advance key (Some n)) (l :: P))).
  rewrite existsb_nil_front_advance by (done || by constructor).
  destruct (existsb (nil_front key) (l :: P)); done.
Qed.

(** ** The invariant between two calls *)

Lemma scan_front P n :
  scan key P = Some n → ∃ e tl, e :: tl ∈ P ∧ key e = Some n.
Proof.
  unfold scan. intros Hs.
  destruct (fold_lowest_mem (map head P) None) as [Heq|(e & Hin & He)];
    [congruence|].
  apply list_elem_of_fmap in Hin as (l & Hhd & Hl).
  destruct l as [|e' tl]; [done|]. injection Hhd as ->.
  exists e', tl. split; [done|congruence].
Qed.

Lemma scan_not_empty P n :
  scan key P = Some n → n ≠ [] → ∀ e tl, e :: tl ∈ P → key e ≠ Some [].
Proof.
  intros Hs Hn e tl Hin He. unfold scan in Hs.
  rewrite (fold_lowest_empty (map head P) None e) in Hs; [congruence| |done].
  apply list_elem_of_fmap. by exists (e :: tl).
Qed.

Lemma step_above_nonempty P n :
  Forall (sorted_keys key) P → scan key P = Some n → n ≠ [] →
  above key (Some n) (map (advance key (Some n)) P).
Proof.
  intros HP Hs Hn. rewrite Forall_forall in HP. split.
  - intros l' e [l [-> Hl]]%list_elem_of_fmap He%advance_subset Hk.
    destruct l as [|e0 tl]; [by apply elem_of_nil in He|].
    apply elem_of_cons in He as [->|He].
    + by apply (scan_not_empty P n Hs Hn e0 tl).
    + apply (sorted_tail_nonempty e0 tl e); [|done|by rewrite Hk].
      by apply HP.
  - rewrite unblocked_advance by (done || by apply Forall_forall).
    intros l' e [l [-> Hl]]%list_elem_of_fmap He.
    assert (Hsorted : sorted_keys key l).
    { apply HP. by apply unblocked_subset. }
    destruct l as [|e0 tl]; [by apply elem_of_nil in He|].
    destruct (scan_unblocked P None n Hs Hn) as (_ & HB & _).
    specialize (HB e0 tl Hl). simpl in He.
    destruct (Equal (key e0) (Some n)) eqn:Heq.
    + apply Equal_true in Heq. simpl in Heq. rewrite <- Heq.
      by apply (sorted_tail_lt e0 tl e).
    + apply Equal_false in Heq. simpl in Heq.
      apply bytes_le_cases in HB as [HB|HB]; [|congruence].
      apply elem_of_cons in He as [->|He]; [done|].
      apply compare_bytes_trans with (content (key e0)); [done|].
      by apply (sorted_tail_lt e0 tl e).
Qed.

Lemma step_above_empty P :
  Forall (sorted_keys key) P → above key (Some []) (map (advance key (Some [])) P).
Proof.
  intros HP. rewrite Forall_forall in HP.
  assert (Hall : ∀ l' e, l' ∈ map (advance key (Some [])) P → e ∈ l' →
                  content (key e) ≠ []).
  { intros l' e [l [-> Hl]]%list_elem_of_fmap He.
    assert (Hsorted : sorted_keys key l) by by apply HP.
    destruct l as [|e0 tl]; [by apply elem_of_nil in He|]. simpl in He.
    destruct (Equal (key e0) (Some [])) eqn:Heq.
    - by apply (sorted_tail_nonempty e0 tl e).
    - apply Equal_false in Heq. simpl in Heq.
      apply elem_of_cons in He as [->|He]; [done|].
      by apply (sorted_tail_nonempty e0 tl e). }
  split.
  - intros l' e Hl He Hk. apply (Hall l' e Hl He). by rewrite Hk.
  - intros l' e Hl%unblocked_subset He. apply compare_bytes_nil_l.
    by apply (Hall l' e).
Qed.

Lemma scan_above P (l0 n : list byte) :
  above key (Some l0) P → scan key P = Some n → n ≠ [] ∧ compare_bytes l0 n = -1.
Proof.
  intros [Hne Hab] Hs.
  assert (Hn : n ≠ []).
  { destruct (scan_front P n Hs) as (e & tl & Hin & He). intros ->.
    apply (Hne (e :: tl) e Hin); [apply list_elem_of_here|done]. }
  split; [done|].
  destruct (scan_unblocked P None n Hs Hn) as ([[_ ?]|(e & tl & Hin & He)] & _);
    [done|].
  specialize (Hab (e :: tl) e Hin (list_elem_of_here _ _)).
  by rewrite He in Hab.
Qed.

(** One call keeps the invariant, with the name found as the new bound. *)
Lemma step_above P last n :
  Forall (sorted_keys key) P → above key last P → scan key P = Some n →
  (∀ b0 : list byte, last = Some b0 → compare_bytes b0 n = -1) ∧
  Forall (sorted_keys key) (map (advance key (Some n)) P) ∧
  above key (Some n) (map (advance key (Some n)) P).
Proof.
  intros HP Hab Hs. split; [|split].
  - intros b0 ->. by apply (scan_above P b0 n).
  - apply Forall_map. eapply Forall_impl; [exact HP|].
    intros l Hl. by apply sorted_advance.
  - destruct (decide (n = [])) as [->|Hn].
    + by apply step_above_empty.
    + by apply step_above_nonempty.
Qed.

(** ** The group returned *)

Lemma taken_filter name P :
  concat (map (taken key name) P) =
    filter (λ e, Equal (key e) name = true) (omap head P).
Proof.
  induction P as [|l P IH]; [done|]. cbn [map concat]. rewrite IH.
  destruct l as [|e tl]; [done|].
  change (omap head ((e :: tl) :: P)) with (e :: omap head P).
  rewrite filter_cons. cbn [taken].
  destruct (Equal (key e) name); [|done].
  rewrite decide_True by done. done.
Qed.

Lemma taken_keys name P e :
  e ∈ concat (map (taken key name) P) → content (key e) = content name.
Proof.
  rewrite taken_filter. intros [Heq _]%list_elem_of_filter. by apply Equal_true.
Qed.

Lemma taken_nonempty P n :
  scan key P = Some n → concat (map (taken key (Some n)) P) ≠ [].
Proof.
  intros (e & tl & Hin & He)%scan_front Hnil.
  assert (Hg : e ∈ concat (map (taken key (Some n)) P)).
  { rewrite taken_filter. apply list_elem_of_filter. split.
    - apply Equal_true. by rewrite He.
    - apply list_elem_of_omap. by exists (e :: tl). }
  rewrite Hnil in Hg. by apply elem_of_nil in Hg.
Qed.

Lemma taken_key P n :
  scan key P = Some n →
  content (mergeElem_key key (concat (map (taken key (Some n)) P))) = n.
Proof.
  intros Hs. pose proof (taken_nonempty P n Hs) as Hne.
  destruct (concat (map (taken key (Some n)) P)) as [|e g] eqn:Hg; [done|].
  simpl. apply (taken_keys (Some n) P). rewrite Hg. apply list_elem_of_here.
Qed.

Lemma omap_head_pending it : omap head (map pending it) = omap buf (map fill it).
Proof.
  induction it as [|s it IH]; [done|]. simpl.
  rewrite buf_fill. destruct (head (pending s)); [f_equal|]; exact IH.
Qed.

(** A returned group is not empty and holds, in the order of the slots,
    the buffered elements whose key equals its own. *)
Lemma merge_Next_group it g it' :
  merge_Next key it = (Some g, it') →
  g ≠ [] ∧
  g = filter (λ e, Equal (key e) (mergeElem_key key g) = true)
        (omap buf (map fill it)).
Proof.
  rewrite merge_Next_eq. destruct (scan key (map pending it)) as [n|] eqn:Hs; [|done].
  intros [= <- <-]. split; [by apply taken_nonempty|].
  rewrite taken_filter at 1. rewrite omap_head_pending.
  apply list_filter_iff. intros e.
  rewrite !Equal_true, (taken_key _ n Hs). done.
Qed.

(** ** Progress *)

Lemma advance_taken_length name l :
  (length (advance key name l) + length (taken key name l) = length l)%nat.
Proof.
  destruct l as [|e tl]; [done|]. simpl.
  destruct (Equal (key e) name); simpl; lia.
Qed.

Lemma advance_taken_lengths name P :
  (length (concat (map (advance key name) P)) + length (concat (map (taken key name) P))
   = length (concat P))%nat.
Proof.
  induction P as [|l P IH]; [done|]. cbn [map concat].
  rewrite !length_app. pose proof (advance_taken_length name l). lia.
Qed.

(** Every group takes its elements away from the pending ones. *)
Lemma merge_Next_length it g it' :
  merge_Next key it = (Some g, it') →
  (length (remaining it') + length g = length (remaining it))%nat ∧ g ≠ [].
Proof.
  intros HN. pose proof (merge_Next_pending _ _ _ HN) as Hp.
  pose proof (merge_Next_group _ _ _ HN) as [Hne _]. split; [|done].
  rewrite merge_Next_eq in HN.
  destruct (scan key (map pending it)) as [n|]; [|done]. injection HN as <- <-.
  unfold remaining. rewrite Hp. apply advance_taken_lengths.
Qed.

Lemma merge_Next_None_pending it r it' :
  merge_Next key it = (r, it') → r = None → remaining it' = remaining it.
Proof.
  intros HN ->. pose proof (merge_Next_pending _ _ _ HN) as Hp.
  rewrite merge_Next_eq in HN.
  destruct (scan key (map pending it)) as [n|]; [done|].
  unfold remaining. by rewrite Hp.
Qed.

Lemma merge_run_enough (k k' : nat) it :
  (length (remaining it) < k)%nat → (k ≤ k')%nat →
  merge_run key k it = merge_run key k' it.
Proof.
  revert k' it. induction k as [|k IH]; intros k' it Hk Hk'; [lia|].
  destruct k' as [|k']; [lia|]. simpl.
  destruct (merge_Next key it) as [[g|] it'] eqn:HN; [|done].
  apply merge_Next_length in HN as [Hlen Hne].
  f_equal. apply IH; [|lia]. destruct g; [done|]. simpl in Hlen. lia.
Qed.

(** The loop that calls [Next] until nil: its unfolding. *)
Lemma merge_drain_unfold it :
  merge_drain key it =
    match merge_Next key it with
    | (None, _) => []
    | (Some g, it') => g :: merge_drain key it'
    end.
Proof.
  unfold merge_drain at 1. simpl.
  destruct (merge_Next key it) as [[g|] it'] eqn:HN; [|done].
  apply merge_Next_length in HN as [Hlen Hne].
  f_equal. unfold merge_drain. symmetry. apply merge_run_enough; [lia|].
  destruct g; [done|]. simpl in Hlen. lia.
Qed.

(** The loop ends: after the groups of [merge_drain], [Next] returns
    nil. *)
Lemma merge_drain_ends it :
  ∃ it_end it_end',
    next_many (merge_Next key) (length (merge_drain key it)) it
      = Some (merge_drain key it, it_end) ∧
    merge_Next key it_end = (None, it_end').
Proof.
  remember (length (remaining it)) as m eqn:Hm.
  revert it Hm. induction (lt_wf m) as [m _ IH]. intros it ->.
  rewrite merge_drain_unfold.
  destruct (merge_Next key it) as [[g|] it'] eqn:HN.
  - pose proof (merge_Next_length _ _ _ HN) as [Hlen Hne].
    destruct (IH (length (remaining it'))) with (it := it')
      as (it_end & it_end' & Hmany & Hend); [|done|].
    { destruct g; [done|]. simpl in Hlen. lia. }
    exists it_end, it_end'. split; [|done]. simpl. by rewrite HN, Hmany.
  - exists it, it'. by split.
Qed.

(** ** The keys of successive groups *)

Lemma merge_Next_above it last g it' :
  Forall (sorted_keys key) (map pending it) → above key last (map pending it) →
  merge_Next key it = (Some g, it') →
  (∀ b0 : list byte, last = Some b0 →
     compare_bytes b0 (content (mergeElem_key key g)) = -1) ∧
  Forall (sorted_keys key) (map pending it') ∧
  above key (Some (content (mergeElem_key key g))) (map pending it').
Proof.
  intros Hsorted Hab HN. pose proof (merge_Next_pending _ _ _ HN) as Hp.
  rewrite merge_Next_eq in HN.
  destruct (scan key (map pending it)) as [n|] eqn:Hs; [|done].
  injection HN as <- <-. rewrite Hp, (taken_key _ n Hs).
  by apply step_above.
Qed.

Lemma merge_run_sorted (k : nat) it last :
  Forall (sorted_keys key) (map pending it) → above key last (map pending it) →
  Forall (λ g, ∀ b0 : list byte, last = Some b0 →
               compare_bytes b0 (content (mergeElem_key key g)) = -1)
    (merge_run key k it) ∧
  StronglySorted (group_lt key) (merge_run key k it).
Proof.
  revert it last. induction k as [|k IH]; intros it last Hsorted Hab.
  { split; constructor. }
  simpl. destruct (merge_Next key it) as [[g|] it'] eqn:HN;
    [|split; constructor].
  destruct (merge_Next_above _ _ _ _ Hsorted Hab HN) as (Hg & Hsorted' & Hab').
  destruct (IH it' _ Hsorted' Hab') as [Hall Hrest].
  split.
  - constructor; [done|]. eapply Forall_impl; [exact Hall|].
    intros g' Hg' b0 Hb0. simpl in Hg'.
    eapply compare_bytes_trans; [by apply Hg|by apply Hg'].
  - constructor; [done|]. eapply Forall_impl; [exact Hall|].
    intros g' Hg'. by apply Hg'.
Qed.

(** The state built by [MergeXIterators] has the sources pending. *)
Lemma pending_MergeIterators (itrs : list (list E)) it :
  MergeIterators itrs = Some it → map pending it = itrs.
Proof.
  destruct itrs as [|l itrs]; [done|]. intros [= <-].
  simpl. f_equal. rewrite map_map. rewrite <- (map_id itrs) at 2.
  by apply map_ext.
Qed.

(** ** The adapter on a merge iterator *)

Lemma adapter_Next_merge_total (deleted : E → bool) (fuel : nat) it :
  (length (remaining it) < fuel)%nat →
  ∃ r it', adapter_Next (merge_Next key) (mergeElem_key key)
             (mergeElem_Deleted deleted) fuel it = Some (r, it').
Proof.
  revert it. induction fuel as [|fuel IH]; intros it Hlen; [lia|]. simpl.
  destruct (merge_Next key it) as [[g|] it'] eqn:HN; [|by eauto].
  destruct (mergeElem_Deleted deleted g); [|by eauto].
  apply merge_Next_length in HN as [Hl Hne]. apply IH.
  destruct g; [done|]. simpl in Hl. lia.
Qed.
End MergeFacts.

Section AdapterFacts.
Context {I X : Type} (next : I → option X * I).
Context (xkey : X → Bytes) (xdeleted : X → bool).

(** What a call of the adapter has done when it returns: it has called
    the wrapped [Next] on and on, dropped the deleted elements, and
    stopped at the first nil or at the first element that is not
    deleted. *)
Lemma adapter_Next_spec (fuel : nat) (it : I) r it' :
  adapter_Next next xkey xdeleted fuel it = Some (r, it') →
  ∃ skipped it_k,
    next_many next (length skipped) it = Some (skipped, it_k) ∧
    Forall (λ e, xdeleted e = true) skipped ∧
    ((next it_k = (None, it') ∧ r = None) ∨
     (∃ e, next it_k = (Some e, it') ∧ xdeleted e = false ∧ r = xkey e)).
Proof.
  revert it. induction fuel as [|fuel IH]; intros it; [done|]. simpl.
  destruct (next it) as [[e|] it1] eqn:HN.
  - destruct (xdeleted e) eqn:Hd.
    + intros (skipped & it_k & Hmany & Hall & Hend)%IH.
      exists (e :: skipped), it_k. split; [|split; [|done]].
      * simpl. by rewrite HN, Hmany.
      * by constructor.
    + intros [= <- <-]. exists [], it. split; [done|]. split; [constructor|].
      right. by exists e.
  - intros [= <- <-]. exists [], it. split; [done|]. split; [constructor|].
    by left.
Qed.
End AdapterFacts.

Section MergeElements.
Context {E : Type} (key : E → Bytes).
Implicit Types (s : slot E) (it : mergeIterator E) (name : Bytes).
Implicit Types (l : list E) (P : list (list E)).

Lemma elem_of_concat P (e : E) : e ∈ concat P ↔ ∃ l, l ∈ P ∧ e ∈ l.
Proof.
  rewrite list_elem_of_In, in_concat. split; intros (l & Hl & He); exists l.
  - by rewrite !list_elem_of_In.
  - by rewrite <- !list_elem_of_In.
Qed.

Lemma taken_subset name l (e : E) : e ∈ taken key name l → e ∈ l.
Proof.
  destruct l as [|x tl]; [done|]. simpl. destruct (Equal (key x) name).
  - intros ->%list_elem_of_singleton. apply list_elem_of_here.
  - intros []%elem_of_nil.
Qed.

Lemma taken_or_advance name l (e : E) :
  e ∈ l → e ∈ taken key name l ∨ e ∈ advance key name l.
Proof.
  destruct l as [|x tl]; [by intros []%elem_of_nil|]. simpl. destruct (Equal (key x) name).
  - intros [->|He]%elem_of_cons; [left; apply list_elem_of_here|by right].
  - by right.
Qed.

(** ** Nothing is invented, and the members of a group share its key *)

Lemma merge_Next_sound it g it' :
  merge_Next key it = (Some g, it') →
  (∀ e, e ∈ g → e ∈ remaining it ∧ content (key e) = content (mergeElem_key key g)) ∧
  (∀ e, e ∈ remaining it' → e ∈ remaining it).
Proof.
  intros HN. pose proof (merge_Next_pending _ _ _ _ HN) as Hp.
  pose proof (merge_Next_group _ _ _ _ HN) as [_ Hg].
  rewrite merge_Next_eq in HN.
  destruct (scan key (map pending it)) as [n|] eqn:Hs; [|done].
  injection HN as Hg' <-. split.
  - intros e He. split.
    + rewrite <- Hg' in He. apply elem_of_concat in He as (l' & Hl' & He).
      apply list_elem_of_fmap in Hl' as (l & -> & Hl).
      apply elem_of_concat. exists l. split; [done|]. by apply taken_subset in He.
    + rewrite Hg in He. apply list_elem_of_filter in He as [He _].
      by apply Equal_true.
  - unfold remaining. rewrite Hp. intros e (l' & Hl' & He)%elem_of_concat.
    apply list_elem_of_fmap in Hl' as (l & -> & Hl).
    apply elem_of_concat. exists l. split; [done|]. by apply advance_subset in He.
Qed.

Lemma merge_run_sound (k : nat) it g e :
  g ∈ merge_run key k it → e ∈ g →
  e ∈ remaining it ∧ content (key e) = content (mergeElem_key key g).
Proof.
  revert it. induction k as [|k IH]; intros it; simpl; [by intros []%elem_of_nil|].
  destruct (merge_Next key it) as [[g0|] it'] eqn:HN; [|by intros []%elem_of_nil].
  destruct (merge_Next_sound _ _ _ HN) as [Hg Hrest].
  intros [->|Hin]%elem_of_cons He; [by apply Hg|].
  destruct (IH it' Hin He) as [Hr Hk]. split; [by apply Hrest|done].
Qed.

Lemma merge_run_nonempty (k : nat) it g : g ∈ merge_run key k it → g ≠ [].
Proof.
  revert it. induction k as [|k IH]; intros it; simpl; [by intros []%elem_of_nil|].
  destruct (merge_Next key it) as [[g0|] it'] eqn:HN; [|by intros []%elem_of_nil].
  pose proof (merge_Next_group _ _ _ _ HN) as [Hne _].
  intros [->|Hin]%elem_of_cons; [done|]. by apply (IH it').
Qed.

(** ** Nothing is lost when no key is nil *)

Lemma fold_lowest_None (B : list (option E)) (acc : Bytes) :
  (∀ e, Some e ∈ B → key e ≠ None) →
  fold_left (lowest key) B acc = None → acc = None ∧ ∀ e, Some e ∉ B.
Proof.
  revert acc. induction B as [|b B IH]; intros acc HB; simpl.
  - intros ->. split; [done|]. intros e []%elem_of_nil.
  - intros Hf. destruct (IH (lowest key acc b)) as [Hacc Hnone]; [|done|].
    { intros e He. apply HB. by apply list_elem_of_further. }
    destruct b as [e|].
    + exfalso. simpl in Hacc.
      assert (key e ≠ None) by apply HB, list_elem_of_here.
      destruct (is_nil acc || (Compare (key e) acc =? -1)) eqn:Hc; [done|].
      subst acc. done.
    + simpl in Hacc. split; [done|].
      intros e [?|He]%elem_of_cons; [done|]. by apply (Hnone e).
Qed.

Lemma scan_None_empty P :
  (∀ l e, l ∈ P → e ∈ l → key e ≠ None) → scan key P = None → concat P = [].
Proof.
  intros HP Hs. unfold scan in Hs.
  apply fold_lowest_None in Hs as [_ Hnone].
  - induction P as [|l P IH]; [done|]. simpl.
    destruct l as [|e tl].
    + simpl. apply IH.
      * intros l e Hl. apply HP. by apply list_elem_of_further.
      * intros e He. apply (Hnone e). by apply list_elem_of_further.
    + exfalso. apply (Hnone e). apply list_elem_of_here.
  - intros e (l & Hhd & Hl)%list_elem_of_fmap.
    destruct l as [|e' tl]; [done|]. injection Hhd as ->.
    apply (HP (e' :: tl)); [done|apply list_elem_of_here].
Qed.

Lemma merge_drain_complete it :
  (∀ e, e ∈ remaining it → key e ≠ None) →
  ∀ e, e ∈ remaining it → ∃ g, g ∈ merge_drain key it ∧ e ∈ g.
Proof.
  remember (length (remaining it)) as m eqn:Hm.
  revert it Hm. induction (lt_wf m) as [m _ IH]. intros it -> Hnil e He.
  rewrite merge_drain_unfold.
  destruct (merge_Next key it) as [[g|] it'] eqn:HN.
  - pose proof (merge_Next_length _ _ _ _ HN) as [Hlen Hne].
    pose proof (merge_Next_sound _ _ _ HN) as [_ Hrest].
    pose proof (merge_Next_pending _ _ _ _ HN) as Hp.
    rewrite merge_Next_eq in HN.
    destruct (scan key (map pending it)) as [n|] eqn:Hs; [|done].
    injection HN as Hg Hit'.
    apply elem_of_concat in He as (l & Hl & He).
    destruct (taken_or_advance (Some n) l e He) as [Ht|Ha].
    + exists g. split; [apply list_elem_of_here|].
      rewrite <- Hg. apply elem_of_concat. exists (taken key (Some n) l).
      split; [|done]. apply list_elem_of_fmap. by exists l.
    + destruct (IH (length (remaining it'))) with (it := it') (e := e)
        as (g' & Hg' & He'); try done.
      * destruct g; [done|]. simpl in Hlen. lia.
      * intros x Hx. by apply Hnil, Hrest.
      * unfold remaining. rewrite Hp. apply elem_of_concat.
        exists (advance key (Some n) l). split; [|done].
        apply list_elem_of_fmap. by exists l.
      * exists g'. split; [by apply list_elem_of_further|done].
  - exfalso. rewrite merge_Next_eq in HN.
    destruct (scan key (map pending it)) as [n|] eqn:Hs; [done|].
    apply scan_None_empty in Hs.
    + unfold remaining in He. rewrite Hs in He. by apply elem_of_nil in He.
    + intros l x Hl Hx. apply Hnil, elem_of_concat. by exists l.
Qed.
End MergeElements.

(** ** Sorted sources without nil keys: the state after each group *)

Section MergeNewest.
Context {E : Type} (key : E → Bytes).
Implicit Types (s : slot E) (it : mergeIterator E) (name : Bytes).
Implicit Types (l : list E) (P srcs : list (list E)).

Lemma Forall_filter_keep {A : Type} (R Q : A → Prop) `{∀ x, Decision (Q x)}
    (xs : list A) :
  Forall R xs → Forall R (filter Q xs).
Proof.
  rewrite !Forall_forall. intros Hall x [_ Hx]%list_elem_of_filter. by apply Hall.
Qed.

Lemma filter_all {A : Type} (Q : A → Prop) `{∀ x, Decision (Q x)} (xs : list A) :
  Forall Q xs → filter Q xs = xs.
Proof.
  induction 1 as [|x xs Hx Hxs IH]; [done|].
  by rewrite filter_cons, decide_True, IH.
Qed.

Lemma sorted_keys_filter (Q : E → Prop) `{∀ x, Decision (Q x)} l :
  sorted_keys key l → sorted_keys key (filter Q l).
Proof.
  induction 1 as [|e l Hl IH Hall]; [constructor|]. rewrite filter_cons.
  destruct (decide (Q e)); [|done]. constructor; [done|].
  by apply Forall_filter_keep.
Qed.

Lemma above_filter_sorted last l :
  sorted_keys key l → sorted_keys key (above_filter key last l).
Proof. destruct last; [apply sorted_keys_filter|done]. Qed.

Lemma no_nil_front P :
  (∀ l e, l ∈ P → e ∈ l → key e ≠ None) → existsb (nil_front key) P = false.
Proof.
  intros HP. induction P as [|l P IH]; [done|]. cbn [existsb].
  rewrite IH by (intros l' e Hl'; apply HP; by apply list_elem_of_further).
  destruct l as [|e tl]; [done|]. simpl.
  assert (key e ≠ None)
    by (apply (HP (e :: tl)); apply list_elem_of_here).
  by destruct (key e).
Qed.

(** The fronts are not below the name found. *)
Lemma scan_least P (n : list byte) :
  (∀ l e, l ∈ P → e ∈ l → key e ≠ None) → scan key P = Some n →
  ∀ e tl, e :: tl ∈ P → bytes_le n (content (key e)).
Proof.
  intros HP Hs e tl Hin. destruct (decide (n = [])) as [->|Hn].
  - unfold bytes_le. by destruct (content (key e)).
  - destruct (scan_unblocked key P None n Hs Hn) as (_ & HB & _).
    apply (HB e tl). by rewrite unblocked_id by by apply no_nil_front.
Qed.

Lemma advance_filter (n : list byte) l :
  sorted_keys key l →
  (∀ e tl, l = e :: tl → bytes_le n (content (key e))) →
  advance key (Some n) l =
    filter (λ x, compare_bytes n (content (key x)) = -1) l.
Proof.
  intros Hl Hfront. destruct l as [|e tl]; [done|].
  specialize (Hfront e tl eq_refl). simpl. rewrite filter_cons.
  assert (Htl : ∀ x, x ∈ tl →
            compare_bytes (content (key e)) (content (key x)) = -1).
  { intros x Hx. by apply (sorted_tail_lt key e tl x). }
  destruct (Equal (key e) (Some n)) eqn:Heq.
  - apply Equal_true in Heq. simpl in Heq. rewrite Heq in Htl.
    rewrite decide_False by (rewrite Heq; apply bytes_lt_irrefl).
    symmetry. apply filter_all. by apply Forall_forall.
  - apply Equal_false in Heq. simpl in Heq.
    apply bytes_le_cases in Hfront as [Hlt|Heq']; [|congruence].
    rewrite decide_True by done. f_equal.
    symmetry. apply filter_all. apply Forall_forall. intros x Hx.
    apply compare_bytes_trans with (content (key e)); [done|by apply Htl].
Qed.

Lemma above_filter_above (b0 : list byte) srcs :
  above key (Some b0) (map (above_filter key (Some b0)) srcs).
Proof.
  assert (Hall : ∀ l' e, l' ∈ map (above_filter key (Some b0)) srcs → e ∈ l' →
                  compare_bytes b0 (content (key e)) = -1).
  { intros l' e (l & -> & Hl)%list_elem_of_fmap He.
    by apply list_elem_of_filter in He as [He _]. }
  split.
  - intros l' e Hl' He Hk. specialize (Hall l' e Hl' He).
    rewrite Hk in Hall. by apply compare_bytes_nil_r in Hall.
  - intros l' e Hl'%unblocked_subset He. by apply (Hall l' e).
Qed.

(** The invariant: what pends in slot [i] is what source [i] has above
    the key of the last group. *)
Lemma merge_Next_above_filter srcs it last g it' :
  Forall (sorted_keys key) srcs →
  (∀ l e, l ∈ srcs → e ∈ l → key e ≠ None) →
  map pending it = map (above_filter key last) srcs →
  merge_Next key it = (Some g, it') →
  (∀ b0 : list byte, last = Some b0 →
     compare_bytes b0 (content (mergeElem_key key g)) = -1) ∧
  g = concat (map (taken key (Some (content (mergeElem_key key g))))
                (map (above_filter key last) srcs)) ∧
  scan key (map (above_filter key last) srcs)
    = Some (content (mergeElem_key key g)) ∧
  map pending it' =
    map (above_filter key (Some (content (mergeElem_key key g)))) srcs.
Proof.
  intros Hsorted Hnil Hinv HN.
  assert (HsortedP : Forall (sorted_keys key) (map (above_filter key last) srcs)).
  { apply Forall_map. eapply Forall_impl; [exact Hsorted|].
    intros l Hl. by apply above_filter_sorted. }
  assert (HnilP : ∀ l e, l ∈ map (above_filter key last) srcs → e ∈ l →
                   key e ≠ None).
  { intros l' e (l & -> & Hl)%list_elem_of_fmap He. apply (Hnil l e Hl).
    destruct last; [|done]. by apply list_elem_of_filter in He as [_ He]. }
  assert (Hab : above key last (map pending it)).
  { rewrite Hinv. destruct last; [apply above_filter_above|done]. }
  pose proof (merge_Next_above key it last g it') as Hstep.
  rewrite Hinv in Hstep at 1.
  destruct (Hstep HsortedP Hab HN) as (Hlast & _ & _). clear Hstep.
  pose proof (merge_Next_pending key _ _ _ HN) as Hp.
  rewrite merge_Next_eq in HN. rewrite Hinv in HN, Hp.
  destruct (scan key (map (above_filter key last) srcs)) as [n|] eqn:Hs; [|done].
  injection HN as Hg _.
  assert (Hn : content (mergeElem_key key g) = n).
  { rewrite <- Hg. by apply taken_key. }
  rewrite Hn. split; [by rewrite <- Hn|]. split; [done|]. split; [done|].
  rewrite Hp, map_map. apply map_ext_in. intros l Hl%list_elem_of_In.
  rewrite advance_filter.
  - destruct last as [b0|]; [|done]. simpl.
    apply list_filter_filter_l. intros x Hx.
    apply compare_bytes_trans with n; [|done]. rewrite <- Hn. by apply Hlast.
  - apply above_filter_sorted. rewrite Forall_forall in Hsorted. by apply Hsorted.
  - intros e tl Heq. apply (scan_least _ n HnilP Hs e tl).
    rewrite <- Heq. apply list_elem_of_fmap. by exists l.
Qed.

(** The newest source that has the key of a group gives the group its
    first constituent. *)
Lemma taken_newest srcs last (n : list byte) (i : nat) l e :
  Forall (sorted_keys key) srcs →
  (∀ l e, l ∈ srcs → e ∈ l → key e ≠ None) →
  scan key (map (above_filter key last) srcs) = Some n →
  (∀ b0 : list byte, last = Some b0 → compare_bytes b0 n = -1) →
  srcs !! i = Some l → e ∈ l → content (key e) = n →
  (∀ j l' x, (j < i)%nat → srcs !! j = Some l' → x ∈ l' →
             content (key x) ≠ n) →
  head (concat (map (taken key (Some n)) (map (above_filter key last) srcs)))
    = Some e.
Proof.
  intros Hsorted Hnil Hs Hlast Hi He Hk Hnewer.
  assert (HnilP : ∀ l e, l ∈ map (above_filter key last) srcs → e ∈ l →
                   key e ≠ None).
  { intros l' x (l0 & -> & Hl0)%list_elem_of_fmap Hx. apply (Hnil l0 x Hl0).
    destruct last; [|done]. by apply list_elem_of_filter in Hx as [_ Hx]. }
  pose proof (scan_least _ n HnilP Hs) as Hleast.
  assert (Hl_in : l ∈ srcs) by by eapply list_elem_of_lookup_2.
  rewrite <- (take_drop_middle srcs i l Hi).
  rewrite !map_app, concat_app. cbn [map concat].
  assert (Hpre : concat (map (taken key (Some n))
                   (map (above_filter key last) (take i srcs))) = []).
  { assert (Hall : ∀ l', l' ∈ take i srcs →
              taken key (Some n) (above_filter key last l') = []).
    { intros l' (j & Hj)%list_elem_of_lookup.
      apply lookup_take_Some in Hj as [Hj Hlt].
      destruct (above_filter key last l') as [|x tl] eqn:Hl'; [done|]. simpl.
      destruct (Equal (key x) (Some n)) eqn:Heq; [|done].
      apply Equal_true in Heq. simpl in Heq. exfalso.
      apply (Hnewer j l' x Hlt Hj); [|done].
      assert (Hx : x ∈ above_filter key last l')
        by (rewrite Hl'; apply list_elem_of_here).
      destruct last; [|done]. by apply list_elem_of_filter in Hx as [_ Hx]. }
    induction (take i srcs) as [|l' rest IH]; [done|]. cbn [map concat].
    rewrite Hall by apply list_elem_of_here.
    apply IH. intros l'' Hl''. apply Hall. by apply list_elem_of_further. }
  rewrite Hpre. simpl app.
  assert (Hin : e ∈ above_filter key last l).
  { destruct last as [b0|]; [|done]. apply list_elem_of_filter.
    split; [|done]. rewrite Hk. by apply Hlast. }
  assert (Hsl : sorted_keys key (above_filter key last l)).
  { apply above_filter_sorted. rewrite Forall_forall in Hsorted.
    by apply Hsorted. }
  destruct (above_filter key last l) as [|f tl] eqn:Hl; [by apply elem_of_nil in Hin|].
  assert (Hf : bytes_le n (content (key f))).
  { apply (Hleast f tl). rewrite <- Hl. apply list_elem_of_fmap. by exists l. }
  apply elem_of_cons in Hin as [->|Hin].
  - simpl. assert (Equal (key f) (Some n) = true) as ->; [|done].
    by apply Equal_true.
  - exfalso. pose proof (sorted_tail_lt key f tl e Hsl Hin) as Hlt.
    rewrite Hk in Hlt. apply bytes_le_cases in Hf as [Hf|Hf].
    + pose proof (compare_bytes_trans _ _ _ Hf Hlt) as Hnn.
      by apply bytes_lt_irrefl in Hnn.
    + rewrite <- Hf in Hlt. by apply bytes_lt_irrefl in Hlt.
Qed.

(** Over the whole run: a group with the key of element [e] of source [i]
    has [e] as its first constituent when no source before [i] has that
    key, so the group is deleted exactly when [e] is. *)
Lemma merge_run_newest (deleted : E → bool) srcs (k : nat) it last :
  Forall (sorted_keys key) srcs →
  (∀ l e, l ∈ srcs → e ∈ l → key e ≠ None) →
  map pending it = map (above_filter key last) srcs →
  ∀ g, g ∈ merge_run key k it →
  ∀ (i : nat) l e,
    srcs !! i = Some l → e ∈ l →
    content (key e) = content (mergeElem_key key g) →
    (∀ j l' x, (j < i)%nat → srcs !! j = Some l' → x ∈ l' →
               content (key x) ≠ content (key e)) →
    head g = Some e ∧ mergeElem_Deleted deleted g = deleted e.
Proof.
  intros Hsorted Hnil. revert it last.
  induction k as [|k IH]; intros it last Hinv g; simpl;
    [by intros []%elem_of_nil|].
  destruct (merge_Next key it) as [[g0|] it'] eqn:HN; [|by intros []%elem_of_nil].
  destruct (merge_Next_above_filter srcs it last g0 it' Hsorted Hnil Hinv HN)
    as (Hlast & Hg0 & Hs & Hinv').
  intros [->|Hin]%elem_of_cons; [|by apply (IH it' _ Hinv')].
  intros i l e Hi He Hk Hnewer.
  assert (Hhead : head g0 = Some e).
  { rewrite Hg0.
    apply (taken_newest srcs last _ i l e Hsorted Hnil Hs Hlast Hi He Hk).
    intros j l' x Hj Hl' Hx. rewrite <- Hk. by apply (Hnewer j l' x). }
  split; [done|]. destruct g0 as [|e0 g0]; [done|]. by injection Hhead as ->.
Qed.
End MergeNewest.

(* ================================================================== *)
(** * Properties of predicate validation *)
(* ================================================================== *)

Section PredicateFacts.
Import cnosql.

Lemma invalid_in_spec (cond : Expr) :
  invalid_in cond = true ↔ has_invalid_operator cond.
Proof.
  split.
  - induction cond as [|op l IHl r IHr|e IHe| | | |]; simpl; try done.
    + intros [[Hop|Hl]%orb_true_iff|Hr]%orb_true_iff.
      * exists op, l, r. split; [constructor|]. by apply negb_true_iff.
      * destruct (IHl Hl) as (op' & l' & r' & Hsub & Hop).
        exists op', l', r'. split; [by apply subexpr_LHS|done].
      * destruct (IHr Hr) as (op' & l' & r' & Hsub & Hop).
        exists op', l', r'. split; [by apply subexpr_RHS|done].
    + intros He. destruct (IHe He) as (op' & l' & r' & Hsub & Hop).
      exists op', l', r'. split; [by apply subexpr_paren|done].
  - intros (op & l & r & Hsub & Hop).
    remember (BinaryExpr op l r) as b eqn:Hb.
    induction Hsub as [e|e op' l' r' Hsub IH|e op' l' r' Hsub IH|e e' Hsub IH];
      simpl.
    + subst e. simpl. by rewrite Hop.
    + rewrite (IH Hb). by rewrite orb_true_r.
    + rewrite (IH Hb). by rewrite orb_true_r.
    + by apply IH.
Qed.

(** What the walk of [newSeriesCursor] leaves in [err]. *)
Lemma WalkFunc_check_operator (cond : Expr) (err : option error) :
  WalkFunc cond check_operator err =
    if invalid_in cond then Some "invalid tag comparison operator"%string
    else err.
Proof.
  revert err.
  induction cond as [|op l IHl r IHr|e IHe| | | |]; intros err; simpl; try done.
  rewrite IHr, IHl.
  destruct (invalid_in r), (invalid_in l), op; done.
Qed.
End PredicateFacts.

(* ================================================================== *)
(** * Properties of [MustReplace], [PrependLogFile] and [Metric] *)
(* ================================================================== *)

Section FileSetFacts.
Context {File : Type} `{EqDecision File} `{FileMethods File}.
Context {CompactionLevel SeriesFile : Type}.
Implicit Types (fs : FileSet File CompactionLevel SeriesFile).
Implicit Types (pre post oldFiles : list File).

Lemma find_first_run pre post (x : File) (i : nat) :
  x ∉ pre → find_first (pre ++ x :: post) x i = Returns (i + length pre)%nat.
Proof.
  revert i. induction pre as [|a pre IH]; intros i Hx; simpl.
  - rewrite decide_True by done. f_equal. lia.
  - apply not_elem_of_cons in Hx as [Hne Hx].
    rewrite decide_False by congruence.
    specialize (IH (S i) Hx).
    destruct pre; simpl in *; rewrite IH; f_equal; lia.
Qed.

Lemma find_first_missing (rest : list File) (x : File) (i : nat) :
  rest ≠ [] → x ∉ rest →
  find_first rest x i = Panics (PanicMessage "first replacement file not found").
Proof.
  revert i. induction rest as [|a rest IH]; intros i Hne Hx; [done|]. simpl.
  apply not_elem_of_cons in Hx as [Hxa Hx].
  rewrite decide_False by congruence.
  destruct rest; [done|]. apply IH; done.
Qed.

Lemma find_first_Returns (rest : list File) (x : File) (i k : nat) :
  find_first rest x i = Returns k →
  (rest = [] ∧ k = i) ∨
  (∃ pre post, rest = pre ++ x :: post ∧ (x ∉ pre) ∧ k = (i + length pre)%nat).
Proof.
  intros Hf. destruct (decide (x ∈ rest)) as [Hin|Hnin].
  - right. apply list_elem_of_split_l in Hin as (pre & post & -> & Hpre).
    exists pre, post. rewrite find_first_run in Hf by done. naive_solver.
  - destruct rest as [|a rest]; [left; simpl in Hf; naive_solver|].
    rewrite find_first_missing in Hf; done.
Qed.

Lemma check_contiguous_Returns (all oldFiles olds : list File) (i j : nat) :
  check_contiguous all oldFiles i j olds = Returns tt ↔
  take (length olds) (drop (i + j) all) = olds.
Proof.
  revert j. induction olds as [|o olds IH]; intros j; simpl.
  - rewrite take_0. done.
  - destruct (all !! (i + j)%nat) as [f|] eqn:Hl.
    + rewrite (drop_S _ _ _ Hl). simpl. destruct (decide (f = o)) as [->|Hne].
      * rewrite IH. replace (i + S j)%nat with (S (i + j)) by lia.
        split; [intros ->; done | intros [=]; done].
      * split; [done | intros [=]; done].
    + rewrite drop_ge by (apply lookup_ge_None; done). done.
Qed.

(** What a returning call has found: the old files as a run of the files,
    at the first position of [oldFiles[0]]. *)
Lemma MustReplace_Returns fs oldFiles (newFile : File) fs' :
  MustReplace fs oldFiles newFile = Returns fs' →
  ∃ pre post, oldFiles ≠ [] ∧ files fs = pre ++ oldFiles ++ post ∧
    (∀ o, head oldFiles = Some o → o ∉ pre) ∧
    fs' = {| levels := levels fs; sfile := None;
             files := pre ++ newFile :: post; manifestSize := 0 |}.
Proof.
  unfold MustReplace. destruct oldFiles as [|old0 olds] eqn:Hold; [done|].
  rewrite <- Hold.
  destruct (find_first (files fs) old0 0) as [i|] eqn:Hfind; [|done].
  destruct (check_contiguous _ _ _ _ _) as [[]|] eqn:Hchk; [|done].
  intros [= <-]. apply check_contiguous_Returns in Hchk.
  rewrite Nat.add_0_r in Hchk.
  assert (Hsplit : files fs = take i (files fs) ++ oldFiles ++
                     drop (i + length oldFiles) (files fs)).
  { rewrite <- (take_drop i (files fs)) at 1. f_equal.
    rewrite <- (take_drop (length oldFiles) (drop i (files fs))) at 1.
    rewrite Hchk, drop_drop. done. }
  exists (take i (files fs)), (drop (i + length oldFiles) (files fs)).
  split; [by rewrite Hold|]. split; [done|]. split; [|done].
  intros o Ho. rewrite Hold in Ho. simpl in Ho. injection Ho as <-.
  apply find_first_Returns in Hfind as [[Hnil _]|(pre & post & Hf & Hpre & ->)].
  - rewrite Hnil, take_nil. apply not_elem_of_nil.
  - rewrite Hf. simpl. rewrite take_app_length. done.
Qed.

Lemma MustReplace_run fs pre oldFiles post (newFile : File) :
  oldFiles ≠ [] → files fs = pre ++ oldFiles ++ post →
  (∀ o, head oldFiles = Some o → o ∉ pre) →
  MustReplace fs oldFiles newFile =
    Returns {| levels := levels fs; sfile := None;
               files := pre ++ newFile :: post; manifestSize := 0 |}.
Proof.
  intros Hne Hfiles Hfirst. unfold MustReplace.
  destruct oldFiles as [|old0 olds]; [done|].
  assert (Hfind : find_first (files fs) old0 0 = Returns (length pre)).
  { rewrite Hfiles. simpl. rewrite find_first_run; [done|].
    apply Hfirst. done. }
  rewrite Hfind.
  assert (Hchk : check_contiguous (files fs) (old0 :: olds) (length pre) 0
                   (old0 :: olds) = Returns tt).
  { apply check_contiguous_Returns. rewrite Nat.add_0_r, Hfiles.
    rewrite drop_app_length, take_app_length. done. }
  rewrite Hchk. do 2 f_equal.
  rewrite Hfiles at 1. rewrite take_app_length. f_equal. f_equal.
  rewrite Hfiles, app_assoc, <- length_app, drop_app_length. done.
Qed.

(** In a file set whose files are pairwise distinct, a run starts at the
    first and only index of its first file. *)
Lemma MustReplace_distinct_files fs pre oldFiles post (newFile : File) :
  NoDup (files fs) → oldFiles ≠ [] → files fs = pre ++ oldFiles ++ post →
  MustReplace fs oldFiles newFile =
    Returns {| levels := levels fs; sfile := None;
               files := pre ++ newFile :: post; manifestSize := 0 |}.
Proof.
  intros Hnd Hne Hfiles. apply MustReplace_run; [done|done|].
  intros o Ho Hin. rewrite Hfiles in Hnd.
  apply NoDup_app in Hnd as (_ & Hdisj & _).
  apply (Hdisj o Hin). destruct oldFiles as [|o' olds]; [done|].
  injection Ho as ->. apply elem_of_app. left. apply list_elem_of_here.
Qed.

Lemma Metric_loop_first (pre post : list File) (f : File) (name : Bytes) e :
  (∀ g, g ∈ pre → File_Metric g name = None) →
  File_Metric f name = Some e →
  Metric_loop (pre ++ f :: post) name =
    (if MetricElem.Deleted e then None else Some e, pre ++ [f]).
Proof.
  intros Hpre Hf. induction pre as [|a pre IH]; simpl.
  - rewrite Hf. destruct (MetricElem.Deleted e); done.
  - rewrite (Hpre a) by apply list_elem_of_here.
    rewrite IH; [done|]. intros g Hg. apply Hpre. by apply list_elem_of_further.
Qed.

Lemma Metric_loop_none (fl : list File) (name : Bytes) :
  (∀ g, g ∈ fl → File_Metric g name = None) →
  Metric_loop fl name = (None, fl).
Proof.
  intros Hfl. induction fl as [|a fl IH]; simpl; [done|].
  rewrite (Hfl a) by apply list_elem_of_here.
  rewrite IH; [done|]. intros g Hg. apply Hfl. by apply list_elem_of_further.
Qed.

(** ** [TagValueSeriesIDIterator] *)

Lemma remove_tombstones (ss : SeriesIDSet) (ftss : option SeriesIDSet) :
  match ftss with
  | Some t => if 0 <? SeriesIDSet_Cardinality t then SeriesIDSet_AndNot ss t else ss
  | None => ss
  end = ss ∖ set_or_empty ftss.
Proof.
  destruct ftss as [t|]; simpl; [|by rewrite difference_empty_L].
  destruct (0 <? SeriesIDSet_Cardinality t) eqn:Hc; [done|].
  apply Z.ltb_ge in Hc. unfold SeriesIDSet_Cardinality in Hc.
  assert (t = ∅) as -> by (apply leibniz_equiv, size_empty_inv; lia).
  by rewrite difference_empty_L.
Qed.

Lemma tag_value_series_loop_step name key value (f : File) rest ss ftss :
  no_error name key value f →
  tag_value_series_loop name key value (f :: rest) ss ftss =
    tag_value_series_loop name key value rest
      ((ss ∖ set_or_empty ftss) ∪ series_of name key value f)
      (fst (File_TombstoneSeriesIDSet f)).
Proof.
  intros [Hs Ht]. cbn [tag_value_series_loop]. rewrite remove_tombstones.
  unfold series_of.
  destruct (File_TagValueSeriesIDSet f name key value) as [fss e1].
  destruct (File_TombstoneSeriesIDSet f) as [t e2]. simpl in *. subst e1 e2.
  destruct fss as [s|]; simpl; [done|]. by rewrite union_empty_r_L.
Qed.

(** The last file of the loop: its series are merged after the tombstones
    of the file before it have been removed, and its own tombstones are
    fetched and not used. *)
Lemma tag_value_series_loop_last name key value (l : list File) (f : File)
    ss ftss :
  Forall (no_error name key value) (l ++ [f]) →
  ∃ R, tag_value_series_loop name key value l ss ftss = (Some R, None) ∧
       tag_value_series_loop name key value (l ++ [f]) ss ftss =
         (Some ((R ∖ match last l with
                     | Some g => tombstones_of g
                     | None => set_or_empty ftss
                     end) ∪ series_of name key value f), None).
Proof.
  revert ss ftss. induction l as [|a l IH]; intros ss ftss Hall.
  - exists ss. split; [reflexivity|]. simpl app.
    rewrite tag_value_series_loop_step; [reflexivity|].
    simpl in Hall. by inversion Hall.
  - inversion Hall as [|? ? Ha Hl]; subst. simpl app.
    rewrite !tag_value_series_loop_step by done.
    destruct (IH ((ss ∖ set_or_empty ftss) ∪ series_of name key value a)
                (fst (File_TombstoneSeriesIDSet a)) Hl) as (R & HR & Hlast).
    exists R. split; [done|]. rewrite Hlast. do 3 f_equal.
    destruct l as [|b l]; [reflexivity|].
    change (last (a :: b :: l)) with (last (b :: l)).
    destruct (last (b :: l)) eqn:Hb; [done|]. by apply last_None in Hb.
Qed.

(** The result on a file set, from the result on its older files. *)
Lemma TagValueSeriesIDIterator_newest fs fs' (f : File) rest name key value :
  files fs = f :: rest → files fs' = rest →
  Forall (no_error name key value) (f :: rest) →
  ∃ R, TagValueSeriesIDIterator fs' name key value = (Some R, None) ∧
       TagValueSeriesIDIterator fs name key value =
         (Some ((R ∖ match rest with
                     | g :: _ => tombstones_of g
                     | [] => ∅
                     end) ∪ series_of name key value f), None).
Proof.
  intros Hfs Hfs' Hall. unfold TagValueSeriesIDIterator.
  rewrite Hfs, Hfs'. simpl rev.
  destruct (tag_value_series_loop_last name key value (rev rest) f
              NewSeriesIDSet None) as (R & HR & Hlast).
  { apply Forall_app. split.
    - apply Forall_rev. by inversion Hall.
    - constructor; [by inversion Hall|constructor]. }
  exists R. split; [done|]. rewrite Hlast. do 3 f_equal.
  destruct rest as [|g rest]; [done|]. simpl rev. by rewrite last_snoc.
Qed.

(** ** The tag keys of a metric *)

Lemma collect_keys_fold (keep : Bytes → bool) (groups : list tagKeyMergeElem)
    (acc : gset string) (k : string) :
  k ∈ fold_left
        (λ (ss : gset string) (e : tagKeyMergeElem),
           if keep (tagKeyMergeElem_Key e)
           then {[ string_of_Bytes (tagKeyMergeElem_Key e) ]} ∪ ss
           else ss) groups acc ↔
  k ∈ acc ∨ ∃ g, g ∈ groups ∧ keep (tagKeyMergeElem_Key g) = true ∧
                 k = string_of_Bytes (tagKeyMergeElem_Key g).
Proof.
  revert acc. induction groups as [|g groups IH]; intros acc; simpl.
  - split; [by left|]. intros [?|(g & []%elem_of_nil & _)]. done.
  - rewrite IH. split.
    + intros [Hk|(g' & Hg' & Hkeep & ->)].
      * destruct (keep (tagKeyMergeElem_Key g)) eqn:Hkeep; [|by left].
        apply elem_of_union in Hk as [->%elem_of_singleton|Hk]; [|by left].
        right. exists g. split; [apply list_elem_of_here|done].
      * right. exists g'. split; [by apply list_elem_of_further|done].
    + intros [Hk|(g' & [->|Hg']%elem_of_cons & Hkeep & ->)].
      * left. destruct (keep (tagKeyMergeElem_Key g)); [|done].
        apply elem_of_union. by right.
      * left. rewrite Hkeep. apply elem_of_union. left.
        by apply elem_of_singleton.
      * right. by exists g'.
Qed.

(** The keys collected are the keys of the groups that the merged
    iterator returns before its nil. *)
Lemma collect_keys_elem (keep : Bytes → bool) (itr : option tagKeyMergeIterator)
    (k : string) :
  k ∈ collect_keys keep itr ↔
  ∃ it g, itr = Some it ∧ g ∈ merge_drain TagKeyElem.Key it ∧
          keep (tagKeyMergeElem_Key g) = true ∧
          k = string_of_Bytes (tagKeyMergeElem_Key g).
Proof.
  destruct itr as [it|]; simpl.
  - rewrite collect_keys_fold. split.
    + intros [[]%elem_of_empty|(g & Hg & Hkeep & ->)]. by exists it, g.
    + intros (it' & g & [= <-] & Hg & Hkeep & ->). right. by exists g.
  - split; [by intros []%elem_of_empty|]. by intros (it & g & [=] & _).
Qed.

(** When no file hands out a nil key, the keys of the groups are the keys
    of the elements of the files. *)
Lemma FileSet_TagKeyIterator_keys fs (name : Bytes) (k : string) :
  (∀ f itr e, f ∈ files fs → File_TagKeyIterator f name = Some itr → e ∈ itr →
              TagKeyElem.Key e ≠ None) →
  (∃ it g, FileSet_TagKeyIterator fs name = Some it ∧
           g ∈ merge_drain TagKeyElem.Key it ∧
           k = string_of_Bytes (tagKeyMergeElem_Key g)) ↔
  (∃ f itr e, f ∈ files fs ∧ File_TagKeyIterator f name = Some itr ∧ e ∈ itr ∧
              k = string_of_Bytes (TagKeyElem.Key e)).
Proof.
  intros Hnil. unfold FileSet_TagKeyIterator, MergeTagKeyIterators.
  set (srcs := omap (λ f, File_TagKeyIterator f name) (files fs)).
  assert (Hsrc : ∀ it e, MergeIterators srcs = Some it →
            (e ∈ remaining it ↔
             ∃ f itr, f ∈ files fs ∧ File_TagKeyIterator f name = Some itr ∧
                      e ∈ itr)).
  { intros it e Hit. unfold remaining.
    rewrite (pending_MergeIterators _ _ Hit), elem_of_concat. unfold srcs.
    split.
    - intros (itr & (f & Hf & Hitr)%list_elem_of_omap & He). by exists f, itr.
    - intros (f & itr & Hf & Hitr & He). exists itr. split; [|done].
      apply list_elem_of_omap. by exists f. }
  split.
  - intros (it & g & Hit & Hg & ->).
    unfold merge_drain in Hg.
    destruct g as [|e0 g]; [by apply merge_run_nonempty in Hg|].
    destruct (merge_run_sound _ _ _ _ e0 Hg (list_elem_of_here _ _)) as [He0 _].
    apply (Hsrc it e0 Hit) in He0 as (f & itr & Hf & Hitr & He).
    by exists f, itr, e0.
  - intros (f & itr & e & Hf & Hitr & He & ->).
    destruct (MergeIterators srcs) as [it|] eqn:Hit.
    + assert (Hrem : e ∈ remaining it) by (apply (Hsrc it e eq_refl); eauto).
      destruct (merge_drain_complete TagKeyElem.Key it) with (e := e)
        as (g & Hg & Heg); [|done|].
      { intros x (f' & itr' & Hf' & Hitr' & Hx)%(Hsrc it x eq_refl).
        by apply (Hnil f' itr' x). }
      exists it, g. split; [done|]. split; [done|].
      unfold merge_drain in Hg.
      destruct (merge_run_sound _ _ _ _ e Hg Heg) as [_ Hkey].
      unfold string_of_Bytes, tagKeyMergeElem_Key. by rewrite Hkey.
    + exfalso. destruct srcs as [|x srcs'] eqn:Hs; [|done].
      assert (Hin : itr ∈ srcs).
      { unfold srcs. apply list_elem_of_omap. by exists f. }
      rewrite Hs in Hin. by apply elem_of_nil in Hin.
Qed.

End FileSetFacts.

(* ================================================================== *)
(** * The properties of the specification *)
(* ================================================================== *)

Lemma filter_first_split {A : Type} (P : A → Prop) `{∀ x, Decision (P x)}
    (l : list A) (e : A) (rest : list A) :
  filter P l = e :: rest →
  ∃ pre post, l = pre ++ e :: post ∧ Forall (λ x, ¬ P x) pre ∧ P e ∧
              rest = filter P post.
Proof.
  induction l as [|a l IH]; [done|]. rewrite filter_cons.
  destruct (decide (P a)) as [Ha|Ha].
  - intros [= -> <-]. exists [], l. by repeat split.
  - intros (pre & post & -> & Hpre & He & ->)%IH.
    exists (a :: pre), post. repeat split; [by constructor|done].
Qed.

(** ** Merge precedence *)

(** C2.  A merged group takes its [Deleted()] from its first constituent,
    which is the buffered element of the first slot, in the order of the
    files, that holds the key of the group: what the slots after it hold for
    that key does not count.  A tsdb adapter that returns has dropped only
    groups whose [Deleted()] is true, and it returns either at the nil of
    the merged iterator or with the key of a group that is not deleted; on a
    merged iterator it always returns.  The three merge iterators and the
    three adapters are the instances of [merge_Next] and [adapter_Next] at
    [MetricElem.Name], [TagKeyElem.Key] and [TagValueElem.Value]. *)
Theorem C2_group_deleted_is_newest_constituent :
  ∀ (E : Type) (key : E → Bytes) (deleted : E → bool),
    (∀ (it : mergeIterator E) (g : list E) (it' : mergeIterator E),
       merge_Next key it = (Some g, it') →
       ∃ (newer : list E) (e : E) (older : list E),
         omap buf (map fill it) = newer ++ e :: older ∧
         Forall (λ x, Equal (key x) (key e) = false) newer ∧
         g = e :: filter (λ x, Equal (key x) (key e) = true) older ∧
         mergeElem_Deleted deleted g = deleted e) ∧
    (∀ (fuel : nat) (it : mergeIterator E) (r : Bytes) (it' : mergeIterator E),
       adapter_Next (merge_Next key) (mergeElem_key key)
         (mergeElem_Deleted deleted) fuel it = Some (r, it') →
       ∃ (skipped : list (list E)) (it_k : mergeIterator E),
         next_many (merge_Next key) (length skipped) it = Some (skipped, it_k) ∧
         Forall (λ g, mergeElem_Deleted deleted g = true) skipped ∧
         ((merge_Next key it_k = (None, it') ∧ r = None) ∨
          (∃ g, merge_Next key it_k = (Some g, it') ∧
                mergeElem_Deleted deleted g = false ∧
                r = mergeElem_key key g))) ∧
    (∀ it : mergeIterator E,
       ∃ (r : Bytes) (it' : mergeIterator E),
         adapter_Next (merge_Next key) (mergeElem_key key)
           (mergeElem_Deleted deleted) (S (length (remaining it))) it
         = Some (r, it')).
Proof.
  intros E key deleted. split; [|split].
  - intros it g it' HN.
    destruct (merge_Next_group key _ _ _ HN) as [Hne Hg].
    destruct g as [|e rest]; [done|]. simpl in Hg. symmetry in Hg.
    apply filter_first_split in Hg as (pre & post & Hsplit & Hpre & He & Hrest).
    exists pre, e, post. split; [done|]. split; [|by rewrite Hrest].
    eapply Forall_impl; [exact Hpre|]. intros x Hx.
    by apply not_true_is_false.
  - intros fuel it r it' Had. by apply adapter_Next_spec in Had.
  - intros it. apply adapter_Next_merge_total. lia.
Qed.

(** Over a whole iteration, on sources that are sorted and hand out no nil
    key: the element [e] of the newest source that has the key of [e] is
    returned as the first constituent of a group, and every group with that
    key has [e] first, so that it is deleted exactly when [e] is. *)
Corollary merged_group_follows_newest_file :
  ∀ (E : Type) (key : E → Bytes) (deleted : E → bool)
    (sources : list (list E)) (it : mergeIterator E),
    Forall (sorted_keys key) sources →
    (∀ l e, l ∈ sources → e ∈ l → key e ≠ None) →
    MergeIterators sources = Some it →
    ∀ (i : nat) (l : list E) (e : E),
      sources !! i = Some l → e ∈ l →
      (∀ (j : nat) (l' : list E) (x : E),
         (j < i)%nat → sources !! j = Some l' → x ∈ l' →
         content (key x) ≠ content (key e)) →
      (∃ g, g ∈ merge_drain key it ∧ head g = Some e) ∧
      (∀ (n : nat) (g : list E),
         g ∈ merge_run key n it →
         content (mergeElem_key key g) = content (key e) →
         head g = Some e ∧ mergeElem_Deleted deleted g = deleted e).
Proof.
  intros E key deleted sources it Hsorted Hnil Hit i l e Hi He Hnewer.
  pose proof (pending_MergeIterators _ _ Hit) as Hp.
  assert (Hrun : ∀ (n : nat) (g : list E),
            g ∈ merge_run key n it →
            content (mergeElem_key key g) = content (key e) →
            head g = Some e ∧ mergeElem_Deleted deleted g = deleted e).
  { intros n g Hg Hk.
    apply (merge_run_newest key deleted sources n it None Hsorted Hnil)
      with (i := i) (l := l); try done.
    simpl. by rewrite <- (map_id sources) in Hp. }
  split; [|exact Hrun].
  destruct (merge_drain_complete key it) with (e := e) as (g & Hg & Heg).
  - intros x (l' & Hl' & Hx)%elem_of_concat. rewrite Hp in Hl'.
    by apply (Hnil l' x).
  - apply elem_of_concat. exists l. split; [|done].
    rewrite Hp. by eapply list_elem_of_lookup_2.
  - exists g. split; [done|]. unfold merge_drain in Hg.
    destruct (merge_run_sound key _ _ _ _ Hg Heg) as [_ Hk].
    by apply (Hrun _ g Hg).
Qed.

(** ** Merge ordering *)

(** C3.  On sources that are each strictly increasing by key, the groups
    that [Next] returns, call after call, have strictly increasing keys
    under [bytes.Compare]: any two of them differ in their key.  Every
    group returned is not empty and holds, in the order of the files, all
    buffered elements whose key equals its own.  The sequence of groups
    ends: after them [Next] returns nil. *)
Theorem C3_merged_keys_strictly_increase :
  ∀ (E : Type) (key : E → Bytes) (sources : list (list E)) (it : mergeIterator E),
    Forall (StronglySorted (λ a b, key_lt (key a) (key b))) sources →
    MergeIterators sources = Some it →
    (∀ n : nat,
       StronglySorted
         (λ g1 g2, key_lt (mergeElem_key key g1) (mergeElem_key key g2))
         (merge_run key n it)) ∧
    (∀ (n : nat) (before : list (list E)) (it_n : mergeIterator E)
       (g : list E) (it' : mergeIterator E),
       next_many (merge_Next key) n it = Some (before, it_n) →
       merge_Next key it_n = (Some g, it') →
       g ≠ [] ∧
       g = filter (λ e, Equal (key e) (mergeElem_key key g) = true)
             (omap buf (map fill it_n))) ∧
    (∃ it_end it_end' : mergeIterator E,
       next_many (merge_Next key) (length (merge_drain key it)) it
         = Some (merge_drain key it, it_end) ∧
       merge_Next key it_end = (None, it_end')).
Proof.
  intros E key sources it Hsorted Hit. split; [|split].
  - intros n. apply (merge_run_sorted key n it None).
    + by rewrite (pending_MergeIterators _ _ Hit).
    + done.
  - intros n before it_n g it' _ HN. by apply merge_Next_group in HN.
  - apply merge_drain_ends.
Qed.

(** The sample iterator, run to its end. *)
Example metricMergeIterator_run :
  merge_run MetricElem.Name 5 MergeSample.start =
    [[MergeSample.cpu_deleted; MergeSample.cpu]; [MergeSample.disk]; [MergeSample.mem]].
Proof. vm_compute. reflexivity. Qed.

(** The adapter on it skips the deleted "cpu" and returns "disk". *)
Example tsdbMetricIteratorAdapter_skips_deleted :
  tsdbMetricIteratorAdapter_Next 3 MergeSample.start =
    Some (Sample.b "disk", MergeSample.after_disk).
Proof. vm_compute. reflexivity. Qed.

(** C2 on the first call of the sample iterator: the group of "cpu" is
    deleted with its first constituent. *)
Lemma C2_witness :
  merge_Next MetricElem.Name MergeSample.start
    = (Some [MergeSample.cpu_deleted; MergeSample.cpu], MergeSample.after_cpu) ∧
  ∃ (newer : list MetricElem.t) (e : MetricElem.t) (older : list MetricElem.t),
    omap buf (map fill MergeSample.start) = newer ++ e :: older ∧
    Forall (λ x, Equal (MetricElem.Name x) (MetricElem.Name e) = false) newer ∧
    [MergeSample.cpu_deleted; MergeSample.cpu]
      = e :: filter (λ x, Equal (MetricElem.Name x) (MetricElem.Name e) = true) older ∧
    mergeElem_Deleted MetricElem.Deleted [MergeSample.cpu_deleted; MergeSample.cpu]
      = MetricElem.Deleted e.
Proof.
  split; [reflexivity|].
  apply (proj1 (C2_group_deleted_is_newest_constituent
                  MetricElem.t MetricElem.Name MetricElem.Deleted)
           MergeSample.start _ MergeSample.after_cpu).
  reflexivity.
Defined.

(** C3 on the sample sources. *)
Lemma C3_witness :
  Forall (StronglySorted (λ a b, key_lt (MetricElem.Name a) (MetricElem.Name b)))
    MergeSample.sources ∧
  MergeIterators MergeSample.sources = Some MergeSample.start ∧
  StronglySorted
    (λ g1 g2, key_lt (mergeElem_key MetricElem.Name g1) (mergeElem_key MetricElem.Name g2))
    (merge_run MetricElem.Name 5 MergeSample.start).
Proof.
  assert (Hsorted : Forall (StronglySorted
            (λ a b, key_lt (MetricElem.Name a) (MetricElem.Name b)))
            MergeSample.sources).
  { repeat constructor. }
  split; [exact Hsorted|]. split; [reflexivity|].
  apply (proj1 (C3_merged_keys_strictly_increase MetricElem.t MetricElem.Name
                  MergeSample.sources MergeSample.start Hsorted eq_refl) 5%nat).
Defined.

(** ** Replacing files *)

Section FileSetClaims.
Context {File : Type} `{EqDecision File} `{FileMethods File}.
Context {CompactionLevel SeriesFile : Type}.
Implicit Types (fs : FileSet File CompactionLevel SeriesFile).

(** C4.  [MustReplace] panics, and so returns no file set and no error,
    when [oldFiles] is empty, when [oldFiles[0]] is not among the files,
    and when [oldFiles] is not a run of consecutive files of the file set
    in the same order. *)
Theorem C4_MustReplace_panics :
  ∀ fs (oldFiles : list File) (newFile : File),
    oldFiles = [] ∨
    (∃ o, head oldFiles = Some o ∧ o ∉ files fs) ∨
    (¬ ∃ pre post, files fs = pre ++ oldFiles ++ post) →
    ∃ p, MustReplace fs oldFiles newFile = Panics p.
Proof.
  intros fs oldFiles newFile Hbad.
  destruct (MustReplace fs oldFiles newFile) as [fs'|p] eqn:HR; [|by exists p].
  exfalso.
  apply MustReplace_Returns in HR as (pre & post & Hne & Hfiles & _ & _).
  destruct Hbad as [->|[(o & Ho & Hnin)|Hno]]; [done| |].
  - apply Hnin. rewrite Hfiles. destruct oldFiles as [|o' olds]; [done|].
    injection Ho as ->. apply elem_of_app. right. apply list_elem_of_here.
  - apply Hno. by exists pre, post.
Qed.

(** C5, as amended.  When [oldFiles] is not empty and is the run of the
    files of [fs] that starts at index [i], and [i] is the first index at
    which [oldFiles[0]] occurs, [MustReplace] returns the file set whose
    files are [fs.files[0:i] ++ [newFile] ++ fs.files[i+len(oldFiles):]]:
    the files before and after the run are the same references in the
    same order. *)
Theorem C5_MustReplace_replaces_first_run :
  ∀ fs (pre oldFiles post : list File) (newFile : File) (i : nat),
    oldFiles ≠ [] →
    files fs = pre ++ oldFiles ++ post → length pre = i →
    (∀ o, head oldFiles = Some o → o ∉ pre) →
    MustReplace fs oldFiles newFile =
      Returns {| levels := levels fs; sfile := None;
                 files := take i (files fs) ++ newFile ::
                            drop (i + length oldFiles) (files fs);
                 manifestSize := 0 |} ∧
    take i (files fs) = pre ∧
    drop (i + length oldFiles) (files fs) = post.
Proof.
  intros fs pre oldFiles post newFile i Hne Hfiles <- Hfirst.
  assert (Hpre : take (length pre) (files fs) = pre).
  { rewrite Hfiles. apply take_app_length. }
  assert (Hpost : drop (length pre + length oldFiles) (files fs) = post).
  { rewrite Hfiles, app_assoc, <- length_app. apply drop_app_length. }
  rewrite Hpre, Hpost. split; [|done]. by apply MustReplace_run.
Qed.

(** C10.  The file set that [MustReplace] returns has no series file and
    a zero manifest size, also when [fs] has a series file;
    [PrependLogFile] keeps the series file of [fs]. *)
Theorem C10_MustReplace_drops_series_file :
  ∀ fs (sf : SeriesFile) (oldFiles : list File) (newFile logFile : File) fs',
    sfile fs = Some sf →
    MustReplace fs oldFiles newFile = Returns fs' →
    FileSet_SeriesFile fs' = None ∧
    manifestSize fs' = 0 ∧
    FileSet_SeriesFile (PrependLogFile fs logFile) = Some sf.
Proof.
  intros fs sf oldFiles newFile logFile fs' Hsf HR.
  apply MustReplace_Returns in HR as (pre & post & _ & _ & _ & ->).
  by repeat split.
Qed.

(** ** Looking up a metric *)

(** C6.  [Metric] asks the files from the newest on.  At the first file
    that has the name it stops: it returns nil when the element found is
    deleted and the element otherwise, and it has asked no older file.
    When no file has the name it returns nil. *)
Theorem C6_Metric_first_match :
  ∀ fs (name : Bytes),
    (∀ (newer : list File) (f : File) (older : list File) (e : MetricElem.t),
       files fs = newer ++ f :: older →
       Forall (λ g, File_Metric g name = None) newer →
       File_Metric f name = Some e →
       FileSet_Metric fs name = (if MetricElem.Deleted e then None else Some e) ∧
       FileSet_Metric_consulted fs name = newer ++ [f]) ∧
    (Forall (λ g, File_Metric g name = None) (files fs) →
     FileSet_Metric fs name = None).
Proof.
  intros fs name. split.
  - intros newer f older e Hfiles Hnewer Hf.
    unfold FileSet_Metric, FileSet_Metric_consulted. rewrite Hfiles.
    rewrite (Metric_loop_first newer older f name e); [done| |done].
    by apply Forall_forall.
  - intros Hall. unfold FileSet_Metric.
    rewrite Metric_loop_none; [done|]. by apply Forall_forall.
Qed.
End FileSetClaims.

(** C4 on the files [[1; 2; 3]] and the old files [[1; 3]], which are not
    a run. *)
Lemma C4_witness :
  (¬ ∃ pre post : list nat, files (Sample.fileset [1; 2; 3]%nat) = pre ++ [1; 3]%nat ++ post) ∧
  ∃ p, @MustReplace nat Nat.eq_dec (Sample.methods (λ _, Sample.no_data)) unit unit
         (Sample.fileset [1; 2; 3]%nat) [1; 3]%nat 4%nat = Panics p.
Proof.
  assert (Hno : ¬ ∃ pre post : list nat,
            files (Sample.fileset [1; 2; 3]%nat) = pre ++ [1; 3]%nat ++ post).
  { intros (pre & post & Heq). simpl in Heq.
    destruct pre as [|a [|a' [|a'' pre]]]; simpl in Heq; try discriminate.
    destruct pre; discriminate. }
  split; [exact Hno|].
  apply (@C4_MustReplace_panics nat Nat.eq_dec (Sample.methods (λ _, Sample.no_data))
           unit unit (Sample.fileset [1; 2; 3]%nat) [1; 3]%nat 4%nat).
  right. right. exact Hno.
Defined.

(** The two ways in which the contiguity loop panics. *)
Example MustReplace_non_contiguous :
  @MustReplace nat Nat.eq_dec (Sample.methods (λ _, Sample.no_data)) unit unit
    (Sample.fileset [1; 2; 3]%nat) [1; 3]%nat 4%nat
  = Panics (NonContiguous [1; 3] [1; 2; 3]).
Proof. reflexivity. Qed.

Example MustReplace_no_files :
  @MustReplace nat Nat.eq_dec (Sample.methods (λ _, Sample.no_data)) unit unit
    (Sample.fileset []) [1]%nat 4%nat
  = Panics (IndexOutOfRange 0 0).
Proof. reflexivity. Qed.

(** C5 on the files [[1; 2; 3; 4]] and the run [[2; 3]] at index 1. *)
Lemma C5_witness :
  @MustReplace nat Nat.eq_dec (Sample.methods (λ _, Sample.no_data)) unit unit
    (Sample.fileset [1; 2; 3; 4]%nat) [2; 3]%nat 9%nat
  = Returns (Sample.fileset [1; 9; 4]%nat).
Proof.
  apply (proj1 (@C5_MustReplace_replaces_first_run nat Nat.eq_dec
                  (Sample.methods (λ _, Sample.no_data)) unit unit
                  (Sample.fileset [1; 2; 3; 4]%nat) [1]%nat [2; 3]%nat [4]%nat
                  9%nat 1%nat ltac:(discriminate) eq_refl eq_refl
                  ltac:(intros o [= <-] [[=]|[]%elem_of_nil]%elem_of_cons))).
Defined.

(** The claim C5 as it was stated fails on two inputs.  The run [[7]] starts
    at index 1 of the files [[7; 7]], and the file replaced is the one at
    index 0, where the file occurs first.  The empty list is a run at every
    index, and replacing it panics. *)
Lemma C5_counterexample :
  let fs := Sample.fileset [7; 7]%nat in
  let m := Sample.methods (λ _, Sample.no_data) in
  (files fs = [7]%nat ++ [7]%nat ++ [] ∧
   @MustReplace nat Nat.eq_dec m unit unit fs [7]%nat 9%nat = Returns (Sample.fileset [9; 7]%nat) ∧
   Sample.fileset [9; 7]%nat ≠
     Sample.fileset (take 1 (files fs) ++ 9%nat :: drop (1 + length [7]%nat) (files fs))) ∧
  (files fs = [] ++ [] ++ [7; 7]%nat ∧
   @MustReplace nat Nat.eq_dec m unit unit fs [] 9%nat
     = Panics (AssertFailed "assert failed: cannot replace empty files")).
Proof. repeat split; (reflexivity || discriminate). Qed.

(** C10 on a file set with a series file and a manifest size. *)
Lemma C10_witness :
  let fs : FileSet nat unit nat :=
    {| levels := []; sfile := Some 5%nat; files := [1; 2; 3]%nat; manifestSize := 64 |} in
  let m := Sample.methods (λ _, Sample.no_data) in
  ∃ fs', @MustReplace nat Nat.eq_dec m unit nat fs [2; 3]%nat 4%nat = Returns fs' ∧
         FileSet_SeriesFile fs' = None ∧ manifestSize fs' = 0 ∧
         FileSet_SeriesFile (PrependLogFile fs 0%nat) = Some 5%nat.
Proof.
  intros fs m.
  exists {| levels := []; sfile := None; files := [1; 4]%nat; manifestSize := 0 |}.
  split; [reflexivity|].
  apply (@C10_MustReplace_drops_series_file nat Nat.eq_dec m unit nat fs 5%nat
           [2; 3]%nat 4%nat 0%nat
           {| levels := []; sfile := None; files := [1; 4]%nat; manifestSize := 0 |}
           eq_refl eq_refl).
Defined.

(** C6 on three files: the first has no "cpu", the second has it deleted,
    the third is not asked. *)
Lemma C6_witness :
  let m := Sample.methods MetricSample.heap in
  let fs := Sample.fileset [0; 1; 2]%nat in
  @FileSet_Metric nat m unit unit fs (Sample.b "cpu") = None ∧
  @FileSet_Metric_consulted nat m unit unit fs (Sample.b "cpu") = [0; 1]%nat.
Proof.
  intros m fs.
  apply (proj1 (@C6_Metric_first_match nat m unit unit fs (Sample.b "cpu"))
           [0%nat] 1%nat [2%nat] MergeSample.cpu_deleted eq_refl).
  - repeat constructor.
  - reflexivity.
Defined.

(** ** Tag values under a merged tag key *)

Lemma until_tombstone_live (live : list TagKeyElem.t) (rest : tagKeyMergeElem) :
  Forall (λ x, TagKeyElem.Deleted x = false) live →
  until_tombstone (live ++ rest) =
    map TagKeyElem.TagValueIterator live ++ until_tombstone rest.
Proof.
  induction 1 as [|x live Hx Hlive IH]; [done|]. simpl. by rewrite Hx, IH.
Qed.

Lemma MergeIterators_pending {E : Type} (itrs : list (list E)) :
  itrs ≠ [] →
  ∃ it, MergeIterators itrs = Some it ∧ map pending it = itrs ∧
        Forall (λ s, buf s = None) it.
Proof.
  intros Hne. exists (map (Slot None) itrs). split; [by destruct itrs|]. split.
  - apply pending_MergeIterators. by destruct itrs.
  - by apply Forall_map, Forall_true.
Qed.

Lemma tagKeyMergeElem_TagValueIterator_cons (p : tagKeyMergeElem) :
  p ≠ [] →
  tagKeyMergeElem_TagValueIterator p = MergeIterators (until_tombstone p).
Proof. by destruct p. Qed.

(** C7.  The merged tag-value iterator of a merged tag key is built from the
    sub-iterators of its constituents in order, up to and with the first
    deleted one, or from all of them when none is deleted.  Every tag value
    it returns comes from one of these sub-iterators: what the constituents
    after the first deleted one hold is not reached. *)
Theorem C7_TagValueIterator_stops_at_tombstone :
  (∀ (live : list TagKeyElem.t) (e : TagKeyElem.t) (older : list TagKeyElem.t),
     Forall (λ x, TagKeyElem.Deleted x = false) live →
     TagKeyElem.Deleted e = true →
     ∃ it : tagValueMergeIterator,
       tagKeyMergeElem_TagValueIterator (live ++ e :: older) = Some it ∧
       map pending it = map TagKeyElem.TagValueIterator (live ++ [e]) ∧
       Forall (λ s, buf s = None) it ∧
       ∀ (n : nat) (g : tagValueMergeElem) (v : TagValueElem.t),
         g ∈ merge_run TagValueElem.Value n it → v ∈ g →
         ∃ x, x ∈ live ++ [e] ∧ v ∈ TagKeyElem.TagValueIterator x) ∧
  (∀ p : tagKeyMergeElem,
     p ≠ [] → Forall (λ x, TagKeyElem.Deleted x = false) p →
     ∃ it : tagValueMergeIterator,
       tagKeyMergeElem_TagValueIterator p = Some it ∧
       map pending it = map TagKeyElem.TagValueIterator p) ∧
  tagKeyMergeElem_TagValueIterator [] = None.
Proof.
  split; [|split; [|done]].
  - intros live e older Hlive He.
    assert (Hsrc : until_tombstone (live ++ e :: older) =
                   map TagKeyElem.TagValueIterator (live ++ [e])).
    { rewrite until_tombstone_live by done. simpl. by rewrite He, map_app. }
    destruct (MergeIterators_pending (until_tombstone (live ++ e :: older)))
      as (it & Hit & Hp & Hbuf).
    { rewrite Hsrc. by destruct live. }
    exists it. split; [|split; [by rewrite Hp|split; [done|]]].
    { rewrite tagKeyMergeElem_TagValueIterator_cons; [done|]. by destruct live. }
    intros n g v Hg Hv.
    destruct (merge_run_sound _ _ _ _ _ Hg Hv) as [Hrem _].
    unfold remaining in Hrem. rewrite Hp, Hsrc in Hrem.
    apply elem_of_concat in Hrem as (l & Hl & Hvl).
    apply list_elem_of_fmap in Hl as (x & -> & Hx). by exists x.
  - intros p Hne Hlive.
    assert (Hsrc : until_tombstone p = map TagKeyElem.TagValueIterator p).
    { rewrite <- (app_nil_r p) at 1. rewrite until_tombstone_live by done.
      simpl. by rewrite app_nil_r. }
    destruct (MergeIterators_pending (until_tombstone p)) as (it & Hit & Hp & _).
    { rewrite Hsrc. by destruct p. }
    exists it. split; [|by rewrite Hp].
    by rewrite tagKeyMergeElem_TagValueIterator_cons.
Qed.

(** The tag values under the sample tag key. *)
Example tagKeyMergeElem_TagValueIterator_run :
  option_map (merge_drain TagValueElem.Value)
    (tagKeyMergeElem_TagValueIterator
       [TagKeySample.newest; TagKeySample.second; TagKeySample.oldest])
  = Some [[TagKeySample.east]; [TagKeySample.west]].
Proof. vm_compute. reflexivity. Qed.

(** C7 on the sample tag key: the sub-iterator of the oldest file is left
    out. *)
Lemma C7_witness :
  ∃ it : tagValueMergeIterator,
    tagKeyMergeElem_TagValueIterator
      ([TagKeySample.newest] ++ TagKeySample.second :: [TagKeySample.oldest])
      = Some it ∧
    map pending it =
      map TagKeyElem.TagValueIterator ([TagKeySample.newest] ++ [TagKeySample.second]).
Proof.
  destruct (proj1 C7_TagValueIterator_stops_at_tombstone
              [TagKeySample.newest] TagKeySample.second [TagKeySample.oldest])
    as (it & Hit & Hp & _).
  - repeat constructor.
  - reflexivity.
  - exists it. by split.
Defined.

(** ** Predicate validation *)

(** C8.  When a binary expression with an operator other than [EQ], [NEQ],
    [EQREGEX], [NEQREGEX], [AND], [OR] occurs anywhere in the predicate,
    [newSeriesCursor] returns a nil cursor and the error of the validation,
    and has not called [indexSet.MetricIterator()], its only step outside
    its own memory.  When no such expression occurs, as in the nil
    predicate, validation lets construction go on: the cursor is built on
    the iterator of the request without any call, or on the result of
    [indexSet.MetricIterator()], whose error is the only one returned. *)
Theorem C8_newSeriesCursor_validates_operators :
  ∀ (M IS : Type) (indexSet_MetricIterator : IS → option M * option error)
    (req : @SeriesCursorRequest M) (indexSet : IS) (cond : cnosql.Expr),
    (has_invalid_operator cond →
     newSeriesCursor indexSet_MetricIterator req indexSet cond =
       ((None, Some "invalid tag comparison operator"%string), [])) ∧
    (¬ has_invalid_operator cond →
     newSeriesCursor indexSet_MetricIterator req indexSet cond =
       let cursor mitr :=
         {| cur_indexSet := indexSet; cur_mitr := mitr; cur_keys := [];
            cur_ofs := 0; cur_cond := cond |} in
       match Metrics req with
       | Some m => ((Some (cursor (Some m)), None), [])
       | None =>
           match indexSet_MetricIterator indexSet with
           | (_, Some e) => ((None, Some e), [CallMetricIterator indexSet])
           | (mitr, None) =>
               ((Some (cursor mitr), None), [CallMetricIterator indexSet])
           end
       end) ∧
    ¬ has_invalid_operator cnosql.NilExpr.
Proof.
  intros M IS imi req indexSet cond. split; [|split].
  - intros Hbad%invalid_in_spec. unfold newSeriesCursor.
    by rewrite WalkFunc_check_operator, Hbad.
  - intros Hok. unfold newSeriesCursor. rewrite WalkFunc_check_operator.
    destruct (invalid_in cond) eqn:Hc; [|done].
    by apply invalid_in_spec in Hc.
  - intros Hbad%invalid_in_spec. done.
Qed.

(** C8 on a predicate with [GT] inside parentheses on the right of an
    [AND]. *)
Lemma C8_witness :
  let cond :=
    cnosql.BinaryExpr cnosql.AND
      (cnosql.BinaryExpr cnosql.EQ (cnosql.VarRef "host") (cnosql.StringLiteral "a"))
      (cnosql.ParenExpr
         (cnosql.BinaryExpr cnosql.GT (cnosql.VarRef "load") (cnosql.IntegerLiteral 3))) in
  has_invalid_operator cond ∧
  @newSeriesCursor nat nat (λ ix, (Some ix, None)) {| Metrics := None |} 0%nat cond =
    ((None, Some "invalid tag comparison operator"%string), []).
Proof.
  intros cond.
  assert (Hbad : has_invalid_operator cond).
  { exists cnosql.GT, (cnosql.VarRef "load"), (cnosql.IntegerLiteral 3).
    split; [|reflexivity]. apply subexpr_RHS, subexpr_paren, subexpr_here. }
  split; [exact Hbad|].
  apply (proj1 (C8_newSeriesCursor_validates_operators nat nat
                  (λ ix, (Some ix, None)) {| Metrics := None |} 0%nat cond) Hbad).
Defined.

(** ** Tag keys by expression *)

Section TagKeysByExprClaims.
Import cnosql.
Context {File : Type} `{FileMethods File} {CompactionLevel SeriesFile : Type}.
Implicit Types (fs : FileSet File CompactionLevel SeriesFile).

Lemma MetricTagKeysByExpr_error_up fs (name : Bytes) (e expr : Expr) :
  reached e expr →
  (∃ err, MetricTagKeysByExpr fs name e = (None, Some err)) →
  ∃ err, MetricTagKeysByExpr fs name expr = (None, Some err).
Proof.
  induction 1 as [e|e l r _ IH|e l r _ IH|e l r _ IH|e l r _ IH|e e' _ IH];
    intros He; [done| | | | |by apply IH].
  - destruct (IH He) as [err Herr]. simpl. rewrite Herr. by exists err.
  - destruct (IH He) as [err Herr]. simpl. rewrite Herr.
    destruct (MetricTagKeysByExpr fs name l) as [? [err'|]]; by eauto.
  - destruct (IH He) as [err Herr]. simpl. rewrite Herr. by exists err.
  - destruct (IH He) as [err Herr]. simpl. rewrite Herr.
    destruct (MetricTagKeysByExpr fs name l) as [? [err'|]]; by eauto.
Qed.

(** C9, as amended.  A comparison whose left side is a tag reference other
    than "_tagKey" returns a nil set and a nil error.  A comparison whose
    left side is no tag reference returns an error, and so does a binary
    expression with an unsupported operator that evaluation reaches from
    the top through [AND], [OR] and parentheses.  The nil expression
    returns, with a nil error, the set of the keys that the merged tag-key
    iterator of the metric returns; these are the keys of the tag-key
    elements of all files when no file hands out a nil key. *)
Theorem C9_MetricTagKeysByExpr_results :
  ∀ fs (name : Bytes),
    (∀ (op : Token) (tag : string) (rhs : Expr),
       comparison op = true → tag ≠ "_tagKey"%string →
       MetricTagKeysByExpr fs name (BinaryExpr op (VarRef tag) rhs)
         = (None, None)) ∧
    (∀ (op : Token) (lhs rhs : Expr),
       comparison op = true → (∀ tag, lhs ≠ VarRef tag) →
       ∃ err, MetricTagKeysByExpr fs name (BinaryExpr op lhs rhs)
                = (None, Some err)) ∧
    (∀ (op : Token) (lhs rhs expr : Expr),
       allowed op = false → reached (BinaryExpr op lhs rhs) expr →
       ∃ err, MetricTagKeysByExpr fs name expr = (None, Some err)) ∧
    (∃ keys : gset string,
       MetricTagKeysByExpr fs name NilExpr = (Some keys, None) ∧
       (∀ k, k ∈ keys ↔
             ∃ it g, FileSet_TagKeyIterator fs name = Some it ∧
                     g ∈ merge_drain TagKeyElem.Key it ∧
                     k = string_of_Bytes (tagKeyMergeElem_Key g)) ∧
       ((∀ f itr e, f ∈ files fs → File_TagKeyIterator f name = Some itr →
                    e ∈ itr → TagKeyElem.Key e ≠ None) →
        ∀ k, k ∈ keys ↔
             ∃ f itr e, f ∈ files fs ∧ File_TagKeyIterator f name = Some itr ∧
                        e ∈ itr ∧ k = string_of_Bytes (TagKeyElem.Key e))).
Proof.
  intros fs name. split; [|split; [|split]].
  - intros op tag rhs Hop Htag. simpl.
    apply String.eqb_neq in Htag. rewrite Htag. by destruct op.
  - intros op lhs rhs Hop Hlhs.
    destruct op; try done; destruct lhs; simpl; try (by eauto);
      by (exfalso; eapply Hlhs).
  - intros op lhs rhs expr Hop Hreach.
    apply (MetricTagKeysByExpr_error_up fs name _ _ Hreach).
    exists "invalid operator"%string. by destruct op.
  - exists (collect_keys (λ _, true) (FileSet_TagKeyIterator fs name)).
    split; [done|].
    assert (Hkeys : ∀ k,
              k ∈ collect_keys (λ _, true) (FileSet_TagKeyIterator fs name) ↔
              ∃ it g, FileSet_TagKeyIterator fs name = Some it ∧
                      g ∈ merge_drain TagKeyElem.Key it ∧
                      k = string_of_Bytes (tagKeyMergeElem_Key g)).
    { intros k. rewrite collect_keys_elem. split.
      - intros (it & g & Hit & Hg & _ & Hk). by exists it, g.
      - intros (it & g & Hit & Hg & Hk). by exists it, g. }
    split; [exact Hkeys|].
    intros Hnil k. rewrite Hkeys. by apply FileSet_TagKeyIterator_keys.
Qed.
End TagKeysByExprClaims.

(** All tag keys, and those that are not "host". *)
Example MetricTagKeysByExpr_nil :
  @MetricTagKeysByExpr nat (Sample.methods TagKeysSample.heap) unit unit
    TagKeysSample.fs (Sample.b "cpu") cnosql.NilExpr
  = (Some {[ "host"%string; "region"%string ]}, None).
Proof. vm_compute. reflexivity. Qed.

Example MetricTagKeysByExpr_tagKey :
  @MetricTagKeysByExpr nat (Sample.methods TagKeysSample.heap) unit unit
    TagKeysSample.fs (Sample.b "cpu")
    (cnosql.BinaryExpr cnosql.NEQ (cnosql.VarRef "_tagKey") (cnosql.StringLiteral "host"))
  = (Some {[ "region"%string ]}, None).
Proof. vm_compute. reflexivity. Qed.

(** C9 on a regex comparison of the tag "host". *)
Lemma C9_witness :
  @MetricTagKeysByExpr nat (Sample.methods TagKeysSample.heap) unit unit
    TagKeysSample.fs (Sample.b "cpu")
    (cnosql.BinaryExpr cnosql.EQREGEX (cnosql.VarRef "host")
       (cnosql.RegexLiteral (λ _, true)))
  = (None, None).
Proof.
  apply (proj1 (@C9_MetricTagKeysByExpr_results nat
                  (Sample.methods TagKeysSample.heap) unit unit
                  TagKeysSample.fs (Sample.b "cpu"))
           cnosql.EQREGEX "host"%string (cnosql.RegexLiteral (λ _, true)) eq_refl).
  discriminate.
Defined.

(** The claim C9 as it was stated fails: a comparison on the tag "host"
    returns no error, and an unsupported operator below such a comparison
    returns no error either. *)
Lemma C9_counterexample :
  let m := Sample.methods TagKeysSample.heap in
  @MetricTagKeysByExpr nat m unit unit TagKeysSample.fs (Sample.b "cpu")
    (cnosql.BinaryExpr cnosql.EQ (cnosql.VarRef "host") (cnosql.StringLiteral "a"))
    = (None, None) ∧
  @MetricTagKeysByExpr nat m unit unit TagKeysSample.fs (Sample.b "cpu")
    (cnosql.BinaryExpr cnosql.EQ (cnosql.VarRef "host")
       (cnosql.BinaryExpr cnosql.LT (cnosql.VarRef "load") (cnosql.IntegerLiteral 3)))
    = (None, None).
Proof. split; reflexivity. Qed.

(** ** Tombstones of series under a tag value *)

(** C1, on the code.  On the files [[newer; older]] of the claim,
    [TagValueSeriesIDIterator] returns the set {1, 2, 3}: the tombstone set
    of the newest file is fetched in the last iteration of the loop, "to be
    processed on next file", and there is no next file. *)
Theorem C1_newest_tombstones_not_applied :
  @TagValueSeriesIDIterator nat (Sample.methods TombstoneSample.heap) unit unit
    TombstoneSample.fs (Sample.b "cpu") (Sample.b "host") (Sample.b "a")
  = (Some {[ 1%N; 2%N; 3%N ]}, None).
Proof. vm_compute. reflexivity. Qed.

(** With a third, newest file on top, the same tombstone is applied. *)
Example TagValueSeriesIDIterator_three_files :
  @TagValueSeriesIDIterator nat (Sample.methods TombstoneSample.heap) unit unit
    (Sample.fileset [2; 0; 1]%nat) (Sample.b "cpu") (Sample.b "host") (Sample.b "a")
  = (Some {[ 1%N; 3%N ]}, None).
Proof. vm_compute. reflexivity. Qed.

(* ================================================================== *)
(** * Further properties of the merge iterators *)
(* ================================================================== *)

Section MergeMore.
Context {E : Type} (key : E → Bytes).
Implicit Types (s : slot E) (it : mergeIterator E) (name : Bytes).
Implicit Types (l : list E) (P : list (list E)).

Lemma fill_fill s : fill (fill s) = fill s.
Proof. by destruct s as [[e|] [|x r]]. Qed.

Lemma merge_Next_None it it' :
  merge_Next key it = (None, it') →
  it' = map fill it ∧ scan key (map pending it) = None.
Proof.
  rewrite merge_Next_eq. destruct (scan key (map pending it)); [done|].
  by intros [= <-].
Qed.

Lemma taken_advance name l : taken key name l ++ advance key name l = l.
Proof. destruct l as [|e tl]; [done|]. simpl. by destruct (Equal (key e) name). Qed.

Lemma taken_advance_concat name P :
  concat (map (taken key name) P) ++ concat (map (advance key name) P) ≡ₚ concat P.
Proof.
  induction P as [|l P IH]; [done|]. simpl.
  rewrite <- (taken_advance name l) at 3.
  rewrite <- IH. rewrite <- !(assoc_L (++)). apply Permutation_app_head.
  rewrite !(assoc_L (++)). apply Permutation_app_tail. apply Permutation_app_comm.
Qed.

Lemma merge_Next_takes it g it' :
  merge_Next key it = (Some g, it') → g ++ remaining it' ≡ₚ remaining it.
Proof.
  intros HN. pose proof (merge_Next_pending key _ _ _ HN) as Hp.
  rewrite merge_Next_eq in HN. unfold remaining. rewrite Hp.
  destruct (scan key (map pending it)) as [n|]; [|done].
  injection HN as <- _. apply taken_advance_concat.
Qed.

Lemma merge_drain_permutation_aux (k : nat) it :
  (length (remaining it) < k)%nat →
  (∀ e, e ∈ remaining it → key e ≠ None) →
  concat (merge_drain key it) ≡ₚ remaining it.
Proof.
  revert it. induction k as [|k IH]; intros it Hlen Hnil; [lia|].
  rewrite merge_drain_unfold.
  destruct (merge_Next key it) as [[g|] it'] eqn:HN.
  - pose proof (merge_Next_length key _ _ _ HN) as [Hl Hne].
    pose proof (merge_Next_sound key _ _ _ HN) as [_ Hsub].
    simpl. rewrite IH.
    + by apply merge_Next_takes.
    + destruct g; [done|]. simpl in Hl. lia.
    + intros e He. apply Hnil. by apply Hsub.
  - apply merge_Next_None in HN as [_ Hscan]. simpl.
    unfold remaining.
    rewrite (scan_None_empty key (map pending it)); [done| |done].
    intros l e Hl He. apply Hnil. apply elem_of_concat. by exists l.
Qed.

End MergeMore.

(** ** The end of a merged iteration *)

(** X1.  The nil of a merge iterator is final: once [Next] has returned nil,
    every later call returns nil again and leaves the iterator as it is,
    with the same elements pending, and a tsdb adapter over it returns nil
    at its first inner call. *)
Theorem merge_Next_nil_is_final :
  ∀ (E : Type) (key : E → Bytes) (deleted : E → bool) (it it' : mergeIterator E),
    merge_Next key it = (None, it') →
    merge_Next key it' = (None, it') ∧
    remaining it' = remaining it ∧
    ∀ fuel : nat,
      adapter_Next (merge_Next key) (mergeElem_key key) (mergeElem_Deleted deleted)
        (S fuel) it' = Some (None, it').
Proof.
  intros E key deleted it it' HN.
  pose proof (merge_Next_None_pending key _ _ _ HN eq_refl) as Hrem.
  apply merge_Next_None in HN as [-> Hscan].
  assert (Hagain : merge_Next key (map fill it) = (None, map fill it)).
  { rewrite merge_Next_eq, !map_map.
    rewrite (map_ext (λ s, pending (fill s)) pending) by apply pending_fill.
    rewrite Hscan. f_equal. apply map_ext, fill_fill. }
  split; [exact Hagain|]. split; [exact Hrem|].
  intros fuel. simpl. by rewrite Hagain.
Qed.

(** X1 on the sample iterator after its three groups. *)
Lemma merge_Next_nil_is_final_witness :
  merge_Next MetricElem.Name [Slot None []; Slot None []]
    = (None, [Slot None []; Slot None []]) ∧
  merge_Next MetricElem.Name (@nil (slot MetricElem.t)) = (None, []).
Proof.
  split.
  - apply (merge_Next_nil_is_final MetricElem.t MetricElem.Name MetricElem.Deleted
             [Slot None []; Slot None []] [Slot None []; Slot None []] eq_refl).
  - apply (merge_Next_nil_is_final MetricElem.t MetricElem.Name MetricElem.Deleted
             [] [] eq_refl).
Defined.

(** ** Nothing lost, nothing twice *)

(** X2.  When no source hands out a nil key, the groups of a whole merged
    iteration hold every element of every source exactly once: put one after
    the other they are a permutation of the sources' elements, and all
    elements of one group have the key of the group under [bytes.Equal].
    The sources need not be sorted for this. *)
Theorem merged_groups_partition_sources :
  ∀ (E : Type) (key : E → Bytes) (sources : list (list E)) (it : mergeIterator E),
    (∀ l e, l ∈ sources → e ∈ l → key e ≠ None) →
    MergeIterators sources = Some it →
    concat (merge_drain key it) ≡ₚ concat sources ∧
    ∀ g e, g ∈ merge_drain key it → e ∈ g →
           Equal (key e) (mergeElem_key key g) = true.
Proof.
  intros E key sources it Hnil Hit.
  pose proof (pending_MergeIterators _ _ Hit) as Hp. split.
  - rewrite (merge_drain_permutation_aux key (S (length (remaining it)))).
    + unfold remaining. by rewrite Hp.
    + lia.
    + intros e (l & Hl & He)%elem_of_concat. rewrite Hp in Hl. by apply (Hnil l).
  - intros g e Hg He. apply Equal_true.
    by destruct (merge_run_sound key _ _ _ _ Hg He).
Qed.

(** X2 on the sample sources. *)
Lemma merged_groups_partition_sources_witness :
  concat (merge_drain MetricElem.Name MergeSample.start) ≡ₚ concat MergeSample.sources.
Proof.
  apply (merged_groups_partition_sources MetricElem.t MetricElem.Name
           MergeSample.sources MergeSample.start).
  - intros l e Hl He.
    repeat (apply elem_of_cons in Hl as [->|Hl];
            [repeat (apply elem_of_cons in He as [->|He]; [discriminate|]);
             by apply elem_of_nil in He|]).
    by apply elem_of_nil in Hl.
  - reflexivity.
Defined.

(** ** One source *)

Lemma merge_Next_single {E : Type} (key : E → Bytes) (e : E) (tl : list E) :
  merge_Next key [Slot None (e :: tl)] =
    match key e with
    | None => (None, [Slot (Some e) tl])
    | Some _ => (Some [e], [Slot None tl])
    end.
Proof.
  unfold merge_Next. simpl. destruct (key e) as [k|]; simpl; [|done].
  unfold Equal. by rewrite bool_decide_eq_true_2.
Qed.

Lemma merge_drain_single {E : Type} (key : E → Bytes) (front : list E) :
  Forall (λ e, key e ≠ None) front →
  merge_drain key [Slot None front] = map (λ e, [e]) front.
Proof.
  induction 1 as [|x front Hx _ IH]; [done|].
  rewrite merge_drain_unfold, merge_Next_single.
  destruct (key x); [|done]. simpl. by rewrite IH.
Qed.

Lemma merge_drain_single_nil {E : Type} (key : E → Bytes) (front : list E)
    (e : E) (behind : list E) :
  Forall (λ e, key e ≠ None) front → key e = None →
  merge_drain key [Slot None (front ++ e :: behind)] = map (λ e, [e]) front.
Proof.
  intros Hfront He. induction Hfront as [|x front Hx _ IH].
  - simpl. by rewrite merge_drain_unfold, merge_Next_single, He.
  - rewrite merge_drain_unfold. simpl. rewrite merge_Next_single.
    destruct (key x); [|done]. simpl. by rewrite IH.
Qed.

(** X3.  A merge over a single source returns the elements of that source
    one by one, in their order and each as a group of its own, whether the
    source is sorted or not; it stops for good at the first element whose
    key is nil, without returning it or anything behind it. *)
Theorem merge_of_one_source :
  ∀ (E : Type) (key : E → Bytes) (front : list E),
    Forall (λ e, key e ≠ None) front →
    (∀ it, MergeIterators [front] = Some it →
           merge_drain key it = map (λ e, [e]) front) ∧
    (∀ (e : E) (behind : list E) it,
       key e = None →
       MergeIterators [front ++ e :: behind] = Some it →
       merge_drain key it = map (λ e, [e]) front).
Proof.
  intros E key front Hfront. split.
  - intros it [= <-]. by apply merge_drain_single.
  - intros e behind it He [= <-]. by apply merge_drain_single_nil.
Qed.

(** X3 on a source that is not sorted and has a nil name in third place. *)
Lemma merge_of_one_source_witness :
  merge_drain MetricElem.Name
    [Slot None [MergeSample.mem; MergeSample.cpu;
                MetricElem.Make None false; MergeSample.disk]]
  = [[MergeSample.mem]; [MergeSample.cpu]].
Proof.
  apply (proj2 (merge_of_one_source MetricElem.t MetricElem.Name
                  [MergeSample.mem; MergeSample.cpu]
                  ltac:(repeat constructor; discriminate))
          (MetricElem.Make None false) [MergeSample.disk] _ eq_refl eq_refl).
Defined.

(** ** The tag values of a deleted tag key *)

(** X4.  When the newest constituent of a merged tag key is deleted, the
    tag-value iterator of the merged key is built on that constituent
    alone: it returns the tag values of the newest file one by one, in
    their order, and nothing of what the older files hold under the key. *)
Theorem TagValueIterator_of_deleted_key :
  ∀ (e : TagKeyElem.t) (older : list TagKeyElem.t),
    TagKeyElem.Deleted e = true →
    Forall (λ v, TagValueElem.Value v ≠ None) (TagKeyElem.TagValueIterator e) →
    ∃ it : tagValueMergeIterator,
      tagKeyMergeElem_TagValueIterator (e :: older) = Some it ∧
      merge_drain TagValueElem.Value it
      = map (λ v, [v]) (TagKeyElem.TagValueIterator e).
Proof.
  intros e older Hd Hvalues. unfold tagKeyMergeElem_TagValueIterator. simpl.
  rewrite Hd. eexists. split; [reflexivity|]. by apply merge_drain_single.
Qed.

(** X4 on the sample tag key with its deleted constituent in front. *)
Lemma TagValueIterator_of_deleted_key_witness :
  ∃ it : tagValueMergeIterator,
    tagKeyMergeElem_TagValueIterator [TagKeySample.second; TagKeySample.oldest] = Some it ∧
    merge_drain TagValueElem.Value it = [[TagKeySample.west]].
Proof.
  apply (TagValueIterator_of_deleted_key TagKeySample.second [TagKeySample.oldest] eq_refl).
  repeat constructor. discriminate.
Defined.

(* ================================================================== *)
(** * A whole iteration through a tsdb adapter *)
(* ================================================================== *)

Section AdapterRun.
Context {E : Type} (key : E → Bytes) (deleted : E → bool).
Implicit Types (it : mergeIterator E).

Lemma merge_Next_key_not_nil it g it' :
  (∀ e, e ∈ remaining it → key e ≠ None) →
  merge_Next key it = (Some g, it') →
  ∃ k, mergeElem_key key g = Some k.
Proof.
  intros Hnil HN. pose proof (merge_Next_length key _ _ _ HN) as [_ Hne].
  destruct (merge_Next_sound key _ _ _ HN) as [Hg _].
  destruct g as [|e g]; [done|]. simpl.
  destruct (Hg e (list_elem_of_here _ _)) as [He _].
  specialize (Hnil e He). destruct (key e) as [k|]; [by exists k|done].
Qed.

Lemma adapter_Next_live (fuel : nat) it :
  (length (remaining it) < fuel)%nat →
  (∀ e, e ∈ remaining it → key e ≠ None) →
  match filter (λ g, mergeElem_Deleted deleted g = false) (merge_drain key it) with
  | [] =>
      ∃ it', adapter_Next (merge_Next key) (mergeElem_key key)
               (mergeElem_Deleted deleted) fuel it = Some (None, it')
  | g :: rest =>
      ∃ k it',
        adapter_Next (merge_Next key) (mergeElem_key key)
          (mergeElem_Deleted deleted) fuel it = Some (Some k, it') ∧
        mergeElem_key key g = Some k ∧
        rest = filter (λ g, mergeElem_Deleted deleted g = false) (merge_drain key it') ∧
        (length (remaining it') < length (remaining it))%nat ∧
        (∀ e, e ∈ remaining it' → key e ≠ None)
  end.
Proof.
  revert it. induction fuel as [|fuel IH]; intros it Hlen Hnil; [lia|].
  rewrite merge_drain_unfold. simpl adapter_Next.
  destruct (merge_Next key it) as [[g|] it1] eqn:HN; [|by eexists].
  pose proof (merge_Next_length key _ _ _ HN) as [Hl Hne].
  pose proof (merge_Next_sound key _ _ _ HN) as [_ Hsub].
  assert (Hshorter : (length (remaining it1) < length (remaining it))%nat).
  { destruct g; [done|]. simpl in Hl. lia. }
  assert (Hnil1 : ∀ e, e ∈ remaining it1 → key e ≠ None).
  { intros e He. apply Hnil. by apply Hsub. }
  rewrite filter_cons.
  destruct (mergeElem_Deleted deleted g) eqn:Hd.
  - rewrite decide_False by done.
    specialize (IH it1 ltac:(lia) Hnil1).
    destruct (filter _ (merge_drain key it1)) as [|g' rest]; [done|].
    destruct IH as (k & it' & HA & Hk & Hrest & Hlen' & Hnil').
    exists k, it'. repeat split; try done. lia.
  - rewrite decide_True by done.
    destruct (merge_Next_key_not_nil it g it1 Hnil HN) as [k Hk].
    exists k, it1. by rewrite Hk.
Qed.

Lemma adapter_run_live (m : nat) :
  ∀ it (fuel n : nat),
    (length (remaining it) < m)%nat → (m ≤ fuel)%nat → (m ≤ n)%nat →
    (∀ e, e ∈ remaining it → key e ≠ None) →
    adapter_run (merge_Next key) (mergeElem_key key) (mergeElem_Deleted deleted)
      fuel n it
    = map (mergeElem_key key)
        (filter (λ g, mergeElem_Deleted deleted g = false) (merge_drain key it)).
Proof.
  induction m as [|m IH]; intros it fuel n Hlen Hfuel Hn Hnil; [lia|].
  destruct n as [|n]; [lia|]. simpl adapter_run.
  pose proof (adapter_Next_live fuel it ltac:(lia) Hnil) as Hstep.
  destruct (filter _ (merge_drain key it)) as [|g rest].
  - destruct Hstep as [it' ->]. done.
  - destruct Hstep as (k & it' & -> & Hk & -> & Hlen' & Hnil').
    simpl. rewrite Hk. f_equal. apply IH; try done; lia.
Qed.

Lemma StronglySorted_filter_map {A B : Type} (R : B → B → Prop) (f : A → B)
    (P : A → Prop) `{∀ x, Decision (P x)} (l : list A) :
  StronglySorted (λ a b, R (f a) (f b)) l →
  StronglySorted R (map f (filter P l)).
Proof.
  induction 1 as [|a l Hl IH Ha]; [constructor|].
  rewrite filter_cons. destruct (decide (P a)); [|done].
  simpl. constructor; [done|].
  apply Forall_map. apply Forall_forall. intros x Hx.
  apply list_elem_of_filter in Hx as [_ Hx].
  by rewrite Forall_forall in Ha; apply Ha.
Qed.

End AdapterRun.

(** X5.  What a tsdb adapter shows of a merged iteration.  When no source
    hands out a nil key, the keys that the adapter returns, call after
    call until its nil, are the keys of the groups of the merged iteration
    that are not deleted, in their order; a group that is deleted is never
    shown.  On sorted sources these keys increase strictly under
    [bytes.Compare]. *)
Theorem adapter_shows_live_keys :
  ∀ (E : Type) (key : E → Bytes) (deleted : E → bool)
    (sources : list (list E)) (it : mergeIterator E) (fuel n : nat),
    (∀ l e, l ∈ sources → e ∈ l → key e ≠ None) →
    MergeIterators sources = Some it →
    (length (concat sources) < fuel)%nat → (length (concat sources) < n)%nat →
    adapter_run (merge_Next key) (mergeElem_key key) (mergeElem_Deleted deleted)
      fuel n it
    = map (mergeElem_key key)
        (filter (λ g, mergeElem_Deleted deleted g = false) (merge_drain key it)) ∧
    (Forall (sorted_keys key) sources →
     StronglySorted key_lt
       (adapter_run (merge_Next key) (mergeElem_key key) (mergeElem_Deleted deleted)
          fuel n it)).
Proof.
  intros E key deleted sources it fuel n Hnil Hit Hfuel Hn.
  pose proof (pending_MergeIterators _ _ Hit) as Hp.
  assert (Hrem : remaining it = concat sources) by (unfold remaining; by rewrite Hp).
  assert (Hrun : adapter_run (merge_Next key) (mergeElem_key key)
                   (mergeElem_Deleted deleted) fuel n it
                 = map (mergeElem_key key)
                     (filter (λ g, mergeElem_Deleted deleted g = false)
                        (merge_drain key it))).
  { apply (adapter_run_live key deleted (S (length (concat sources)))).
    - rewrite Hrem. lia.
    - lia.
    - lia.
    - rewrite Hrem. intros e (l & Hl & He)%elem_of_concat. by apply (Hnil l). }
  split; [exact Hrun|]. intros Hsorted. rewrite Hrun.
  apply StronglySorted_filter_map.
  apply (merge_run_sorted key _ it None); [by rewrite Hp|done].
Qed.

(** X5 on the sample sources: "cpu" is deleted in the newer source. *)
Lemma adapter_shows_live_keys_witness :
  adapter_run (merge_Next MetricElem.Name) (mergeElem_key MetricElem.Name)
    (mergeElem_Deleted MetricElem.Deleted) 5 5 MergeSample.start
  = [Sample.b "disk"; Sample.b "mem"].
Proof.
  rewrite (proj1 (adapter_shows_live_keys MetricElem.t MetricElem.Name
                    MetricElem.Deleted MergeSample.sources MergeSample.start 5 5
                    ltac:(intros l e Hl He;
                          repeat (apply elem_of_cons in Hl as [->|Hl];
                                  [repeat (apply elem_of_cons in He as [->|He];
                                           [discriminate|]);
                                   by apply elem_of_nil in He|]);
                          by apply elem_of_nil in Hl)
                    eq_refl ltac:(simpl; lia) ltac:(simpl; lia))).
  reflexivity.
Defined.

(* ================================================================== *)
(** * Further properties of [MetricTagKeysByExpr] *)
(* ================================================================== *)

Section TagKeysByExprMore.
Import cnosql.
Context {File : Type} `{FileMethods File} {CompactionLevel SeriesFile : Type}.
Implicit Types (fs : FileSet File CompactionLevel SeriesFile).

(** A filter that looks at the bytes of a key only selects, among all keys
    of the metric, those whose bytes it accepts. *)
Lemma collect_keys_filter (keep : Bytes → bool) (itr : option tagKeyMergeIterator)
    (k : string) :
  (∀ a b : Bytes, content a = content b → keep a = keep b) →
  k ∈ collect_keys keep itr ↔
  k ∈ collect_keys (λ _, true) itr ∧ keep (Some (list_byte_of_string k)) = true.
Proof.
  intros Hkeep. rewrite !collect_keys_elem. split.
  - intros (it & g & Hit & Hg & Hk & ->). split; [by exists it, g|].
    rewrite <- Hk. apply Hkeep. simpl. unfold string_of_Bytes.
    by rewrite list_byte_of_string_of_list_byte.
  - intros [(it & g & Hit & Hg & _ & ->) Hk]. exists it, g.
    split; [done|]. split; [done|]. split; [|done].
    rewrite <- Hk. apply Hkeep. simpl. unfold string_of_Bytes.
    by rewrite list_byte_of_string_of_list_byte.
Qed.

Lemma matched_content (op : Token) (val : Bytes) (regex : option Regexp)
    (a b : Bytes) :
  content a = content b → matched op val regex a = matched op val regex b.
Proof.
  intros Hab. unfold matched, Equal. rewrite Hab. by destruct op.
Qed.

Lemma tagKeysByFilter_elem fs (name : Bytes) (op : Token) (val : Bytes)
    (regex : option Regexp) (k : string) :
  k ∈ tagKeysByFilter fs name op val regex ↔
  k ∈ collect_keys (λ _, true) (FileSet_TagKeyIterator fs name) ∧
  matched op val regex (Some (list_byte_of_string k)) = true.
Proof. apply collect_keys_filter, matched_content. Qed.

Lemma Equal_strings (k s : string) :
  Equal (Some (list_byte_of_string k)) (Bytes_of_string s) = true ↔ k = s.
Proof.
  rewrite Equal_true. simpl. split; [|by intros ->].
  intros Heq. by rewrite <- (string_of_list_byte_of_string k), Heq,
    string_of_list_byte_of_string.
Qed.

(** An error comes with a nil set. *)
Lemma MetricTagKeysByExpr_error fs (name : Bytes) (expr : Expr) r err :
  MetricTagKeysByExpr fs name expr = (r, Some err) → r = None.
Proof.
  revert r err.
  induction expr as [|op l IHl r' IHr|e IH| | | |]; intros r err; simpl;
    try (by intros [= <- _]).
  - destruct op; try (by intros [= <- _]).
    all: try (destruct l; try (by intros [= <- _]);
              destruct (negb _); try (by intros [= <- _]);
              destruct r'; by intros [= <- _]).
    all: destruct (MetricTagKeysByExpr fs name l) as [sl [el|]];
      try (by intros [= <- _]);
      destruct (MetricTagKeysByExpr fs name r') as [sr [er|]];
      try (by intros [= <- _]);
      destruct sl, sr; by intros [= <- _].
  - apply IH.
Qed.

(** X6.  Whatever the expression, the call returns a set or an error and
    never both, and a set it returns holds tag keys of the metric only: it
    is a subset of what the nil expression returns. *)
Theorem MetricTagKeysByExpr_within_all_keys :
  ∀ fs (name : Bytes) (expr : Expr) (r : option (gset string)) (err : option error),
    MetricTagKeysByExpr fs name expr = (r, err) →
    (err ≠ None → r = None) ∧
    ∀ s, r = Some s →
         ∃ all, MetricTagKeysByExpr fs name NilExpr = (Some all, None) ∧ s ⊆ all.
Proof.
  intros fs name expr r err HM. split.
  { destruct err as [e|]; [|done]. intros _.
    by apply MetricTagKeysByExpr_error in HM. }
  intros s ->. eexists. split; [reflexivity|].
  revert s err HM.
  induction expr as [|op l IHl r' IHr|e IH| | | |]; intros s err; simpl;
    try (by intros [= ]).
  - by intros [= <- _].
  - assert (Hleaf : ∀ val regex,
              tagKeysByFilter fs name op val regex ⊆
              collect_keys (λ _, true) (FileSet_TagKeyIterator fs name)).
    { intros val regex k Hk. by apply tagKeysByFilter_elem in Hk as [Hk _]. }
    destruct op; try (by intros [= ]).
    all: try (destruct l; try (by intros [= ]);
              destruct (negb _); try (by intros [= ]);
              destruct r'; try (by intros [= ]); intros Heq; inversion Heq;
              by apply Hleaf).
    all: destruct (MetricTagKeysByExpr fs name l) as [sl [el|]];
      try (by intros [= ]);
      destruct (MetricTagKeysByExpr fs name r') as [sr [er|]];
      try (by intros [= ]);
      destruct sl as [sl|], sr as [sr|];
      try (specialize (IHl sl None eq_refl)); try (specialize (IHr sr None eq_refl));
      intros Heq; inversion Heq; subst;
      unfold unionStringSets, intersectStringSets;
      first [ exact IHl | exact IHr | by apply union_least
            | by (etrans; [apply intersection_subseteq_l|]) ].
  - apply IH.
Qed.

(** X7.  The four comparisons on "_tagKey" in closed form, [all] being the
    keys that the nil expression returns: [=] keeps the one key equal to the
    string, if the metric has it; [!=] keeps all other keys; [=~] keeps the
    keys that the regular expression matches and [!~] those it does not
    match. *)
Theorem tagKey_comparisons :
  ∀ fs (name : Bytes) (s : string) (re : Regexp),
    let all := collect_keys (λ _, true) (FileSet_TagKeyIterator fs name) in
    let tagKey := VarRef "_tagKey" in
    MetricTagKeysByExpr fs name NilExpr = (Some all, None) ∧
    MetricTagKeysByExpr fs name (BinaryExpr EQ tagKey (StringLiteral s))
      = (Some (all ∩ {[ s ]}), None) ∧
    MetricTagKeysByExpr fs name (BinaryExpr NEQ tagKey (StringLiteral s))
      = (Some (all ∖ {[ s ]}), None) ∧
    MetricTagKeysByExpr fs name (BinaryExpr EQREGEX tagKey (RegexLiteral re))
      = (Some (filter (λ k, re (list_byte_of_string k) = true) all), None) ∧
    MetricTagKeysByExpr fs name (BinaryExpr NEQREGEX tagKey (RegexLiteral re))
      = (Some (filter (λ k, re (list_byte_of_string k) = false) all), None).
Proof.
  intros fs name s re all tagKey. split; [done|].
  repeat split; simpl; do 2 f_equal; apply set_eq; intros k;
    rewrite tagKeysByFilter_elem; fold all; simpl.
  - rewrite Equal_strings. set_solver.
  - rewrite negb_true_iff, <- not_true_iff_false, Equal_strings. set_solver.
  - rewrite elem_of_filter. tauto.
  - rewrite elem_of_filter, negb_true_iff. tauto.
Qed.

(** X8.  Under [AND] and under [OR] alike, a comparison on a tag other
    than "_tagKey" constrains nothing: the result is that of the other
    operand, errors included.  Both operators are symmetric in their
    operands unless both operands fail, in which case the error of the left
    one is returned. *)
Theorem MetricTagKeysByExpr_AND_OR :
  ∀ fs (name : Bytes) (op : Token),
    op = AND ∨ op = OR →
    (∀ (cmp : Token) (tag : string) (rhs e : Expr),
       comparison cmp = true → tag ≠ "_tagKey"%string →
       MetricTagKeysByExpr fs name (BinaryExpr op e (BinaryExpr cmp (VarRef tag) rhs))
         = MetricTagKeysByExpr fs name e ∧
       MetricTagKeysByExpr fs name (BinaryExpr op (BinaryExpr cmp (VarRef tag) rhs) e)
         = MetricTagKeysByExpr fs name e) ∧
    (∀ a b : Expr,
       snd (MetricTagKeysByExpr fs name a) = None ∨
       snd (MetricTagKeysByExpr fs name b) = None →
       MetricTagKeysByExpr fs name (BinaryExpr op a b)
         = MetricTagKeysByExpr fs name (BinaryExpr op b a)) ∧
    (∀ (a b : Expr) ra ea rb eb,
       MetricTagKeysByExpr fs name a = (ra, Some ea) →
       MetricTagKeysByExpr fs name b = (rb, Some eb) →
       MetricTagKeysByExpr fs name (BinaryExpr op a b) = (None, Some ea)).
Proof.
  intros fs name op Hop. split; [|split].
  - intros cmp tag rhs e Hcmp Htag.
    assert (Hn : MetricTagKeysByExpr fs name (BinaryExpr cmp (VarRef tag) rhs)
                 = (None, None)).
    { simpl. apply String.eqb_neq in Htag. rewrite Htag. by destruct cmp. }
    remember (BinaryExpr cmp (VarRef tag) rhs) as neutral eqn:Hneutral.
    clear Hneutral.
    destruct (MetricTagKeysByExpr fs name e) as [re [ee|]] eqn:He.
    + apply MetricTagKeysByExpr_error in He as Hre. subst re.
      destruct Hop as [-> | ->]; cbn [MetricTagKeysByExpr]; by rewrite Hn, He.
    + destruct Hop as [-> | ->]; cbn [MetricTagKeysByExpr]; rewrite Hn, He;
        by destruct re.
  - intros a b Hab.
    destruct (MetricTagKeysByExpr fs name a) as [ra [ea|]] eqn:Ha;
      destruct (MetricTagKeysByExpr fs name b) as [rb [eb|]] eqn:Hb.
    + by destruct Hab.
    + destruct Hop as [-> | ->]; cbn [MetricTagKeysByExpr]; by rewrite Ha, Hb.
    + destruct Hop as [-> | ->]; cbn [MetricTagKeysByExpr]; by rewrite Ha, Hb.
    + destruct Hop as [-> | ->]; cbn [MetricTagKeysByExpr]; rewrite Ha, Hb;
        destruct ra, rb; try done; unfold unionStringSets, intersectStringSets;
        first [ by rewrite (comm_L (∩)) | by rewrite (comm_L (∪)) ].
  - intros a b ra ea rb eb Ha Hb.
    destruct Hop as [-> | ->]; cbn [MetricTagKeysByExpr]; by rewrite Ha.
Qed.

End TagKeysByExprMore.

(** X6 on the sample file set: the keys other than "host". *)
Lemma MetricTagKeysByExpr_within_all_keys_witness :
  ∃ all,
    @MetricTagKeysByExpr nat (Sample.methods TagKeysSample.heap) unit unit
      TagKeysSample.fs (Sample.b "cpu") cnosql.NilExpr = (Some all, None) ∧
    ({[ "region"%string ]} : gset string) ⊆ all.
Proof.
  assert (HM : @MetricTagKeysByExpr nat (Sample.methods TagKeysSample.heap) unit unit
                 TagKeysSample.fs (Sample.b "cpu")
                 (cnosql.BinaryExpr cnosql.NEQ (cnosql.VarRef "_tagKey")
                    (cnosql.StringLiteral "host"))
               = (Some {[ "region"%string ]}, None)).
  { vm_compute. reflexivity. }
  apply (proj2 (@MetricTagKeysByExpr_within_all_keys nat
                  (Sample.methods TagKeysSample.heap) unit unit
                  TagKeysSample.fs (Sample.b "cpu") _ _ _ HM)
          {[ "region"%string ]} eq_refl).
Defined.

(** X8 on the sample file set: "host = 'a'" beside a comparison on
    "_tagKey", under [OR]. *)
Lemma MetricTagKeysByExpr_AND_OR_witness :
  let tagKey_is_region :=
    cnosql.BinaryExpr cnosql.EQ (cnosql.VarRef "_tagKey") (cnosql.StringLiteral "region") in
  let host_is_a :=
    cnosql.BinaryExpr cnosql.EQ (cnosql.VarRef "host") (cnosql.StringLiteral "a") in
  @MetricTagKeysByExpr nat (Sample.methods TagKeysSample.heap) unit unit
    TagKeysSample.fs (Sample.b "cpu") (cnosql.BinaryExpr cnosql.OR tagKey_is_region host_is_a)
  = @MetricTagKeysByExpr nat (Sample.methods TagKeysSample.heap) unit unit
      TagKeysSample.fs (Sample.b "cpu") tagKey_is_region.
Proof.
  intros tagKey_is_region host_is_a.
  apply (proj1 (@MetricTagKeysByExpr_AND_OR nat (Sample.methods TagKeysSample.heap)
                  unit unit TagKeysSample.fs (Sample.b "cpu") cnosql.OR
                  (or_intror eq_refl))
          cnosql.EQ "host"%string (cnosql.StringLiteral "a") tagKey_is_region eq_refl).
  discriminate.
Defined.

(* ================================================================== *)
(** * Further properties of the file set *)
(* ================================================================== *)

Section FileSetMoreFacts.
Context {File : Type} `{EqDecision File} `{FileMethods File}.
Context {CompactionLevel SeriesFile : Type}.
Implicit Types (fs : FileSet File CompactionLevel SeriesFile).
Implicit Types (pre post oldFiles : list File).

(** ** Which series a tag value has *)

Lemma tag_value_series_loop_error name key value (l : list File) ss ftss :
  Exists (λ f, ¬ no_error name key value f) l →
  ∃ err, tag_value_series_loop name key value l ss ftss = (None, Some err).
Proof.
  revert ss ftss. induction l as [|f rest IH]; intros ss ftss Hex.
  { by apply Exists_nil in Hex. }
  simpl.
  destruct (File_TagValueSeriesIDSet f name key value) as [fss [e1|]] eqn:H1;
    [by exists e1|].
  destruct (File_TombstoneSeriesIDSet f) as [t [e2|]] eqn:H2; [by exists e2|].
  apply IH. apply Exists_cons in Hex as [Hf|Hrest]; [|done].
  exfalso. apply Hf. unfold no_error. by rewrite H1, H2.
Qed.

Lemma last_rev_head {A : Type} (l : list A) : last (rev l) = head l.
Proof. destruct l as [|a l]; [done|]. simpl. apply last_snoc. Qed.

Lemma tag_value_series_closed_form name key value (fl : list File) :
  Forall (no_error name key value) fl →
  ∃ R, tag_value_series_loop name key value (rev fl) NewSeriesIDSet None
         = (Some R, None) ∧
       ∀ x, x ∈ R ↔
            ∃ (i : nat) (f : File),
              fl !! i = Some f ∧ x ∈ series_of name key value f ∧
              ∀ (j : nat) (g : File),
                (1 ≤ j ≤ i)%nat → fl !! j = Some g → x ∉ tombstones_of g.
Proof.
  induction fl as [|f rest IH]; intros Hok.
  { exists ∅. split; [done|]. intros x. split; [set_solver|].
    by intros (i & g & Hi & _). }
  apply Forall_cons in Hok as Hok'. destruct Hok' as [Hf Hrest].
  destruct (IH Hrest) as (R & HR & Hchar).
  destruct (tag_value_series_loop_last name key value (rev rest) f
              NewSeriesIDSet None) as (R' & HR' & Hstep).
  { apply Forall_app. split; [by apply Forall_rev|by apply Forall_singleton]. }
  rewrite HR in HR'. injection HR' as <-.
  simpl rev. eexists. split; [exact Hstep|].
  rewrite last_rev_head.
  intros x. rewrite elem_of_union, elem_of_difference, Hchar. split.
  - intros [[(i & g & Hi & Hx & Hts) Hhead]|Hx].
    + exists (S i), g. split; [done|]. split; [done|].
      intros j g' Hj Hg'. destruct j as [|[|j]]; [lia| |].
      * simpl in Hg'. destruct rest; [done|]. simpl in *. by injection Hg' as <-.
      * apply (Hts (S j) g'); [lia|done].
    + exists 0%nat, f. split; [done|]. split; [done|]. intros j g' Hj. lia.
  - intros (i & g & Hi & Hx & Hts). destruct i as [|i].
    + right. simpl in Hi. by injection Hi as <-.
    + left. split.
      * exists i, g. split; [done|]. split; [done|].
        intros j g' Hj Hg'. apply (Hts (S j) g'); [lia|done].
      * destruct rest as [|g0 rest']; [done|].
        simpl. apply (Hts 1%nat g0); [lia|done].
Qed.

(** X9.  When no file reports an error, a series is in the set that
    [TagValueSeriesIDIterator] returns exactly when some file has it under
    the tag value and neither that file, unless it is the newest, nor any
    file between it and the newest, the newest left out, has it in its
    tombstone set.  The tombstone set of the newest file decides nothing.
    When some file reports an error, the call returns nil and an error. *)
Theorem TagValueSeriesIDIterator_members :
  ∀ fs (name key value : Bytes),
    (Forall (no_error name key value) (files fs) →
     ∃ R, TagValueSeriesIDIterator fs name key value = (Some R, None) ∧
          ∀ x, x ∈ R ↔
               ∃ (i : nat) (f : File),
                 files fs !! i = Some f ∧ x ∈ series_of name key value f ∧
                 ∀ (j : nat) (g : File),
                   (1 ≤ j ≤ i)%nat → files fs !! j = Some g →
                   x ∉ tombstones_of g) ∧
    (Exists (λ f, ¬ no_error name key value f) (files fs) →
     ∃ err, TagValueSeriesIDIterator fs name key value = (None, Some err)).
Proof.
  intros fs name key value. split.
  - apply tag_value_series_closed_form.
  - intros Hex. apply tag_value_series_loop_error. by apply Exists_rev.
Qed.

(** ** Replacing and prepending *)

(** X10.  Prepending a file and replacing a run of files do not get in each
    other's way: when the file prepended is not the first of the old files,
    [MustReplace] on the longer file set returns exactly when it returns on
    the shorter one, and the result is the shorter result with the file
    prepended.  The returned file set has [len(oldFiles) - 1] files fewer,
    and it has no file twice when [fs] has none twice and the new file is
    not one of the files that stay. *)
Theorem MustReplace_and_PrependLogFile :
  ∀ fs (oldFiles : list File) (newFile logFile : File),
    head oldFiles ≠ Some logFile →
    (∀ fs', MustReplace fs oldFiles newFile = Returns fs' →
            MustReplace (PrependLogFile fs logFile) oldFiles newFile
              = Returns (PrependLogFile fs' logFile) ∧
            (length (files fs') + length oldFiles = length (files fs) + 1)%nat ∧
            (NoDup (files fs) → (newFile ∈ files fs → newFile ∈ oldFiles) →
             NoDup (files fs'))) ∧
    (∀ p, MustReplace fs oldFiles newFile = Panics p →
          ∃ p', MustReplace (PrependLogFile fs logFile) oldFiles newFile = Panics p').
Proof.
  intros fs oldFiles newFile logFile Hhead. split.
  - intros fs' HR.
    apply MustReplace_Returns in HR as (pre & post & Hne & Hfiles & Hfirst & ->).
    split; [|split].
    + rewrite (MustReplace_run (PrependLogFile fs logFile) (logFile :: pre)
                 oldFiles post newFile); [done|done|by simpl; rewrite Hfiles|].
      intros o Ho [->|Hin]%elem_of_cons; [done|]. by apply (Hfirst o).
    + simpl. rewrite Hfiles, !length_app. simpl. lia.
    + simpl. rewrite Hfiles. intros Hnd Hnew.
      apply NoDup_app in Hnd as (Hpre & Hdisj & Hrest).
      apply NoDup_app in Hrest as (Hold & Hdisj' & Hpost).
      apply NoDup_app. split; [done|]. split.
      * intros x Hx [->|Hin]%elem_of_cons.
        -- apply (Hdisj newFile Hx). apply elem_of_app. left. apply Hnew.
           apply elem_of_app. by left.
        -- apply (Hdisj x Hx). apply elem_of_app. by right.
      * apply NoDup_cons. split; [|done]. intros Hin.
        apply (Hdisj' newFile); [|done]. apply Hnew.
        rewrite !elem_of_app. by right; right.
  - intros p HP.
    destruct (MustReplace (PrependLogFile fs logFile) oldFiles newFile)
      as [fs''|p'] eqn:HR; [|by exists p'].
    exfalso.
    apply MustReplace_Returns in HR as (pre & post & Hne & Hfiles & Hfirst & _).
    simpl in Hfiles. destruct pre as [|x pre].
    + destruct oldFiles as [|o olds]; [done|]. simpl in Hfiles.
      injection Hfiles as -> _. done.
    + injection Hfiles as <- Hfiles.
      rewrite (MustReplace_run fs pre oldFiles post newFile) in HP; [done..|].
      intros o Ho Hin. apply (Hfirst o Ho). by apply elem_of_cons; right.
Qed.

End FileSetMoreFacts.

(** X9 on three files: series 2 is under the tag value in the oldest file
    and in the tombstone set of the file in the middle. *)
Lemma TagValueSeriesIDIterator_members_witness :
  ∃ R, @TagValueSeriesIDIterator nat (Sample.methods TombstoneSample.heap) unit unit
         (Sample.fileset [2; 0; 1]%nat) (Sample.b "cpu") (Sample.b "host") (Sample.b "a")
       = (Some R, None) ∧ (2%N ∉ R) ∧ 1%N ∈ R.
Proof.
  destruct (proj1 (@TagValueSeriesIDIterator_members nat
                     (Sample.methods TombstoneSample.heap) unit unit
                     (Sample.fileset [2; 0; 1]%nat)
                     (Sample.b "cpu") (Sample.b "host") (Sample.b "a")))
    as (R & HR & Hchar).
  { repeat constructor. }
  exists R. split; [exact HR|]. split.
  - rewrite Hchar. intros (i & f & Hi & Hx & Hts).
    destruct i as [|[|[|i]]]; simpl in Hi; try discriminate;
      injection Hi as <-; try (by vm_compute in Hx).
    apply (Hts 1%nat 0%nat); [lia|done|]. by vm_compute.
  - rewrite Hchar. exists 2%nat, 1%nat. split; [done|]. split; [by vm_compute|].
    intros j g Hj Hg. destruct j as [|[|[|j]]]; simpl in Hg; try lia;
      injection Hg as <-; by vm_compute.
Defined.

(** X10 on the files [[1; 2; 3]] with the run [[2; 3]] replaced and the file 0
    prepended. *)
Lemma MustReplace_and_PrependLogFile_witness :
  @MustReplace nat Nat.eq_dec (Sample.methods (λ _, Sample.no_data)) unit unit
    (PrependLogFile (Sample.fileset [1; 2; 3]%nat) 0%nat) [2; 3]%nat 4%nat
  = Returns (PrependLogFile (Sample.fileset [1; 4]%nat) 0%nat).
Proof.
  apply (proj1 (@MustReplace_and_PrependLogFile nat Nat.eq_dec
                  (Sample.methods (λ _, Sample.no_data)) unit unit
                  (Sample.fileset [1; 2; 3]%nat) [2; 3]%nat 4%nat 0%nat
                  ltac:(discriminate))
          (Sample.fileset [1; 4]%nat) eq_refl).
Defined.

(* ================================================================== *)
(** * The other methods of the file set *)
(* ================================================================== *)

Lemma wrap64_range (z : Z) : - 2 ^ 63 ≤ wrap64 z < 2 ^ 63.
Proof. unfold wrap64. pose proof (Z.mod_pos_bound (z + 2 ^ 63) (2 ^ 64)). lia. Qed.

Lemma wrap64_small (z : Z) : - 2 ^ 63 ≤ z < 2 ^ 63 → wrap64 z = z.
Proof. intros Hz. unfold wrap64. rewrite Z.mod_small; lia. Qed.

Lemma wrap64_add_l (a b : Z) : wrap64 (wrap64 a + b) = wrap64 (a + b).
Proof.
  unfold wrap64.
  replace ((a + 2 ^ 63) mod 2 ^ 64 - 2 ^ 63 + b + 2 ^ 63)
    with ((a + 2 ^ 63) mod 2 ^ 64 + b) by lia.
  rewrite Zplus_mod_idemp_l. f_equal. f_equal. lia.
Qed.

Lemma wrap64_idemp (a : Z) : wrap64 (wrap64 a) = wrap64 a.
Proof. apply wrap64_small, wrap64_range. Qed.

Section FileSetOtherFacts.
Context {File : Type} `{EqDecision File} `{FileMethods File} `{OtherFileMethods File}.
Context {CompactionLevel SeriesFile : Type}.
Implicit Types (fs : FileSet File CompactionLevel SeriesFile).

(** ** Closing *)

Lemma Close_loop_closed (fl : list File) (err : option error) :
  snd (Close_loop fl err) = fl.
Proof.
  revert err. induction fl as [|f rest IH]; intros err; [done|]. simpl.
  specialize (IH (match File_Close f, err with Some _, None => File_Close f | _, _ => err end)).
  destruct (Close_loop rest _). simpl in *. by rewrite IH.
Qed.

Lemma Close_loop_kept (fl : list File) (e : error) :
  fst (Close_loop fl (Some e)) = Some e.
Proof.
  induction fl as [|f rest IH]; [done|]. simpl.
  replace (match File_Close f with Some _ => Some e | None => Some e end)
    with (Some e) by (by destruct (File_Close f)).
  destruct (Close_loop rest (Some e)). done.
Qed.

Lemma Close_loop_first (ok rest : list File) (f : File) (e : error) :
  Forall (λ g, File_Close g = None) ok → File_Close f = Some e →
  fst (Close_loop (ok ++ f :: rest) None) = Some e.
Proof.
  induction 1 as [|g ok Hg _ IH]; intros Hf; simpl.
  - rewrite Hf. pose proof (Close_loop_kept rest e) as Hk.
    destruct (Close_loop rest (Some e)). done.
  - rewrite Hg. specialize (IH Hf).
    destruct (Close_loop (ok ++ f :: rest) None). done.
Qed.

Lemma Close_loop_none (fl : list File) :
  Forall (λ g, File_Close g = None) fl → fst (Close_loop fl None) = None.
Proof.
  induction 1 as [|g ok Hg _ IH]; [done|]. simpl. rewrite Hg.
  destruct (Close_loop ok None). done.
Qed.

(** X11.  [Close] calls [Close] on every file of the set, once and in the
    order of the files, also after a file has failed to close; it returns
    the error of the first file that failed, and nil when none did. *)
Theorem FileSet_Close_closes_every_file :
  ∀ fs,
    snd (FileSet_Close fs) = files fs ∧
    (Forall (λ g, File_Close g = None) (files fs) → fst (FileSet_Close fs) = None) ∧
    (∀ (ok : list File) (f : File) (rest : list File) (e : error),
       files fs = ok ++ f :: rest →
       Forall (λ g, File_Close g = None) ok → File_Close f = Some e →
       fst (FileSet_Close fs) = Some e).
Proof.
  intros fs. unfold FileSet_Close. split; [apply Close_loop_closed|]. split.
  - apply Close_loop_none.
  - intros ok f rest e -> Hok Hf. by apply Close_loop_first.
Qed.

(** ** Reference counts *)

Lemma ref_delta_app (f : File) (t1 t2 : list (ref_event File)) :
  ref_delta f (t1 ++ t2) = ref_delta f t1 + ref_delta f t2.
Proof.
  induction t1 as [|ev t1 IH]; [done|]. simpl. rewrite IH.
  destruct ev as [g|g]; destruct (decide (g = f)); lia.
Qed.

Lemma ref_delta_Retain_Release (f : File) (fl : list File) :
  ref_delta f (map Retained fl) + ref_delta f (map Released fl) = 0.
Proof.
  induction fl as [|g fl IH]; [done|]. simpl. destruct (decide (g = f)); lia.
Qed.

Lemma Close_times_closed {I : Type} (close : I → option error * I) (n : nat)
    (it : fileSetIterator File CompactionLevel SeriesFile I) :
  fsi_once it = true →
  ∃ errs it', Close_times close n it = (errs, [], it') ∧ length errs = n ∧
              fsi_once it' = true ∧ fsi_fs it' = fsi_fs it.
Proof.
  revert it. induction n as [|n IH]; intros it Honce; simpl.
  { by exists [], it. }
  unfold fileSetIterator_Close. rewrite Honce.
  destruct (close (fsi_itr it)) as [err i'].
  destruct (IH {| fsi_once := true; fsi_fs := fsi_fs it; fsi_itr := i' |} eq_refl)
    as (errs & it' & -> & Hlen & Ho & Hfs).
  exists (err :: errs), it'. simpl. by rewrite Hlen.
Qed.

(** X12.  However often [Close] is called on an iterator that wraps a
    file set, and whatever the wrapped iterator answers, the file set is
    released exactly once, by the first call: after [Retain] on the file
    set, the calls leave the reference count of every file where it was.
    Every call closes the wrapped iterator and returns an error of its own.
    A nil series iterator is not wrapped: the file set is released at
    once. *)
Theorem fileSetIterator_Close_releases_once :
  ∀ fs (I : Type) (close : I → option error * I) (itr : I) (n : nat),
    (∃ errs it',
       Close_times close (S n) (newFileSetIterator fs itr)
         = (errs, FileSet_Release fs, it') ∧
       length errs = S n ∧ fsi_once it' = true) ∧
    (∀ f : File, ref_delta f (FileSet_Retain fs ++ FileSet_Release fs) = 0) ∧
    newFileSetSeriesIDIterator fs (Some itr) = (Some (newFileSetIterator fs itr), []) ∧
    newFileSetSeriesIDIterator fs (@None I) = (None, FileSet_Release fs).
Proof.
  intros fs I close itr n. split; [|split; [|done]].
  - simpl. unfold fileSetIterator_Close. simpl.
    destruct (close itr) as [err i'].
    destruct (Close_times_closed close n
                {| fsi_once := true; fsi_fs := fs; fsi_itr := i' |} eq_refl)
      as (errs & it' & -> & Hlen & Ho & _).
    exists (err :: errs), it'. simpl. by rewrite app_nil_r, Hlen.
  - intros f. rewrite ref_delta_app. apply ref_delta_Retain_Release.
Qed.

(** ** Size *)

Lemma total_size_app (l1 l2 : list File) :
  total_size (l1 ++ l2) = total_size l1 + total_size l2.
Proof. induction l1 as [|f l1 IH]; simpl; [done|]. rewrite IH. lia. Qed.

Lemma Size_loop (fl : list File) (t0 : Z) :
  wrap64 (fold_left (λ total f, wrap64 (total + File_Size f)) fl t0)
  = wrap64 (t0 + total_size fl).
Proof.
  revert t0. induction fl as [|f fl IH]; intros t0; simpl.
  - f_equal. lia.
  - rewrite IH, wrap64_add_l. f_equal. lia.
Qed.

Lemma FileSet_Size_eq fs :
  FileSet_Size fs = wrap64 (total_size (files fs) + manifestSize fs).
Proof.
  unfold FileSet_Size. rewrite <- wrap64_add_l, Size_loop, wrap64_add_l.
  f_equal.
Qed.

(** X13.  [Size] is the sum of the sizes of the files and of the manifest
    size, taken in [int64].  A file set made by [PrependLogFile] or by
    [MustReplace] does not count the manifest of the file set it was made
    from: its size is the old size without the manifest size, plus the size
    of the file that came in, minus the sizes of the files that went out. *)
Theorem FileSet_Size_after_change :
  ∀ fs,
    FileSet_Size fs = wrap64 (total_size (files fs) + manifestSize fs) ∧
    (∀ f : File,
       FileSet_Size (PrependLogFile fs f)
       = wrap64 (FileSet_Size fs - manifestSize fs + File_Size f)) ∧
    (∀ (oldFiles : list File) (newFile : File) fs',
       MustReplace fs oldFiles newFile = Returns fs' →
       FileSet_Size fs'
       = wrap64 (FileSet_Size fs - manifestSize fs
                 - total_size oldFiles + File_Size newFile)).
Proof.
  intros fs. split; [apply FileSet_Size_eq|]. split.
  - intros f. rewrite !FileSet_Size_eq. simpl.
    replace (wrap64 (total_size (files fs) + manifestSize fs) - manifestSize fs
             + File_Size f)
      with (wrap64 (total_size (files fs) + manifestSize fs)
            + (File_Size f - manifestSize fs)) by lia.
    rewrite wrap64_add_l. f_equal. lia.
  - intros oldFiles newFile fs' HR.
    apply MustReplace_Returns in HR as (pre & post & _ & Hfiles & _ & ->).
    rewrite !FileSet_Size_eq, Hfiles. simpl.
    replace (wrap64 (total_size (pre ++ oldFiles ++ post) + manifestSize fs)
             - manifestSize fs - total_size oldFiles + File_Size newFile)
      with (wrap64 (total_size (pre ++ oldFiles ++ post) + manifestSize fs)
            + (File_Size newFile - manifestSize fs - total_size oldFiles)) by lia.
    rewrite wrap64_add_l, !total_size_app. simpl. f_equal. lia.
Qed.

(** ** The highest identifier *)

Lemma MaxID_loop (fl : list File) (m0 : Z) :
  let m := fold_left (λ max f, if max <? File_ID f then File_ID f else max) fl m0 in
  m0 ≤ m ∧ Forall (λ f, File_ID f ≤ m) fl ∧
  (m = m0 ∨ ∃ f, f ∈ fl ∧ File_ID f = m).
Proof.
  revert m0. induction fl as [|f fl IH]; intros m0; simpl.
  { split; [lia|]. split; [constructor|by left]. }
  destruct (IH (if m0 <? File_ID f then File_ID f else m0)) as (Hle & Hall & Hatt).
  set (m := fold_left _ fl _) in *.
  destruct (Z.ltb_spec m0 (File_ID f)) as [Hlt|Hge].
  - split; [lia|]. split; [constructor; [lia|done]|].
    right. destruct Hatt as [->|(g & Hg & Hid)].
    + exists f. split; [apply list_elem_of_here|done].
    + exists g. split; [by apply list_elem_of_further|done].
  - split; [lia|]. split; [constructor; [lia|done]|].
    destruct Hatt as [->|(g & Hg & Hid)]; [by left|].
    right. exists g. split; [by apply list_elem_of_further|done].
Qed.

Lemma MaxID_loop_max (fl : list File) (a b : Z) :
  fold_left (λ max f, if max <? File_ID f then File_ID f else max) fl (Z.max a b)
  = Z.max a (fold_left (λ max f, if max <? File_ID f then File_ID f else max) fl b).
Proof.
  revert b. induction fl as [|f fl IH]; intros b; simpl; [done|].
  rewrite <- IH. f_equal.
  destruct (Z.ltb_spec (Z.max a b) (File_ID f)), (Z.ltb_spec b (File_ID f)); lia.
Qed.

(** X14.  [MaxID] is zero or the identifier of a file of the set; it is
    not negative and no file of the set has a higher identifier, so that it
    is zero for the empty set and when no identifier is positive.  After
    [PrependLogFile] it is the higher of the old value and the identifier
    of the new file. *)
Theorem FileSet_MaxID_is_highest :
  ∀ fs,
    0 ≤ FileSet_MaxID fs ∧
    Forall (λ f, File_ID f ≤ FileSet_MaxID fs) (files fs) ∧
    (FileSet_MaxID fs = 0 ∨ ∃ f, f ∈ files fs ∧ File_ID f = FileSet_MaxID fs) ∧
    (∀ f : File,
       FileSet_MaxID (PrependLogFile fs f) = Z.max (File_ID f) (FileSet_MaxID fs)).
Proof.
  intros fs. destruct (MaxID_loop (files fs) 0) as (Hnn & Hall & Hatt).
  split; [exact Hnn|]. split; [exact Hall|]. split; [exact Hatt|].
  intros f. unfold FileSet_MaxID. simpl. rewrite <- MaxID_loop_max. f_equal.
  destruct (Z.ltb_spec 0 (File_ID f)); lia.
Qed.

(** ** Log files and index files *)

Lemma LogFiles_loop (fl acc : list File) :
  fold_left (λ a f, match File_type f with LogFileType => a ++ [f] | _ => a end) fl acc
  = acc ++ filter (λ f, File_type f = LogFileType) fl.
Proof.
  revert acc. induction fl as [|f fl IH]; intros acc; simpl.
  { by rewrite app_nil_r. }
  rewrite IH, filter_cons. destruct (File_type f) eqn:Ht.
  - rewrite decide_True by done. by rewrite <- app_assoc.
  - by rewrite decide_False by done.
  - by rewrite decide_False by done.
Qed.

Lemma IndexFiles_loop (fl acc : list File) :
  fold_left (λ a f, match File_type f with IndexFileType => a ++ [f] | _ => a end) fl acc
  = acc ++ filter (λ f, File_type f = IndexFileType) fl.
Proof.
  revert acc. induction fl as [|f fl IH]; intros acc; simpl.
  { by rewrite app_nil_r. }
  rewrite IH, filter_cons. destruct (File_type f) eqn:Ht.
  - by rewrite decide_False by done.
  - rewrite decide_True by done. by rewrite <- app_assoc.
  - by rewrite decide_False by done.
Qed.

Lemma FileSet_LogFiles_eq fs :
  FileSet_LogFiles fs = filter (λ f, File_type f = LogFileType) (files fs).
Proof. apply LogFiles_loop. Qed.

Lemma FileSet_IndexFiles_eq fs :
  FileSet_IndexFiles fs = filter (λ f, File_type f = IndexFileType) (files fs).
Proof. apply IndexFiles_loop. Qed.

Lemma filter_two_types (fl : list File) :
  Forall (λ f, File_type f ≠ OtherFileType) fl →
  filter (λ f, File_type f = LogFileType) fl
    ++ filter (λ f, File_type f = IndexFileType) fl ≡ₚ fl.
Proof.
  induction 1 as [|f fl Hf _ IH]; [done|]. rewrite !filter_cons.
  destruct (File_type f) eqn:Ht; [| |done].
  - rewrite decide_True, decide_False by done. simpl. by rewrite IH.
  - rewrite decide_False, decide_True by done.
    rewrite <- Permutation_middle. by rewrite IH.
Qed.

(** X15.  [LogFiles] and [IndexFiles] return the files of the matching
    concrete type, each in the order of the file set and with a file as
    often as the file set has it.  When every file is a log file or an
    index file, the two results together hold every file of the set exactly
    once.  A log file that is prepended to the set comes first among the
    log files and leaves the index files as they were. *)
Theorem LogFiles_IndexFiles_split :
  ∀ fs,
    FileSet_LogFiles fs = filter (λ f, File_type f = LogFileType) (files fs) ∧
    FileSet_IndexFiles fs = filter (λ f, File_type f = IndexFileType) (files fs) ∧
    FileSet_LogFiles fs `sublist_of` files fs ∧
    FileSet_IndexFiles fs `sublist_of` files fs ∧
    (Forall (λ f, File_type f ≠ OtherFileType) (files fs) →
     FileSet_LogFiles fs ++ FileSet_IndexFiles fs ≡ₚ files fs) ∧
    (∀ f : File,
       File_type f = LogFileType →
       FileSet_LogFiles (PrependLogFile fs f) = f :: FileSet_LogFiles fs ∧
       FileSet_IndexFiles (PrependLogFile fs f) = FileSet_IndexFiles fs).
Proof.
  intros fs. rewrite !FileSet_LogFiles_eq, !FileSet_IndexFiles_eq.
  split; [done|]. split; [done|].
  split; [apply sublist_filter|]. split; [apply sublist_filter|].
  split; [apply filter_two_types|].
  intros f Hf. split.
  - rewrite FileSet_LogFiles_eq. simpl. rewrite filter_cons.
    by rewrite decide_True.
  - rewrite FileSet_IndexFiles_eq. simpl. rewrite filter_cons.
    rewrite decide_False; [done|]. by rewrite Hf.
Qed.

End FileSetOtherFacts.

Section FileSetOtherFacts2.
Context {File : Type} `{EqDecision File} `{FileMethods File} `{OtherFileMethods File}.
Context {CompactionLevel SeriesFile : Type}.
Implicit Types (fs : FileSet File CompactionLevel SeriesFile).

(** ** Candidates for compaction *)

Lemma filter_rev {A : Type} (P : A → Prop) `{∀ x, Decision (P x)} (l : list A) :
  filter P (rev l) = rev (filter P l).
Proof.
  induction l as [|a l IH]; [done|]. simpl. rewrite filter_app, IH, !filter_cons.
  destruct (decide (P a)); simpl; [done|]. by rewrite app_nil_r.
Qed.

Lemma last_contiguous_loop_spec (level : Z) (hi stop : list File) (a : list File) :
  Forall (λ f, level ≤ File_Level f) hi →
  (∀ f, head stop = Some f → File_Level f < level) →
  (Forall (λ f, File_Level f = level → File_type f = IndexFileType) hi →
   last_contiguous_loop level (hi ++ stop) a
   = Returns (rev (filter (λ f, File_Level f = level) hi) ++ a)) ∧
  (Exists (λ f, File_Level f = level ∧ File_type f ≠ IndexFileType) hi →
   ∃ p, last_contiguous_loop level (hi ++ stop) a = Panics p).
Proof.
  intros Hhi Hstop. revert a.
  induction Hhi as [|f hi Hf _ IH]; intros a.
  - split; [|by intros ?%Exists_nil]. intros _. simpl.
    destruct stop as [|s stop]; [done|]. simpl.
    specialize (Hstop s eq_refl).
    destruct (Z.ltb_spec level (File_Level s)); [lia|].
    by destruct (Z.ltb_spec (File_Level s) level); [|lia].
  - simpl. rewrite filter_cons.
    destruct (Z.ltb_spec level (File_Level f)) as [Hlt|Hge].
    + rewrite decide_False by lia. destruct (IH a) as [IH1 IH2]. split.
      * intros Hall. apply IH1. by apply Forall_cons in Hall as [_ ?].
      * intros [[Heq _]|Hex]%Exists_cons; [lia|by apply IH2].
    + destruct (Z.ltb_spec (File_Level f) level); [lia|].
      assert (Heq : File_Level f = level) by lia.
      rewrite decide_True by done.
      destruct (File_type f) eqn:Ht.
      * split; [|intros _; eexists; reflexivity]. intros Hall.
        apply Forall_cons in Hall as [Hty _]. specialize (Hty Heq); congruence.
      * destruct (IH (f :: a)) as [IH1 IH2]. split.
        -- intros Hall. apply Forall_cons in Hall as [_ Hall].
           rewrite (IH1 Hall). simpl. by rewrite <- app_assoc.
        -- intros [[_ Hty]|Hex]%Exists_cons; [done|by apply IH2].
      * split; [|intros _; eexists; reflexivity]. intros Hall.
        apply Forall_cons in Hall as [Hty _]. specialize (Hty Heq); congruence.
Qed.

Lemma longest_suffix (P : File → Prop) `{∀ x, Decision (P x)} (l : list File) :
  ∃ front tail, l = front ++ tail ∧ Forall P tail ∧
                ∀ f, last front = Some f → ¬ P f.
Proof.
  induction l as [|x l (front & tail & -> & Htail & Hlast)].
  { exists [], []. by repeat split. }
  destruct front as [|y front].
  - destruct (decide (P x)) as [Hx|Hx].
    + exists [], (x :: tail). repeat split; [by constructor|done].
    + exists [x], tail. repeat split; [done|]. by intros f [= <-].
  - exists (x :: y :: front), tail. repeat split; [done|].
    intros f Hf. by apply Hlast.
Qed.

(** X16.  [LastContiguousIndexFilesByLevel] returns nil for level zero.
    For another level, take the longest run of files at the end of the file
    set in which no file is below the level.  The call returns the files of
    this run that are at the level, in the order of the file set, leaving
    out the files above the level that lie between them; it panics when a
    file of the run at the level is not an index file.  No file before the
    run is returned. *)
Theorem LastContiguousIndexFilesByLevel_result :
  ∀ fs (level : Z),
    LastContiguousIndexFilesByLevel fs 0 = Returns [] ∧
    (level ≠ 0 →
     ∃ front tail,
       files fs = front ++ tail ∧
       Forall (λ f, level ≤ File_Level f) tail ∧
       (∀ f, last front = Some f → File_Level f < level) ∧
       (Forall (λ f, File_Level f = level → File_type f = IndexFileType) tail →
        LastContiguousIndexFilesByLevel fs level
        = Returns (filter (λ f, File_Level f = level) tail)) ∧
       (Exists (λ f, File_Level f = level ∧ File_type f ≠ IndexFileType) tail →
        ∃ p, LastContiguousIndexFilesByLevel fs level = Panics p)).
Proof.
  intros fs level. split; [done|]. intros Hlevel.
  destruct (longest_suffix (λ f, level ≤ File_Level f) (files fs))
    as (front & tail & Hfiles & Htail & Hlast).
  exists front, tail. split; [done|]. split; [done|].
  split; [intros f Hf; specialize (Hlast f Hf); lia|].
  unfold LastContiguousIndexFilesByLevel.
  destruct (Z.eqb_spec level 0) as [|_]; [done|].
  rewrite Hfiles, rev_app_distr.
  destruct (last_contiguous_loop_spec level (rev tail) (rev front) []) as [H1 H2].
  - by apply Forall_rev.
  - intros f Hf. assert (Hl : last front = Some f).
    { rewrite <- (rev_involutive front). by rewrite last_rev_head. }
    specialize (Hlast f Hl). lia.
  - split.
    + intros Hall. rewrite H1 by (by apply Forall_rev).
      by rewrite app_nil_r, filter_rev, rev_involutive.
    + intros Hex. apply H2. by apply Exists_rev.
Qed.

End FileSetOtherFacts2.

Section FileSetLookups.
Context {File : Type} `{EqDecision File} `{FileMethods File} `{OtherFileMethods File}.
Context {CompactionLevel SeriesFile : Type}.
Implicit Types (fs : FileSet File CompactionLevel SeriesFile).

(** ** Does a tag key, a tag value exist? *)

Lemma HasTagKey_loop_first (newer older : list File) (f : File) (name key : Bytes) e :
  Forall (λ g, File_TagKey g name key = None) newer →
  File_TagKey f name key = Some e →
  HasTagKey_loop (newer ++ f :: older) name key = negb (TagKeyElem.Deleted e).
Proof.
  induction 1 as [|g newer Hg _ IH]; intros Hf; simpl; [by rewrite Hf|].
  rewrite Hg. by apply IH.
Qed.

Lemma HasTagValue_loop_first (newer older : list File) (f : File)
    (name key value : Bytes) e :
  Forall (λ g, File_TagValue g name key value = None) newer →
  File_TagValue f name key value = Some e →
  HasTagValue_loop (newer ++ f :: older) name key value
  = negb (TagValueElem.Deleted e).
Proof.
  induction 1 as [|g newer Hg _ IH]; intros Hf; simpl; [by rewrite Hf|].
  rewrite Hg. by apply IH.
Qed.

(** X17.  [HasTagKey] and [HasTagValue] are decided by the newest file
    that has an element for the key, or the value: the answer is true when
    that element is not deleted and false when it is, whatever the older
    files hold; it is false when no file has an element.  So a file
    prepended with a deleted element makes the answer false, and the answer
    does not change when the prepended file has no element. *)
Theorem HasTagKey_HasTagValue_newest_decides :
  ∀ fs (name key value : Bytes),
    (∀ (newer : list File) (f : File) (older : list File),
       files fs = newer ++ f :: older →
       (∀ e, Forall (λ g, File_TagKey g name key = None) newer →
             File_TagKey f name key = Some e →
             HasTagKey fs name key = negb (TagKeyElem.Deleted e)) ∧
       (∀ e, Forall (λ g, File_TagValue g name key value = None) newer →
             File_TagValue f name key value = Some e →
             HasTagValue fs name key value = negb (TagValueElem.Deleted e))) ∧
    (Forall (λ g, File_TagKey g name key = None) (files fs) →
     HasTagKey fs name key = false) ∧
    (Forall (λ g, File_TagValue g name key value = None) (files fs) →
     HasTagValue fs name key value = false) ∧
    (∀ logFile : File,
       HasTagKey (PrependLogFile fs logFile) name key =
         match File_TagKey logFile name key with
         | Some e => negb (TagKeyElem.Deleted e)
         | None => HasTagKey fs name key
         end ∧
       HasTagValue (PrependLogFile fs logFile) name key value =
         match File_TagValue logFile name key value with
         | Some e => negb (TagValueElem.Deleted e)
         | None => HasTagValue fs name key value
         end).
Proof.
  intros fs name key value. split; [|split; [|split]].
  - intros newer f older Hfiles. unfold HasTagKey, HasTagValue. rewrite Hfiles.
    split; intros e Hnewer Hf.
    + by apply HasTagKey_loop_first.
    + by apply HasTagValue_loop_first.
  - unfold HasTagKey. induction 1 as [|g l Hg _ IH]; [done|]. simpl. by rewrite Hg.
  - unfold HasTagValue. induction 1 as [|g l Hg _ IH]; [done|]. simpl. by rewrite Hg.
  - done.
Qed.

(** ** Looking a metric up and iterating over the metrics *)

Lemma MergeIterators_Some {E : Type} (itrs : list (list E)) :
  itrs ≠ [] → ∃ it, MergeIterators itrs = Some it ∧ map pending it = itrs.
Proof.
  intros Hne. exists (map (Slot None) itrs). split; [by destruct itrs|].
  apply pending_MergeIterators. by destruct itrs.
Qed.

Lemma Metric_loop_Some (fl : list File) (name : Bytes) (e : MetricElem.t) :
  fst (Metric_loop fl name) = Some e →
  ∃ pre f post, fl = pre ++ f :: post ∧
    Forall (λ g, File_Metric g name = None) pre ∧
    File_Metric f name = Some e ∧ MetricElem.Deleted e = false.
Proof.
  induction fl as [|f fl IH]; [done|]. simpl.
  destruct (File_Metric f name) as [e'|] eqn:Hf.
  - destruct (MetricElem.Deleted e') eqn:Hd; [done|]. simpl. intros [= ->].
    by exists [], f, fl.
  - destruct (Metric_loop fl name) as [r seen]. simpl in *.
    intros (pre & f' & post & -> & Hpre & Hf' & Hd)%IH.
    exists (f :: pre), f', post. split; [done|]. split; [by constructor|done].
Qed.

Lemma first_file_with (fl : list File) (name : Bytes) (f0 : File) (e0 : MetricElem.t) :
  f0 ∈ fl → File_Metric f0 name = Some e0 →
  ∃ pre f post e, fl = pre ++ f :: post ∧
    Forall (λ g, File_Metric g name = None) pre ∧ File_Metric f name = Some e.
Proof.
  induction fl as [|f fl IH]; intros Hin He0; [by apply elem_of_nil in Hin|].
  destruct (File_Metric f name) as [e|] eqn:Hf.
  - by exists [], f, fl, e.
  - apply elem_of_cons in Hin as [->|Hin]; [congruence|].
    destruct (IH Hin He0) as (pre & f' & post & e & -> & Hpre & Hf').
    exists (f :: pre), f', post, e. split; [done|]. split; [by constructor|done].
Qed.

(** X18.  Lookup and iteration agree.  Let every file hand out its metrics
    sorted and without nil names, and let the [Metric] method of every file
    find, for the name asked, the element that its iterator has under that
    name.  Then [Metric] of the file set returns an element for the name
    exactly when the merged metric iterator of the file set returns a group
    for that name that is not deleted, and the element is the first
    constituent of that group. *)
Theorem Metric_agrees_with_MetricIterator :
  ∀ fs (name : Bytes),
    (∀ f l, f ∈ files fs → File_MetricIterator f = Some l →
            sorted_keys MetricElem.Name l ∧
            ∀ e, e ∈ l → MetricElem.Name e ≠ None) →
    (∀ f e, f ∈ files fs →
            (File_Metric f name = Some e ↔
             ∃ l, File_MetricIterator f = Some l ∧ e ∈ l ∧
                  Equal (MetricElem.Name e) name = true)) →
    ∀ e, FileSet_Metric fs name = Some e ↔
         ∃ it g, FileSet_MetricIterator fs = Some it ∧
                 g ∈ merge_drain MetricElem.Name it ∧
                 Equal (metricMergeElem_Name g) name = true ∧
                 metricMergeElem_Deleted g = false ∧ head g = Some e.
Proof.
  intros fs name Hfile Hcons e.
  set (srcs := omap File_MetricIterator (files fs)).
  assert (Hsorted : Forall (sorted_keys MetricElem.Name) srcs).
  { apply Forall_forall. intros l (f & Hf & Hl)%list_elem_of_omap.
    by destruct (Hfile f l Hf Hl). }
  assert (Hnil : ∀ l x, l ∈ srcs → x ∈ l → MetricElem.Name x ≠ None).
  { intros l x (f & Hf & Hl)%list_elem_of_omap Hx.
    by destruct (Hfile f l Hf Hl) as [_ Hn]; apply Hn. }
  (* the newest file that has the name gives the head of the group *)
  assert (Hnewest : ∀ pre f post e1 it g,
            files fs = pre ++ f :: post →
            Forall (λ g, File_Metric g name = None) pre →
            File_Metric f name = Some e1 →
            MergeIterators srcs = Some it →
            g ∈ merge_drain MetricElem.Name it →
            content (mergeElem_key MetricElem.Name g) = content name →
            head g = Some e1 ∧
            mergeElem_Deleted MetricElem.Deleted g = MetricElem.Deleted e1).
  { intros pre f post e1 it g Hfiles Hpre Hf Hit Hg Hkey.
    assert (Hin : f ∈ files fs).
    { rewrite Hfiles. apply elem_of_app. right. apply list_elem_of_here. }
    destruct (proj1 (Hcons f e1 Hin) Hf) as (l & Hl & He1 & Heq).
    apply Equal_true in Heq.
    apply (merge_run_newest MetricElem.Name MetricElem.Deleted srcs
             (S (length (remaining it))) it None
             Hsorted Hnil) with (i := length (omap File_MetricIterator pre)) (l := l).
    - simpl. rewrite map_id. by apply pending_MergeIterators.
    - exact Hg.
    - unfold srcs. rewrite Hfiles, omap_app. simpl. rewrite Hl.
      by rewrite list_lookup_middle.
    - done.
    - congruence.
    - intros j l' x Hj Hl' Hx Hsame.
      unfold srcs in Hl'. rewrite Hfiles, omap_app in Hl'.
      rewrite lookup_app_l in Hl' by done.
      apply list_elem_of_lookup_2, list_elem_of_omap in Hl' as (g' & Hg' & Hgl).
      assert (Hg'in : g' ∈ files fs).
      { rewrite Hfiles. apply elem_of_app. by left. }
      assert (Hfound : File_Metric g' name = Some x).
      { apply (Hcons g' x Hg'in). exists l'. split; [done|]. split; [done|].
        apply Equal_true. congruence. }
      rewrite Forall_forall in Hpre. rewrite (Hpre g' Hg') in Hfound. done. }
  split.
  - intros HM. unfold FileSet_Metric in HM.
    apply Metric_loop_Some in HM as (pre & f & post & Hfiles & Hpre & Hf & Hd).
    assert (Hin : f ∈ files fs).
    { rewrite Hfiles. apply elem_of_app. right. apply list_elem_of_here. }
    destruct (proj1 (Hcons f e Hin) Hf) as (l & Hl & He & Heq).
    assert (Hl_in : l ∈ srcs).
    { apply list_elem_of_omap. by exists f. }
    destruct (MergeIterators_Some srcs) as (it & Hit & Hp).
    { intros Hempty. rewrite Hempty in Hl_in. by apply elem_of_nil in Hl_in. }
    destruct (merge_drain_complete MetricElem.Name it) with (e := e)
      as (g & Hg & Heg).
    { intros x (l' & Hl' & Hx)%elem_of_concat. rewrite Hp in Hl'.
      by apply (Hnil l' x). }
    { apply elem_of_concat. exists l. by rewrite Hp. }
    assert (Hkey : content (mergeElem_key MetricElem.Name g) = content name).
    { destruct (merge_run_sound MetricElem.Name _ _ _ _ Hg Heg) as [_ Hk].
      apply Equal_true in Heq. congruence. }
    destruct (Hnewest pre f post e it g Hfiles Hpre Hf Hit Hg Hkey) as [Hh Hdel].
    exists it, g. split; [done|]. split; [done|].
    split; [by apply Equal_true|]. split; [|done].
    unfold metricMergeElem_Deleted. by rewrite Hdel.
  - intros (it & g & Hit & Hg & Heq & Hdel & Hh).
    apply Equal_true in Heq.
    assert (Heg : e ∈ g).
    { destruct g as [|x g]; [done|]. injection Hh as ->. apply list_elem_of_here. }
    destruct (merge_run_sound MetricElem.Name _ _ _ _ Hg Heg) as [Hrem Hk].
    unfold remaining in Hrem.
    rewrite (pending_MergeIterators _ _ Hit) in Hrem.
    apply elem_of_concat in Hrem as (l & Hl & Hel).
    apply list_elem_of_omap in Hl as (f0 & Hf0 & Hl).
    assert (Hfound : File_Metric f0 name = Some e).
    { apply (Hcons f0 e Hf0). exists l. split; [done|]. split; [done|].
      apply Equal_true. unfold metricMergeElem_Name in Heq. congruence. }
    destruct (first_file_with (files fs) name f0 e Hf0 Hfound)
      as (pre & f & post & e1 & Hfiles & Hpre & Hf).
    destruct (Hnewest pre f post e1 it g Hfiles Hpre Hf Hit Hg Heq) as [Hh1 Hdel1].
    assert (e1 = e) as -> by congruence.
    unfold FileSet_Metric. rewrite Hfiles.
    rewrite (Metric_loop_first pre post f name e) by (by apply Forall_forall || done).
    unfold metricMergeElem_Deleted in Hdel. rewrite Hdel1 in Hdel.
    by rewrite Hdel.
Qed.

End FileSetLookups.

(** ** The other methods on the sample files *)

(** X11 on four files of which the third fails to close. *)
Lemma FileSet_Close_closes_every_file_witness :
  @FileSet_Close nat (OtherSample.methods OtherSample.heap) unit unit
    (Sample.fileset [0; 1; 2; 3]%nat)
  = (Some "file already closed"%string, [0; 1; 2; 3]%nat).
Proof.
  pose proof (@FileSet_Close_closes_every_file nat
                (OtherSample.methods OtherSample.heap) unit unit
                (Sample.fileset [0; 1; 2; 3]%nat)) as (Hall & _ & Hfirst).
  specialize (Hfirst [0; 1]%nat 2%nat [3]%nat "file already closed"%string eq_refl
                ltac:(repeat constructor) eq_refl).
  destruct (FileSet_Close _) as [err closed]. simpl in *. by subst.
Defined.

(** X12 on three calls of [Close]. *)
Lemma fileSetIterator_Close_releases_once_witness :
  ∃ errs it',
    @Close_times nat unit unit nat (λ i, (None, S i)) 3
      (newFileSetIterator (Sample.fileset [0; 1]%nat) 0%nat)
    = (errs, [Released 0%nat; Released 1%nat], it') ∧
    length errs = 3%nat ∧ fsi_once it' = true.
Proof.
  apply (@fileSetIterator_Close_releases_once nat Nat.eq_dec unit unit
           (Sample.fileset [0; 1]%nat) nat (λ i, (None, S i)) 0%nat 2%nat).
Defined.

(** X13 on the files of sizes 10, 100 and 1000 with a manifest of 7 bytes:
    the last two are replaced by a file of size 100. *)
Lemma FileSet_Size_after_change_witness :
  let m := Sample.methods (λ _, Sample.no_data) in
  let o := OtherSample.methods OtherSample.heap in
  let fs : FileSet nat unit unit :=
    {| levels := []; sfile := None; files := [0; 1; 2]%nat; manifestSize := 7 |} in
  @FileSet_Size nat o unit unit fs = 1117 ∧
  @FileSet_Size nat o unit unit (Sample.fileset [0; 3]%nat) = 110.
Proof.
  intros m o fs. split; [reflexivity|].
  rewrite (proj2 (proj2 (@FileSet_Size_after_change nat Nat.eq_dec m o unit unit fs))
             [1; 2]%nat 3%nat (Sample.fileset [0; 3]%nat) eq_refl).
  reflexivity.
Defined.

(** X14 on the files 3, 1 and 2, and with file 7 prepended. *)
Lemma FileSet_MaxID_is_highest_witness :
  let m := Sample.methods (λ _, Sample.no_data) in
  @FileSet_MaxID nat m unit unit (PrependLogFile (Sample.fileset [3; 1; 2]%nat) 7%nat)
  = Z.max 7 (@FileSet_MaxID nat m unit unit (Sample.fileset [3; 1; 2]%nat)).
Proof.
  intros m.
  apply (proj2 (proj2 (proj2 (@FileSet_MaxID_is_highest nat m unit unit
                                (Sample.fileset [3; 1; 2]%nat)))) 7%nat).
Defined.

(** X15 on a log file before two index files. *)
Lemma LogFiles_IndexFiles_split_witness :
  let o := OtherSample.methods OtherSample.heap in
  @FileSet_LogFiles nat o unit unit (Sample.fileset [0; 1; 2]%nat)
    ++ @FileSet_IndexFiles nat o unit unit (Sample.fileset [0; 1; 2]%nat)
  ≡ₚ [0; 1; 2]%nat.
Proof.
  intros o.
  apply (@LogFiles_IndexFiles_split nat o unit unit (Sample.fileset [0; 1; 2]%nat)).
  repeat constructor; discriminate.
Defined.

(** X16 on files of the levels 0, 1, 2, 1 and 1: at level 1 the log file
    at the front ends the run, and the file of level 2 is left out. *)
Lemma LastContiguousIndexFilesByLevel_result_witness :
  let o := OtherSample.methods OtherSample.heap in
  @LastContiguousIndexFilesByLevel nat o unit unit (Sample.fileset [0; 1; 2; 3; 4]%nat) 1
    = Returns [1; 3; 4]%nat ∧
  ∃ front tail : list nat,
    [0; 1; 2; 3; 4]%nat = front ++ tail ∧
    Forall (λ f, 1 ≤ @File_Level nat o f) tail ∧
    (∀ f, last front = Some f → @File_Level nat o f < 1).
Proof.
  intros o. split; [reflexivity|].
  destruct (proj2 (@LastContiguousIndexFilesByLevel_result nat o unit unit
                     (Sample.fileset [0; 1; 2; 3; 4]%nat) 1) ltac:(discriminate))
    as (front & tail & Hfiles & Htail & Hlast & _).
  by exists front, tail.
Defined.

(** X17 on the sample files: the tag key is deleted in file 0 and live in
    file 1. *)
Lemma HasTagKey_HasTagValue_newest_decides_witness :
  let m := Sample.methods (λ _, Sample.no_data) in
  let o := OtherSample.methods OtherSample.heap in
  @HasTagKey nat o unit unit (Sample.fileset [2; 1; 0]%nat) (Sample.b "cpu") (Sample.b "host")
    = true ∧
  @HasTagKey nat o unit unit
    (PrependLogFile (Sample.fileset [2; 1; 0]%nat) 0%nat) (Sample.b "cpu") (Sample.b "host")
    = false.
Proof.
  intros m o.
  pose proof (@HasTagKey_HasTagValue_newest_decides nat o unit unit
                (Sample.fileset [2; 1; 0]%nat) (Sample.b "cpu") (Sample.b "host")
                (Sample.b "east")) as (Hfirst & _ & _ & Hprepend).
  split.
  - apply (proj1 (Hfirst [2]%nat 1%nat [0]%nat eq_refl) TagKeysSample.host);
      [repeat constructor|reflexivity].
  - rewrite (proj1 (Hprepend 0%nat)). reflexivity.
Defined.

(** X18 on the sample files: "disk" is found and listed, with the element
    of file 1. *)
Lemma Metric_agrees_with_MetricIterator_witness :
  let m := OtherSample.lookup_methods in
  let o := OtherSample.methods OtherSample.heap in
  @FileSet_Metric nat m unit unit (Sample.fileset [0; 1]%nat) (Sample.b "disk")
    = Some MergeSample.disk ∧
  ∃ it g, @FileSet_MetricIterator nat o unit unit (Sample.fileset [0; 1]%nat) = Some it ∧
          g ∈ merge_drain MetricElem.Name it ∧ head g = Some MergeSample.disk.
Proof.
  intros m o. split; [reflexivity|].
  assert (Hcases : ∀ f : nat, f ∈ [0; 1]%nat → f = 0%nat ∨ f = 1%nat).
  { intros f [->|[->|[]%elem_of_nil]%elem_of_cons]%elem_of_cons; by eauto. }
  assert (Hfile : ∀ f l, f ∈ [0; 1]%nat → @File_MetricIterator nat o f = Some l →
            sorted_keys MetricElem.Name l ∧
            ∀ e, e ∈ l → MetricElem.Name e ≠ None).
  { intros f l [-> | ->]%Hcases Hl; injection Hl as <-;
      (split; [repeat constructor|]);
      intros e He;
      repeat (apply elem_of_cons in He as [->|He]; [discriminate|]);
      by apply elem_of_nil in He. }
  assert (Hcons : ∀ f e, f ∈ [0; 1]%nat →
            (@File_Metric nat m f (Sample.b "disk") = Some e ↔
             ∃ l, @File_MetricIterator nat o f = Some l ∧ e ∈ l ∧
                  Equal (MetricElem.Name e) (Sample.b "disk") = true)).
  { intros f e [-> | ->]%Hcases; split.
    - intros He. vm_compute in He. discriminate He.
    - intros (l & Hl & He & Heq). injection Hl as <-.
      repeat (apply elem_of_cons in He as [->|He];
              [vm_compute in Heq; discriminate Heq|]).
      by apply elem_of_nil in He.
    - intros He. vm_compute in He. injection He as <-.
      eexists. split; [reflexivity|]. split; [|reflexivity].
      apply list_elem_of_further, list_elem_of_here.
    - intros (l & Hl & He & Heq). injection Hl as <-.
      apply elem_of_cons in He as [->|He];
        [vm_compute in Heq; discriminate Heq|].
      apply elem_of_cons in He as [->|He]; [reflexivity|].
      by apply elem_of_nil in He. }
  destruct (proj1 (@Metric_agrees_with_MetricIterator nat m o unit unit
                     (Sample.fileset [0; 1]%nat) (Sample.b "disk") Hfile Hcons
                     MergeSample.disk) eq_refl)
    as (it & g & Hit & Hg & _ & _ & Hh).
  by exists it, g.
Defined.

(* ================================================================== *)
(** * Writing and reading numbers *)
(* ================================================================== *)

Lemma Z_of_byte_range (b : byte) : 0 ≤ Z_of_byte b < 256.
Proof. unfold Z_of_byte. pose proof (Byte.to_N_bounded b). lia. Qed.

Lemma Z_of_byte_of_Z (z : Z) : Z_of_byte (byte_of_Z z) = z mod 256.
Proof.
  unfold Z_of_byte, byte_of_Z.
  pose proof (Z.mod_pos_bound z 256 ltac:(lia)) as Hr.
  destruct (Byte.of_N (Z.to_N (z mod 256))) as [b|] eqn:Hb; simpl.
  - apply Byte.to_of_N in Hb. rewrite Hb. lia.
  - apply Byte.of_N_None_iff in Hb. lia.
Qed.

Lemma land_low_high (a b s : Z) :
  0 ≤ s → 0 ≤ a < 2 ^ s → Z.land a (Z.shiftl b s) = 0.
Proof.
  intros Hs Ha. apply Z.bits_inj'. intros n Hn.
  rewrite Z.land_spec, Z.bits_0.
  destruct (Z.lt_ge_cases n s) as [Hlt|Hge].
  - rewrite (Z.shiftl_spec_low b s n Hlt). apply andb_false_r.
  - destruct (Z.eq_dec a 0) as [->|Hne]; [by rewrite Z.bits_0|].
    rewrite (Z.bits_above_log2 a n); [done|lia|].
    apply Z.lt_le_trans with s; [|done]. apply Z.log2_lt_pow2; lia.
Qed.

Lemma lor_low_high (a b s : Z) :
  0 ≤ s → 0 ≤ a < 2 ^ s → Z.lor a (Z.shiftl b s) = a + b * 2 ^ s.
Proof.
  intros Hs Ha. pose proof (Z.add_lor_land a (Z.shiftl b s)) as Hadd.
  rewrite land_low_high in Hadd by done. rewrite Z.shiftl_mul_pow2 in * by done.
  lia.
Qed.

Lemma lor_range (a b n : Z) :
  0 ≤ n → 0 ≤ a < 2 ^ n → 0 ≤ b < 2 ^ n → 0 ≤ Z.lor a b < 2 ^ n.
Proof.
  intros Hn Ha Hb. split; [apply Z.lor_nonneg; lia|].
  destruct (Z.eq_dec (Z.lor a b) 0) as [->|Hne]; [lia|].
  apply Z.log2_lt_pow2; [pose proof (proj2 (Z.lor_nonneg a b)); lia|].
  rewrite Z.log2_lor by lia.
  destruct (Z.eq_dec a 0) as [->|Ha0], (Z.eq_dec b 0) as [->|Hb0].
  - by rewrite Z.lor_0_l in Hne.
  - simpl. rewrite Z.max_r by apply Z.log2_nonneg. apply Z.log2_lt_pow2; lia.
  - rewrite Z.max_l by apply Z.log2_nonneg. apply Z.log2_lt_pow2; lia.
  - apply Z.max_lub_lt; apply Z.log2_lt_pow2; lia.
Qed.

Lemma lor_128 (y : Z) : 0 ≤ y < 128 → Z.lor y 128 = y + 128.
Proof.
  intros Hy. change 128 with (Z.shiftl 1 7) at 1.
  rewrite lor_low_high; lia.
Qed.

(** The byte with the continuation bit. *)
Lemma continuation_byte (x : Z) :
  0 ≤ x → Z_of_byte (byte_of_Z (Z.lor x 128)) = x mod 128 + 128.
Proof.
  intros Hx. rewrite Z_of_byte_of_Z.
  change 256 with (2 ^ 8). rewrite <- Z.land_ones by lia.
  rewrite Z.land_lor_distr_l. rewrite (Z.land_ones x 8) by lia.
  change (Z.land 128 (Z.ones 8)) with 128.
  pose proof (Z.mod_pos_bound x (2 ^ 8) ltac:(lia)) as Hr.
  set (y := x mod 2 ^ 8) in *.
  assert (Hmod : x mod 128 = y mod 128).
  { unfold y. change (2 ^ 8) with (128 * 2).
    rewrite Z.rem_mul_r by lia.
    rewrite (Z.mul_comm 128), Z.mod_add by lia. by rewrite Z.mod_mod. }
  rewrite Hmod. clearbody y.
  destruct (Z.lt_ge_cases y 128) as [Hlt|Hge].
  - rewrite lor_128 by lia. rewrite Z.mod_small; lia.
  - assert (Hy : y = Z.lor (y - 128) 128) by (rewrite lor_128; lia).
    assert (Hlor : Z.lor y 128 = y).
    { rewrite Hy at 1. rewrite <- Z.lor_assoc, Z.lor_diag. by rewrite <- Hy. }
    rewrite Hlor. replace (y mod 128) with (y - 128); [lia|].
    apply Z.mod_unique with 1; lia.
Qed.

Lemma low_seven_bits (r : Z) : 0 ≤ r < 128 → Z.land (r + 128) 127 = r.
Proof.
  intros Hr. change 127 with (Z.ones 7). rewrite Z.land_ones by lia.
  change (2 ^ 7) with 128.
  replace (r + 128) with (r + 1 * 128) by lia. rewrite Z.mod_add by lia.
  apply Z.mod_small. lia.
Qed.

(** Writing and reading back, from any index of the buffer. *)
Lemma PutUvarint_Uvarint (room i : nat) (x acc : Z) :
  (i + room = 10)%nat →
  0 ≤ x < 2 ^ (64 - 7 * Z.of_nat i) → 0 ≤ acc < 2 ^ (7 * Z.of_nat i) →
  ∃ bs, PutUvarint_loop room i x = Returns bs ∧
        (1 ≤ length bs ≤ room)%nat ∧
        ∀ rest, Uvarint_loop (bs ++ rest) i acc (7 * Z.of_nat i)
                = (acc + x * 2 ^ (7 * Z.of_nat i), Z.of_nat i + Z.of_nat (length bs)).
Proof.
  revert i x acc. induction room as [|room IH]; intros i x acc Hi Hx Hacc.
  { assert (i = 10%nat) as -> by lia. simpl in Hx. lia. }
  assert (Hi9 : (i ≤ 9)%nat) by lia.
  assert (Hpow : 2 ^ (64 - 7 * Z.of_nat i) * 2 ^ (7 * Z.of_nat i) = 2 ^ 64).
  { rewrite <- Z.pow_add_r by lia. f_equal. lia. }
  assert (Hpos : 0 < 2 ^ (7 * Z.of_nat i)) by (apply Z.pow_pos_nonneg; lia).
  simpl PutUvarint_loop.
  destruct (Z.leb_spec 128 x) as [Hbig|Hsmall].
  - (* a byte with the continuation bit, and the rest *)
    assert (Hi8 : (i ≤ 8)%nat).
    { destruct (decide (i = 9%nat)) as [->|]; [|lia]. simpl in Hx. lia. }
    assert (Hx7 : 0 ≤ Z.shiftr x 7 < 2 ^ (64 - 7 * Z.of_nat (S i))).
    { rewrite Z.shiftr_div_pow2 by lia. split; [apply Z.div_pos; lia|].
      apply Z.div_lt_upper_bound; [lia|].
      replace (2 ^ 7 * 2 ^ (64 - 7 * Z.of_nat (S i)))
        with (2 ^ (64 - 7 * Z.of_nat i)); [lia|].
      rewrite <- Z.pow_add_r by lia. f_equal. lia. }
    pose proof (Z.mod_pos_bound x 128 ltac:(lia)) as Hr.
    assert (Hacc' : 0 ≤ acc + x mod 128 * 2 ^ (7 * Z.of_nat i)
                    < 2 ^ (7 * Z.of_nat (S i))).
    { replace (7 * Z.of_nat (S i)) with (7 * Z.of_nat i + 7) by lia.
      rewrite Z.pow_add_r by lia. nia. }
    destruct (IH (S i) (Z.shiftr x 7) (acc + x mod 128 * 2 ^ (7 * Z.of_nat i))
                ltac:(lia) Hx7 Hacc') as (bs & -> & Hlen & Hread).
    eexists. split; [reflexivity|]. split; [simpl; lia|].
    intros rest. cbn [app Uvarint_loop].
    assert (Hne : (i =? MaxVarintLen64)%nat = false).
    { apply Nat.eqb_neq. unfold MaxVarintLen64. lia. }
    rewrite Hne, continuation_byte by lia.
    destruct (Z.ltb_spec (x mod 128 + 128) 128) as [|_]; [lia|].
    rewrite low_seven_bits by lia.
    assert (Hfit : uint64 (Z.shiftl (x mod 128) (7 * Z.of_nat i))
                   = x mod 128 * 2 ^ (7 * Z.of_nat i)).
    { unfold uint64. rewrite Z.shiftl_mul_pow2 by lia. apply Z.mod_small.
      split; [nia|].
      apply Z.lt_le_trans with (128 * 2 ^ (7 * Z.of_nat i)); [nia|].
      change 128 with (2 ^ 7). rewrite <- Z.pow_add_r by lia.
      apply Z.pow_le_mono_r; lia. }
    rewrite Hfit.
    rewrite <- (Z.shiftl_mul_pow2 (x mod 128)) by lia.
    rewrite lor_low_high by lia.
    replace (7 * Z.of_nat i + 7) with (7 * Z.of_nat (S i)) by lia.
    rewrite Hread. f_equal.
    + rewrite Z.shiftr_div_pow2 by lia.
      replace (7 * Z.of_nat (S i)) with (7 * Z.of_nat i + 7) by lia.
      rewrite Z.pow_add_r by lia. change (2 ^ 7) with 128.
      pose proof (Z.div_mod x 128 ltac:(lia)). nia.
    + simpl length. lia.
  - (* the last byte *)
    exists [byte_of_Z x]. split; [done|]. split; [simpl; lia|].
    intros rest. cbn [app Uvarint_loop].
    assert (Hne : (i =? MaxVarintLen64)%nat = false).
    { apply Nat.eqb_neq. unfold MaxVarintLen64. lia. }
    rewrite Hne, Z_of_byte_of_Z, (Z.mod_small x 256) by lia.
    destruct (Z.ltb_spec x 128) as [_|]; [|lia].
    assert (Hlast : (i =? MaxVarintLen64 - 1)%nat && (1 <? x) = false).
    { destruct (decide (i = 9%nat)) as [->|Hn9].
      - simpl in Hx. destruct (Z.ltb_spec 1 x); [lia|]. apply andb_false_r.
      - replace (i =? MaxVarintLen64 - 1)%nat with false; [done|].
        symmetry. apply Nat.eqb_neq. unfold MaxVarintLen64. lia. }
    rewrite Hlast.
    assert (Hfit : uint64 (Z.shiftl x (7 * Z.of_nat i)) = Z.shiftl x (7 * Z.of_nat i)).
    { unfold uint64. rewrite Z.shiftl_mul_pow2 by lia. apply Z.mod_small. nia. }
    by rewrite Hfit, lor_low_high by lia.
Qed.

Lemma uint64_range (z : Z) : 0 ≤ uint64 z < 2 ^ 64.
Proof. apply Z.mod_pos_bound. lia. Qed.

Lemma Uvarint_loop_result (buf : list byte) (i : nat) (x s v n : Z) :
  (i ≤ 10)%nat → 0 ≤ x < 2 ^ 64 →
  Uvarint_loop buf i x s = (v, n) →
  (v = 0 ∧ n = 0) ∨ (v = 0 ∧ n < 0) ∨
  (Z.of_nat i < n ≤ Z.of_nat i + Z.of_nat (length buf) ∧ n ≤ 10 ∧ 0 ≤ v < 2 ^ 64).
Proof.
  revert i x s. induction buf as [|b rest IH]; intros i x s Hi Hx; simpl.
  { intros [= <- <-]. by left. }
  destruct (Nat.eqb_spec i MaxVarintLen64) as [->|Hne].
  { intros [= <- <-]. right. left. split; [done|]. unfold MaxVarintLen64. lia. }
  unfold MaxVarintLen64 in Hne.
  destruct (Z.ltb_spec (Z_of_byte b) 128) as [Hlast|Hmore].
  - destruct ((i =? 9)%nat && (1 <? Z_of_byte b)).
    + intros [= <- <-]. right. left. split; [done|lia].
    + intros [= <- <-]. right. right. split; [lia|]. split; [lia|].
      apply lor_range; [lia|done|apply uint64_range].
  - intros Hrec. apply IH in Hrec as [?|[?|(Hn & Hn10 & Hv)]]; [by left|by right; left| |lia|].
    + right. right. split; [lia|done].
    + apply lor_range; [lia|done|apply uint64_range].
Qed.

(** X19.  What [writeUvarintTo] writes, [uvarint] reads back.  For every
    64-bit number the helper hands the writer between one and ten bytes
    and does not panic; [uvarint] on these bytes, followed by any other
    bytes, returns the number, the count of the bytes written and no
    error.  With a writer that takes everything, [*n] is advanced by that
    count. *)
Theorem uvarint_reads_what_writeUvarintTo_writes :
  ∀ v : Z,
    0 ≤ v < 2 ^ 64 →
    ∃ bs : list byte,
      PutUvarint v = Returns bs ∧
      (1 ≤ length bs ≤ 10)%nat ∧
      (∀ (W : Type) (Write : W → Bytes → (Z * option error) * W) (w : W) (n : Z),
         writeUvarintTo Write w v n = Returns (writeTo Write w (Some bs) n)) ∧
      (∀ (w : list byte) (n : Z),
         writeUvarintTo buffer_Write w v n
         = Returns (None, w ++ bs, wrap64 (n + Z.of_nat (length bs)))) ∧
      (∀ rest : list byte,
         uvarint (Some (bs ++ rest)) = (v, Z.of_nat (length bs), None)).
Proof.
  intros v Hv.
  destruct (PutUvarint_Uvarint 10 0 v 0 eq_refl Hv ltac:(simpl; lia))
    as (bs & Hput & Hlen & Hread).
  exists bs. split; [exact Hput|]. split; [exact Hlen|].
  split; [|split].
  - intros W Write w n. unfold writeUvarintTo, PutUvarint, MaxVarintLen64.
    by rewrite Hput.
  - intros w n. unfold writeUvarintTo, PutUvarint, MaxVarintLen64.
    by rewrite Hput.
  - intros rest. unfold uvarint, Uvarint. cbn [content].
    change 0 with (7 * Z.of_nat 0) at 4. rewrite Hread.
    rewrite length_app.
    destruct (Z.ltb_spec (Z.of_nat (length bs + length rest)) 1); [lia|].
    replace (0 + v * 2 ^ (7 * Z.of_nat 0)) with v by (simpl; lia).
    replace (Z.of_nat 0 + Z.of_nat (length bs)) with (Z.of_nat (length bs)) by lia.
    destruct (Z.eqb_spec (Z.of_nat (length bs)) 0); [lia|].
    destruct (Z.ltb_spec (Z.of_nat (length bs + length rest)) (Z.of_nat (length bs)));
      [lia|].
    simpl. by destruct (Z.ltb_spec (Z.of_nat (length bs)) 0); [lia|].
Qed.

(** X19 on the number 300, which takes two bytes. *)
Lemma uvarint_reads_what_writeUvarintTo_writes_witness :
  ∃ bs : list byte,
    PutUvarint 300 = Returns bs ∧
    uvarint (Some (bs ++ [Byte.x07])) = (300, Z.of_nat (length bs), None).
Proof.
  destruct (uvarint_reads_what_writeUvarintTo_writes 300 ltac:(lia))
    as (bs & Hput & _ & _ & _ & Hread).
  exists bs. split; [exact Hput|apply Hread].
Defined.

(** X20.  [uvarint] returns either no error, and then a count [n] of
    bytes read that is at least one, at most ten and at most the length of
    the data, with a value that fits 64 bits; or an error, and then the
    value zero and a count that is zero or negative.  Empty data gives the
    error "short buffer". *)
Theorem uvarint_result :
  ∀ (data : Bytes) (value n : Z) (err : option error),
    uvarint data = (value, n, err) →
    (err = None →
     1 ≤ n ≤ Z.of_nat (length (content data)) ∧ n ≤ 10 ∧ 0 ≤ value < 2 ^ 64) ∧
    (err ≠ None → value = 0 ∧ n ≤ 0) ∧
    (content data = [] → err = Some "short buffer"%string).
Proof.
  intros data value n err. unfold uvarint.
  destruct (Z.ltb_spec (Z.of_nat (length (content data))) 1) as [Hshort|Hlong].
  { intros [= <- <- <-]. by repeat split. }
  destruct (Uvarint (content data)) as [v k] eqn:HU.
  apply Uvarint_loop_result in HU as Hres; [|lia|lia].
  assert (Hne : content data ≠ []).
  { intros Heq. rewrite Heq in Hlong. simpl in Hlong. lia. }
  destruct (Z.eqb_spec k 0) as [->|Hk0]; simpl.
  { intros [= <- <- <-]. split; [done|]. split; [|done]. intros _.
    destruct Hres as [[-> _]|[[-> _]|(? & _)]]; [done|done|lia]. }
  destruct (Z.ltb_spec (Z.of_nat (length (content data))) k) as [Hover|Hfits].
  { intros [= <- <- <-]. split; [done|]. split; [|done]. intros _.
    destruct Hres as [[_ ?]|[[_ ?]|(? & _)]]; lia. }
  destruct (Z.ltb_spec k 0) as [Hneg|Hpos].
  { intros [= <- <- <-]. split; [done|]. split; [|done]. intros _.
    destruct Hres as [[_ ?]|[[-> _]|(? & _)]]; [lia|split; [done|lia]|lia]. }
  intros [= <- <- <-]. split; [|done]. intros _.
  destruct Hres as [[_ ?]|[[_ ?]|(Hk & Hk10 & Hv)]]; [lia|lia|].
  split; [lia|]. by split.
Qed.

(** X20 on data that ends in the middle of a number. *)
Lemma uvarint_result_witness :
  uvarint (Some [Byte.xac]) = (0, 0, Some "short buffer"%string) ∧
  (0 = 0 ∧ 0 ≤ 0).
Proof.
  split; [reflexivity|].
  apply (uvarint_result (Some [Byte.xac]) 0 0 (Some "short buffer"%string) eq_refl).
  discriminate.
Defined.

(** ** Big-endian numbers *)

Lemma shiftr_byte_step (v k k' : Z) :
  0 ≤ k → k' = k + 8 →
  Z.shiftr v k = Z.shiftr v k' * 256 + Z.shiftr v k mod 256.
Proof.
  intros Hk ->. rewrite <- (Z.shiftr_shiftr v k 8) by lia.
  rewrite (Z.shiftr_div_pow2 (Z.shiftr v k) 8) by lia. change (2 ^ 8) with 256.
  pose proof (Z.div_mod (Z.shiftr v k) 256 ltac:(lia)). lia.
Qed.

Lemma big_endian_PutUint64 (v : Z) : 0 ≤ v < 2 ^ 64 → big_endian (PutUint64 v) = v.
Proof.
  intros Hv. unfold big_endian, PutUint64. cbn [fold_left].
  rewrite !Z_of_byte_of_Z.
  assert (Htop : Z.shiftr v 64 = 0).
  { rewrite Z.shiftr_div_pow2 by lia. apply Z.div_small. lia. }
  pose proof (shiftr_byte_step v 56 64 ltac:(lia) eq_refl) as H7.
  pose proof (shiftr_byte_step v 48 56 ltac:(lia) eq_refl) as H6.
  pose proof (shiftr_byte_step v 40 48 ltac:(lia) eq_refl) as H5.
  pose proof (shiftr_byte_step v 32 40 ltac:(lia) eq_refl) as H4.
  pose proof (shiftr_byte_step v 24 32 ltac:(lia) eq_refl) as H3.
  pose proof (shiftr_byte_step v 16 24 ltac:(lia) eq_refl) as H2.
  pose proof (shiftr_byte_step v 8 16 ltac:(lia) eq_refl) as H1.
  pose proof (shiftr_byte_step v 0 8 ltac:(lia) eq_refl) as H0.
  rewrite Z.shiftr_0_r in H0. lia.
Qed.

Lemma big_endian_PutUint16 (v : Z) : 0 ≤ v < 2 ^ 16 → big_endian (PutUint16 v) = v.
Proof.
  intros Hv. unfold big_endian, PutUint16. cbn [fold_left].
  rewrite !Z_of_byte_of_Z.
  assert (Htop : Z.shiftr v 16 = 0).
  { rewrite Z.shiftr_div_pow2 by lia. apply Z.div_small. lia. }
  pose proof (shiftr_byte_step v 8 16 ltac:(lia) eq_refl) as H1.
  pose proof (shiftr_byte_step v 0 8 ltac:(lia) eq_refl) as H0.
  rewrite Z.shiftr_0_r in H0. lia.
Qed.

(** X21.  [writeUint16To] and [writeUint64To] hand the writer two and
    eight bytes that stand for the number, most significant byte first, and
    [writeUint8To] the one byte.  Whatever the writer does, each helper
    returns the error of the writer and adds to [*n], in [int64], the count
    that the writer reports, also when that count is short of the bytes
    given. *)
Theorem write_helpers :
  ∀ (W : Type) (Write : W → Bytes → (Z * option error) * W) (w : W) (n : Z),
    (∀ v : Z, 0 ≤ v < 2 ^ 16 →
       ∃ bs, length bs = 2%nat ∧ big_endian bs = v ∧
             writeUint16To Write w v n = writeTo Write w (Some bs) n) ∧
    (∀ v : Z, 0 ≤ v < 2 ^ 64 →
       ∃ bs, length bs = 8%nat ∧ big_endian bs = v ∧
             writeUint64To Write w v n = writeTo Write w (Some bs) n) ∧
    (∀ b : byte, writeUint8To Write w b n = writeTo Write w (Some [b]) n) ∧
    (∀ (p : Bytes) (nn : Z) (err : option error) (w' : W),
       Write w p = ((nn, err), w') →
       writeTo Write w p n = (err, w', wrap64 (n + nn))).
Proof.
  intros W Write w n. split; [|split; [|split]].
  - intros v Hv. exists (PutUint16 v). split; [done|].
    split; [by apply big_endian_PutUint16|done].
  - intros v Hv. exists (PutUint64 v). split; [done|].
    split; [by apply big_endian_PutUint64|done].
  - done.
  - intros p nn err w' HW. unfold writeTo. by rewrite HW.
Qed.

(** X21 on the number 258 written as 16 bits after three bytes. *)
Lemma write_helpers_witness :
  ∃ bs, length bs = 2%nat ∧ big_endian bs = 258 ∧
        writeUint16To buffer_Write [Byte.x00] 258 3
        = writeTo buffer_Write [Byte.x00] (Some bs) 3.
Proof.
  apply (proj1 (write_helpers (list byte) buffer_Write [Byte.x00] 3) 258).
  lia.
Defined.

(* ================================================================== *)
(** * Slices that can be sorted *)
(* ================================================================== *)

Section SortFacts.
Context {E : Type} (key : E → Bytes).

Lemma slice_Less_in_range (a : list E) (i j : nat) (x y : E) :
  a !! i = Some x → a !! j = Some y →
  slice_Less key a i j = Returns (Compare (key x) (key y) =? -1).
Proof. intros Hi Hj. unfold slice_Less. by rewrite Hi, Hj. Qed.

Lemma insert_swap_head (t : list E) (j : nat) (h y : E) :
  t !! j = Some y → y :: <[j := h]> t ≡ₚ h :: t.
Proof.
  revert j. induction t as [|c t IH]; intros j Hj; [done|].
  destruct j as [|j]; simpl in *.
  - injection Hj as ->. apply perm_swap.
  - rewrite (perm_swap c y), (IH j Hj). apply perm_swap.
Qed.

Lemma swap_Permutation (a : list E) (i j : nat) (x y : E) :
  a !! i = Some x → a !! j = Some y →
  <[j := x]> (<[i := y]> a) ≡ₚ a.
Proof.
  revert i j. induction a as [|h t IH]; intros i j Hi Hj; [done|].
  destruct i as [|i], j as [|j]; simpl in *.
  - by injection Hi as ->.
  - injection Hi as ->. by apply insert_swap_head.
  - injection Hj as ->. by apply insert_swap_head.
  - by rewrite (IH i j Hi Hj).
Qed.

End SortFacts.

(** X22.  [Less] of [MetricElems] and of [byteSlices] is a strict order on
    the indices of the slice, as sorting needs it: no element is less than
    itself, of two elements at most one is less than the other, [Less] is
    transitive, and two elements of which neither is less than the other
    are equal under [bytes.Equal].  [Swap] exchanges the two elements and
    leaves the others in place, so that the slice keeps its length and its
    elements, and swapping again restores it.  An index that is not below
    the length makes [Less] and [Swap] panic. *)
Theorem sort_interface :
  ∀ (E : Type) (key : E → Bytes) (a : list E),
    (∀ (i j k : nat) (x y z : E),
       a !! i = Some x → a !! j = Some y → a !! k = Some z →
       slice_Less key a i i = Returns false ∧
       (slice_Less key a i j = Returns true → slice_Less key a j i = Returns false) ∧
       (slice_Less key a i j = Returns true → slice_Less key a j k = Returns true →
        slice_Less key a i k = Returns true) ∧
       (slice_Less key a i j = Returns false ∧ slice_Less key a j i = Returns false
        ↔ Equal (key x) (key y) = true) ∧
       ∃ a', slice_Swap a i j = Returns a' ∧
             a' !! i = Some y ∧ a' !! j = Some x ∧
             (∀ m : nat, m ≠ i → m ≠ j → a' !! m = a !! m) ∧
             slice_Len a' = slice_Len a ∧ a' ≡ₚ a ∧
             slice_Swap a' i j = Returns a) ∧
    (∀ i j : nat,
       (length a ≤ i)%nat ∨ (length a ≤ j)%nat →
       (∃ p, slice_Less key a i j = Panics p) ∧ (∃ p, slice_Swap a i j = Panics p)).
Proof.
  intros E key a. split.
  - intros i j k x y z Hi Hj Hk.
    rewrite !(slice_Less_in_range key a _ _ _ _ Hi Hi),
            !(slice_Less_in_range key a _ _ _ _ Hi Hj),
            !(slice_Less_in_range key a _ _ _ _ Hj Hi),
            !(slice_Less_in_range key a _ _ _ _ Hj Hk),
            !(slice_Less_in_range key a _ _ _ _ Hi Hk).
    unfold Compare.
    pose proof (compare_bytes_swap (content (key x)) (content (key y))) as Hswap.
    split; [|split; [|split; [|split]]].
    + by rewrite compare_bytes_refl.
    + intros [= Hlt%Z.eqb_eq]. f_equal. apply Z.eqb_neq. lia.
    + intros [= Hxy%Z.eqb_eq] [= Hyz%Z.eqb_eq]. f_equal. apply Z.eqb_eq.
      by apply compare_bytes_trans with (content (key y)).
    + rewrite Equal_true, <- compare_bytes_eq.
      pose proof (compare_bytes_range (content (key x)) (content (key y))) as Hr.
      split.
      * intros [[= Hxy%Z.eqb_neq] [= Hyx%Z.eqb_neq]]. lia.
      * intros Heq. rewrite Hswap, Heq. done.
    + apply lookup_lt_Some in Hi as Hi', Hj as Hj'.
      assert (Hai : <[j := x]> (<[i := y]> a) !! i = Some y).
      { rewrite list_lookup_insert. destruct (decide (j = i ∧ _)) as [[-> _]|_].
        - congruence.
        - by rewrite list_lookup_insert_eq. }
      assert (Haj : <[j := x]> (<[i := y]> a) !! j = Some x).
      { rewrite list_lookup_insert_eq; [done|]. by rewrite length_insert. }
      exists (<[j := x]> (<[i := y]> a)).
      split; [by unfold slice_Swap; rewrite Hj, Hi|].
      split; [exact Hai|]. split; [exact Haj|]. split; [|split; [|split]].
      * intros m Hmi Hmj. by rewrite !list_lookup_insert_ne.
      * unfold slice_Len. by rewrite !length_insert.
      * by apply swap_Permutation.
      * unfold slice_Swap. rewrite Haj, Hai. f_equal.
        apply list_eq. intros m.
        destruct (decide (m = j)) as [->|Hmj].
        { rewrite list_lookup_insert_eq; [done|]. by rewrite !length_insert. }
        rewrite list_lookup_insert_ne by done.
        destruct (decide (m = i)) as [->|Hmi].
        { rewrite list_lookup_insert_eq; [done|]. by rewrite !length_insert. }
        by rewrite !list_lookup_insert_ne.
  - intros i j Hout. unfold slice_Less, slice_Swap.
    destruct (a !! i) as [x|] eqn:Hi, (a !! j) as [y|] eqn:Hj; try (split; by eexists).
    apply lookup_lt_Some in Hi, Hj. lia.
Qed.

(** X22 on three byte slices. *)
Lemma sort_interface_witness :
  let a := [Sample.b "mem"; Sample.b "cpu"; Sample.b "disk"] in
  byteSlices_Less a 1 2 = Returns true ∧
  (byteSlices_Less a 1 2 = Returns true → byteSlices_Less a 2 1 = Returns false).
Proof.
  intros a. split; [reflexivity|].
  apply (proj1 (sort_interface Bytes (λ b, b) a) 1%nat 2%nat 0%nat
           (Sample.b "cpu") (Sample.b "disk") (Sample.b "mem") eq_refl eq_refl eq_refl).
Defined.

(* ================================================================== *)
(** * The series cursor at work *)
(* ================================================================== *)

(** ** Comparing rows *)

Section CompareFacts.
Context {T Ptr : Type} `{EqDecision Ptr}.
Context (deref : Ptr → SeriesCursorRow T) (CompareTags : T → T → Z).

(** X23.  [Compare] on rows: a row is equal to itself, whatever
    [CompareTags] says, and nil comes before every row.  Between two
    rows, the names decide when they differ under [bytes.Compare], and the
    tags decide otherwise.  When [CompareTags] is antisymmetric, so is
    [Compare]: exchanging the rows changes the sign of the result. *)
Theorem SeriesCursorRow_Compare_order :
  ∀ (r other : option Ptr),
    SeriesCursorRow_Compare deref CompareTags r r = 0 ∧
    (r ≠ None →
     SeriesCursorRow_Compare deref CompareTags None r = -1 ∧
     SeriesCursorRow_Compare deref CompareTags r None = 1) ∧
    (∀ p q, r = Some p → other = Some q → p ≠ q →
       SeriesCursorRow_Compare deref CompareTags r other =
         if Equal (row_Name (deref p)) (row_Name (deref q))
         then CompareTags (row_Tags (deref p)) (row_Tags (deref q))
         else Compare (row_Name (deref p)) (row_Name (deref q))) ∧
    ((∀ a b, CompareTags b a = - CompareTags a b) →
     SeriesCursorRow_Compare deref CompareTags other r
     = - SeriesCursorRow_Compare deref CompareTags r other).
Proof.
  intros r other. unfold SeriesCursorRow_Compare. split; [|split; [|split]].
  - by rewrite decide_True.
  - intros Hr. destruct r as [p|]; [|done].
    by rewrite !decide_False by done.
  - intros p q -> -> Hpq. rewrite decide_False by congruence. simpl.
    unfold Equal, Compare. destruct (Z.eqb_spec (compare_bytes
      (content (row_Name (deref p))) (content (row_Name (deref q)))) 0) as [H0|H0];
      simpl.
    + apply compare_bytes_eq in H0. by rewrite bool_decide_eq_true_2.
    + rewrite bool_decide_eq_false_2; [done|]. by rewrite <- compare_bytes_eq.
  - intros Hanti. destruct (decide (r = other)) as [->|Hne].
    + by rewrite decide_True.
    + rewrite decide_False by congruence.
      destruct r as [p|], other as [q|]; try done. simpl. unfold Compare.
      rewrite (compare_bytes_swap (content (row_Name (deref p)))
                 (content (row_Name (deref q)))).
      destruct (Z.eqb_spec (compare_bytes (content (row_Name (deref p)))
                              (content (row_Name (deref q)))) 0) as [H0|H0].
      * rewrite H0. simpl. apply Hanti.
      * destruct (Z.eqb_spec (- compare_bytes (content (row_Name (deref p)))
                                (content (row_Name (deref q)))) 0); [lia|done].
Qed.
End CompareFacts.

(** X23 on two rows of one name, with numbers for tags. *)
Lemma SeriesCursorRow_Compare_order_witness :
  let deref (p : nat) : SeriesCursorRow Z :=
    {| row_Name := Sample.b "cpu"; row_Tags := Z.of_nat p |} in
  SeriesCursorRow_Compare deref Z.sub (Some 5%nat) (Some 3%nat)
  = - SeriesCursorRow_Compare deref Z.sub (Some 3%nat) (Some 5%nat).
Proof.
  intros deref.
  apply (SeriesCursorRow_Compare_order deref Z.sub (Some 3%nat) (Some 5%nat)).
  intros a b. lia.
Defined.

Section CursorFacts.
Context {M IS T : Type} `{CursorCalls M IS T}.

(** ** Closing the cursor *)

Lemma closes_closed (n : nat) (c : cursor M IS T) :
  cur_once c = true → closes n c = (replicate n None, c).
Proof.
  intros Honce. induction n as [|n IH]; [done|]. simpl.
  unfold seriesCursor_Close. by rewrite Honce, IH.
Qed.

(** X24.  [Close] works once.  The first call closes the metric iterator,
    if the cursor has one, and returns the error of that; every later call
    returns nil and leaves the cursor, with the metric iterator as the one
    [Close] has left it, untouched. *)
Theorem seriesCursor_Close_once :
  ∀ (c : cursor M IS T) (n : nat),
    cur_once c = false →
    ∃ err c1,
      seriesCursor_Close c = (err, c1) ∧
      closes (S n) c = (err :: replicate n None, c1) ∧
      cur_once c1 = true ∧
      match cur_mitr (cur_fields c) with
      | None => err = None ∧ cur_mitr (cur_fields c1) = None
      | Some m =>
          err = fst (M_Close m) ∧
          cur_mitr (cur_fields c1) = Some (snd (M_Close m))
      end.
Proof.
  intros c n Honce.
  destruct (seriesCursor_Close c) as [err c1] eqn:HC.
  assert (Hc1 : cur_once c1 = true ∧
                match cur_mitr (cur_fields c) with
                | None => err = None ∧ cur_mitr (cur_fields c1) = None
                | Some m => err = fst (M_Close m) ∧
                            cur_mitr (cur_fields c1) = Some (snd (M_Close m))
                end).
  { unfold seriesCursor_Close in HC. rewrite Honce in HC.
    destruct (cur_mitr (cur_fields c)) as [m|] eqn:Hm.
    - destruct (M_Close m) as [e m']. by injection HC as <- <-.
    - by injection HC as <- <-. }
  destruct Hc1 as [Ho Hm]. exists err, c1. split; [done|].
  split; [|by split]. simpl. by rewrite HC, closes_closed.
Qed.

(** ** The rows of a cursor *)

Lemma Next_row (fuel : nat) (c : cursor M IS T) (o : nat) (key : Bytes) :
  cur_ofs (cur_fields c) = Z.of_nat o →
  cur_keys (cur_fields c) !! o = Some key →
  seriesCursor_Next fuel c =
    Some (Returns ((CurRow, None),
                   {| cur_fields := with_keys (cur_fields c) (cur_keys (cur_fields c))
                                      (Z.of_nat o + 1);
                      cur_once := cur_once c;
                      cur_row := row_of key |})).
Proof.
  intros Hofs Hkey. apply lookup_lt_Some in Hkey as Hlt.
  assert (Hbody : ∀ X : option (outcome ((row_ptr * option error) * cursor M IS T)),
            (if cur_ofs (cur_fields c) =? Z.of_nat (length (cur_keys (cur_fields c)))
             then X
             else
               match (if cur_ofs (cur_fields c) <? 0 then None
                      else cur_keys (cur_fields c) !! Z.to_nat (cur_ofs (cur_fields c))) with
               | None => Some (Panics (IndexOutOfRange (Z.to_nat (cur_ofs (cur_fields c)))
                                         (length (cur_keys (cur_fields c)))))
               | Some key =>
                   let '(name, tags) := ParseSeriesKey key in
                   Some (Returns ((CurRow, None),
                          {| cur_fields := with_keys (cur_fields c) (cur_keys (cur_fields c))
                                             (cur_ofs (cur_fields c) + 1);
                             cur_once := cur_once c;
                             cur_row := {| row_Name := name; row_Tags := tags |} |}))
               end) =
            Some (Returns ((CurRow, None),
                   {| cur_fields := with_keys (cur_fields c) (cur_keys (cur_fields c))
                                      (Z.of_nat o + 1);
                      cur_once := cur_once c;
                      cur_row := row_of key |}))).
  { intros X. rewrite Hofs.
    destruct (Z.eqb_spec (Z.of_nat o) (Z.of_nat (length (cur_keys (cur_fields c)))));
      [lia|].
    destruct (Z.ltb_spec (Z.of_nat o) 0); [lia|].
    rewrite Nat2Z.id, Hkey. unfold row_of. by destruct (ParseSeriesKey key). }
  destruct fuel; apply Hbody.
Qed.

Lemma readSeriesKeys_well (f : @seriesCursor M IS) (m : Bytes) :
  cur_ofs f = Z.of_nat (length (cur_keys f)) →
  reads_well (cur_indexSet f) (cur_cond f) m →
  ∃ f2 (o2 : nat),
    readSeriesKeys f m = (None, f2) ∧
    cur_indexSet f2 = cur_indexSet f ∧ cur_cond f2 = cur_cond f ∧
    cur_mitr f2 = cur_mitr f ∧
    cur_ofs f2 = Z.of_nat o2 ∧ (o2 ≤ length (cur_keys f2))%nat ∧
    drop o2 (cur_keys f2) = keys_of (cur_indexSet f) (cur_cond f) m.
Proof.
  intros Hofs Hwell. unfold readSeriesKeys, reads_well, keys_of in *.
  destruct (MetricSeriesByExprIterator (cur_indexSet f) m (cur_cond f))
    as [[sitr|] [e|]]; try done.
  - destruct (slurp (cur_indexSet f) sitr []) as [keys err].
    simpl in Hwell. subst err.
    exists (with_keys f (sort_seriesKeys keys) 0), 0%nat. simpl.
    repeat split; lia.
  - exists f, (length (cur_keys f)). repeat split; [done|lia|].
    by rewrite drop_all.
Qed.

Lemma to_return_more_fuel (fuel fuel' : nat) (c : cursor M IS T) expected :
  (fuel ≤ fuel')%nat → to_return fuel c expected → to_return fuel' c expected.
Proof.
  intros Hle (ms & mitr & o & ? & ? & ? & ? & ? & ? & ?).
  exists ms, mitr, o. repeat split; try done. lia.
Qed.

Lemma Next_step (ms : list Bytes) :
  ∀ (fuel : nat) (c : cursor M IS T) (mitr : M) (o : nat),
    cur_mitr (cur_fields c) = Some mitr →
    cur_ofs (cur_fields c) = Z.of_nat o →
    (o ≤ length (cur_keys (cur_fields c)))%nat →
    yields mitr ms →
    Forall (reads_well (cur_indexSet (cur_fields c)) (cur_cond (cur_fields c))) ms →
    (length ms < fuel)%nat →
    match map (row_of) (drop o (cur_keys (cur_fields c)))
          ++ rows_of (cur_indexSet (cur_fields c)) (cur_cond (cur_fields c)) ms with
    | [] => ∃ c', seriesCursor_Next fuel c = Some (Returns ((NilRow, None), c'))
    | r :: rest =>
        ∃ c', seriesCursor_Next fuel c = Some (Returns ((CurRow, None), c')) ∧
              cur_row c' = r ∧ to_return fuel c' rest
    end.
Proof.
  induction ms as [|m0 ms IH]; intros fuel c mitr o Hmitr Hofs Ho Hy Hwell Hfuel.
  - (* no metric left *)
    destruct (decide (o = length (cur_keys (cur_fields c)))) as [->|Hlt].
    + rewrite drop_all. simpl. inversion Hy as [? mitr' HN|]; subst.
      destruct fuel as [|fuel]; [simpl in Hfuel; lia|]. simpl.
      rewrite Hofs, Z.eqb_refl, Hmitr, HN. simpl. by eexists.
    + destruct (cur_keys (cur_fields c) !! o) as [key|] eqn:Hkey;
        [|apply lookup_ge_None in Hkey; lia].
      rewrite (drop_S _ key o Hkey). simpl.
      eexists. split; [by apply Next_row|]. split; [done|].
      exists [], mitr, (S o). simpl.
      apply lookup_lt_Some in Hkey as Hlt'.
      repeat split; try done; lia.
  - destruct (decide (o = length (cur_keys (cur_fields c)))) as [->|Hlt].
    + (* the keys are used up: the next metric is read *)
      rewrite drop_all. cbn [map app].
      inversion Hy as [|? mitr' m ms' HN Hy']; subst.
      apply Forall_cons in Hwell as [Hm Hrest].
      destruct fuel as [|fuel]; [simpl in Hfuel; lia|]. simpl in Hfuel.
      destruct (readSeriesKeys_well (with_mitr (cur_fields c) (Some mitr')) (Some m)
                  Hofs Hm) as (f2 & o2 & HR & His & Hcond & Hm2 & Hofs2 & Ho2 & Hdrop).
      cbn [with_mitr cur_indexSet cur_cond cur_mitr] in His, Hcond, Hm2, Hdrop.
      assert (HNext : seriesCursor_Next (S fuel) c =
                seriesCursor_Next fuel {| cur_fields := f2; cur_once := cur_once c;
                             cur_row := cur_row c |}).
      { simpl. rewrite Hofs, Z.eqb_refl, Hmitr, HN. simpl. by rewrite HR. }
      specialize (IH fuel {| cur_fields := f2; cur_once := cur_once c;
                             cur_row := cur_row c |} mitr' o2).
      cbn [cur_fields] in IH. rewrite His, Hcond, Hdrop in IH.
      specialize (IH Hm2 Hofs2 Ho2 Hy' Hrest ltac:(lia)).
      rewrite HNext.
      change (rows_of (cur_indexSet (cur_fields c)) (cur_cond (cur_fields c))
                (Some m :: ms))
        with (map row_of (keys_of (cur_indexSet (cur_fields c))
                            (cur_cond (cur_fields c)) (Some m))
              ++ rows_of (cur_indexSet (cur_fields c)) (cur_cond (cur_fields c)) ms).
      destruct (map row_of
                  (keys_of (cur_indexSet (cur_fields c)) (cur_cond (cur_fields c)) (Some m))
                ++ rows_of (cur_indexSet (cur_fields c)) (cur_cond (cur_fields c)) ms)
        as [|r rest].
      * exact IH.
      * destruct IH as (c' & HN' & Hrow & Hinv). exists c'.
        split; [done|]. split; [done|].
        apply (to_return_more_fuel fuel); [lia|done].
    + destruct (cur_keys (cur_fields c) !! o) as [key|] eqn:Hkey;
        [|apply lookup_ge_None in Hkey; lia].
      rewrite (drop_S _ key o Hkey). simpl.
      eexists. split; [by apply Next_row|]. split; [done|].
      exists (m0 :: ms), mitr, (S o). simpl.
      apply lookup_lt_Some in Hkey as Hlt'.
      repeat split; try done; lia.
Qed.

Lemma rows_spec (expected : list (SeriesCursorRow T)) :
  ∀ (fuel n : nat) (c : cursor M IS T),
    to_return fuel c expected → (length expected ≤ n)%nat →
    ∃ c_end c',
      rows fuel n c = (expected, c_end) ∧
      seriesCursor_Next fuel c_end = Some (Returns ((NilRow, None), c')).
Proof.
  induction expected as [|r rest IH]; intros fuel n c Hinv Hn.
  - destruct Hinv as (ms & mitr & o & Hmitr & Hofs & Ho & Hy & Hwell & Hfuel & Hexp).
    pose proof (Next_step ms fuel c mitr o Hmitr Hofs Ho Hy Hwell Hfuel) as Hstep.
    rewrite <- Hexp in Hstep. destruct Hstep as [c' HN].
    exists c, c'. split; [|done]. destruct n; [done|]. simpl. by rewrite HN.
  - destruct Hinv as (ms & mitr & o & Hmitr & Hofs & Ho & Hy & Hwell & Hfuel & Hexp).
    pose proof (Next_step ms fuel c mitr o Hmitr Hofs Ho Hy Hwell Hfuel) as Hstep.
    rewrite <- Hexp in Hstep. destruct Hstep as (c1 & HN & Hrow & Hinv).
    destruct n as [|n]; [simpl in Hn; lia|]. simpl in Hn.
    destruct (IH fuel n c1 Hinv ltac:(lia)) as (c_end & c' & Hrows & Hend).
    exists c_end, c'. split; [|done]. simpl. by rewrite HN, Hrows, Hrow.
Qed.

(** X25.  The rows of a cursor.  Take a cursor that holds no unread keys,
    as a new one does, whose metric iterator returns the names [ms] and
    then nil, and let reading the series of each of these metrics not fail.
    Then the calls of [Next] return, metric after metric in the order of
    [ms], a row for each series key of the metric that is not empty, in the
    order in which the keys have been sorted; the call after the last row
    returns nil and no error.  A metric without series iterator
    contributes no row. *)
Theorem seriesCursor_Next_rows :
  ∀ (c : cursor M IS T) (mitr : M) (ms : list Bytes) (fuel n : nat),
    cur_mitr (cur_fields c) = Some mitr →
    cur_ofs (cur_fields c) = Z.of_nat (length (cur_keys (cur_fields c))) →
    yields mitr ms →
    Forall (reads_well (cur_indexSet (cur_fields c)) (cur_cond (cur_fields c))) ms →
    (length ms < fuel)%nat →
    (length (rows_of (cur_indexSet (cur_fields c)) (cur_cond (cur_fields c)) ms) ≤ n)%nat →
    ∃ c_end c',
      rows fuel n c
      = (rows_of (cur_indexSet (cur_fields c)) (cur_cond (cur_fields c)) ms, c_end) ∧
      seriesCursor_Next fuel c_end = Some (Returns ((NilRow, None), c')).
Proof.
  intros c mitr ms fuel n Hmitr Hofs Hy Hwell Hfuel Hn.
  apply rows_spec; [|done].
  exists ms, mitr, (length (cur_keys (cur_fields c))).
  repeat split; try done. by rewrite drop_all.
Qed.

End CursorFacts.

(** X24 on the sample cursor. *)
Lemma seriesCursor_Close_once_witness :
  closes 3 CursorSample.start
  = ([Some "close failed"%string; None; None],
     {| cur_fields := with_mitr (cur_fields CursorSample.start) (Some []);
        cur_once := true; cur_row := cur_row CursorSample.start |}).
Proof.
  destruct (seriesCursor_Close_once CursorSample.start 2 eq_refl)
    as (err & c1 & HC & Hcloses & _).
  injection HC as <- <-. exact Hcloses.
Defined.

(** X25 on the sample cursor: the two series of "cpu" with a key, sorted. *)
Lemma seriesCursor_Next_rows_witness :
  fst (rows 3 5 CursorSample.start)
  = [ {| row_Name := Sample.b "cpu,host=a"; row_Tags := 10%nat |};
      {| row_Name := Sample.b "cpu,host=c"; row_Tags := 10%nat |} ].
Proof.
  destruct (seriesCursor_Next_rows
              CursorSample.start [Sample.b "cpu"; Sample.b "mem"]
              [Sample.b "cpu"; Sample.b "mem"] 3 5 eq_refl eq_refl)
    as (c_end & c' & Hrows & _).
  - eapply yields_name; [reflexivity|]. eapply yields_name; [reflexivity|].
    eapply yields_end. reflexivity.
  - repeat constructor.
  - simpl. lia.
  - vm_compute. lia.
  - rewrite Hrows. reflexivity.
Defined.
